(** * Folder Git: the repository registry (src/repoRegistry.ts)

    A shallow embedding of [RepoRegistry] and of the helpers it relies on,
    followed by the properties of the registry that the specification states.

    Conventions of the embedding.
    - A JavaScript string is the list of its UTF-16 code units ([jsstring]);
      [str] turns a literal into that representation.
    - The registry's [Map<string, RepoInstance>] is an association list in
      insertion order with unique keys ([JsMap]).
    - The version-control executable, the file system, the interval timers of
      the host, the console and the clock are fields of [World]; every
      method of the registry is a computation in the monad [M], which threads
      the world and may throw.
    - An [async] method is run to completion: interleavings of two pending
      operations at an [await] are not part of the model. *)

From Stdlib Require Import ZArith NArith Ascii String DecimalString.
From stdpp Require Import base option list gmap strings.

Local Open Scope Z_scope.
Local Open Scope list_scope.

(* ===================================================================== *)
(** * 1. JavaScript strings                                               *)
(* ===================================================================== *)

Abbreviation jsstring := (list N).

(** A literal, code unit by code unit. *)
Definition str (s : string) : jsstring :=
  map N_of_ascii (list_ascii_of_string s).
Arguments str : simpl never.

Definition LF : N := 10%N.      (* "\n" *)
Definition CR : N := 13%N.      (* "\r" *)
Definition DQUOTE : N := 34%N.  (* the double quote *)
Definition DOLLAR : N := 36%N.  (* "$" *)

(** [s.length] *)
Definition js_length (s : jsstring) : Z := Z.of_nat (length s).

(** [s === t] on strings. *)
Definition js_eqb (s t : jsstring) : bool := bool_decide (s = t).

(** Truthiness of a string: only the empty string is falsy. *)
Definition truthy (s : jsstring) : bool :=
  match s with [] => false | _ :: _ => true end.

(** [s || d] for strings. *)
Definition or_else (s d : jsstring) : jsstring :=
  if truthy s then s else d.

(** [o || d] where [o] is [string | null]. *)
Definition opt_or_else (o : option jsstring) (d : jsstring) : jsstring :=
  match o with
  | Some s => or_else s d
  | None => d
  end.

(** [s.startsWith(p)] *)
Fixpoint startsWith (s p : jsstring) {struct p} : bool :=
  match p with
  | [] => true
  | c :: p' =>
      match s with
      | [] => false
      | d :: s' => N.eqb d c && startsWith s' p'
      end
  end.

(** [s.endsWith("\n")] *)
Definition endsWithLF (s : jsstring) : bool :=
  match last s with
  | Some c => N.eqb c LF
  | None => false
  end.

(** [s.substring(0, n)] *)
Definition substring0 (n : nat) (s : jsstring) : jsstring := take n s.

(** [s.lastIndexOf("/")]; -1 when there is no slash. *)
Fixpoint lastIndexOfSlash_from (i : Z) (best : Z) (s : jsstring) : Z :=
  match s with
  | [] => best
  | c :: s' =>
      lastIndexOfSlash_from (i + 1) (if N.eqb c 47%N then i else best) s'
  end.

Definition lastIndexOfSlash (s : jsstring) : Z :=
  lastIndexOfSlash_from 0 (-1) s.

(** White space and line terminators, the code units [trim] strips. *)
Definition isWhiteSpace (c : N) : bool :=
  (N.eqb c 9 || N.eqb c 10 || N.eqb c 11 || N.eqb c 12 || N.eqb c 13
   || N.eqb c 32 || N.eqb c 160 || N.eqb c 5760
   || (N.leb 8192 c && N.leb c 8202)
   || N.eqb c 8232 || N.eqb c 8233 || N.eqb c 8239 || N.eqb c 8287
   || N.eqb c 12288 || N.eqb c 65279)%N.

Fixpoint trimStart (s : jsstring) : jsstring :=
  match s with
  | [] => []
  | c :: s' => if isWhiteSpace c then trimStart s' else s
  end.

(** [s.trim()] *)
Definition trim (s : jsstring) : jsstring :=
  rev (trimStart (rev (trimStart s))).

(** [cons_head c ls] puts [c] in front of the first line of [ls]. *)
Definition cons_head (c : N) (ls : list jsstring) : list jsstring :=
  match ls with
  | [] => [[c]]
  | l :: r => (c :: l) :: r
  end.

(** [s.split(/\r?\n/)]: the separator at a position is "\r\n" when the
    text there starts with it, else "\n"; a "\r" alone is ordinary text. *)
Fixpoint split_lines (s : jsstring) : list jsstring :=
  match s with
  | [] => [[]]
  | c :: s' =>
      if N.eqb c LF then [] :: split_lines s'
      else
        match s' with
        | d :: s'' =>
            if N.eqb c CR && N.eqb d LF then [] :: split_lines s''
            else cons_head c (split_lines s')
        | [] => cons_head c (split_lines s')
        end
  end.

(** [lines.join("\n")] *)
Fixpoint join_lines (ls : list jsstring) : jsstring :=
  match ls with
  | [] => []
  | [l] => l
  | l :: r => l ++ LF :: join_lines r
  end.

(** The first occurrence of [pat] in [s], as the text before and after it. *)
Fixpoint find_first (pat s : jsstring) : option (jsstring * jsstring) :=
  if startsWith s pat then Some ([], drop (length pat) s)
  else
    match s with
    | [] => None
    | c :: s' =>
        match find_first pat s' with
        | Some (before, after) => Some (c :: before, after)
        | None => None
        end
    end.

(** GetSubstitution of ECMAScript for a string pattern (no capture groups):
    in the replacement text "$$" stands for "$", "$&" for the match,
    "$`" for the text before it and "$'" for the text after it; every other
    code unit, a "$" followed by anything else included, is copied. *)
Fixpoint getSubstitution (matched before after replacement : jsstring)
  : jsstring :=
  match replacement with
  | [] => []
  | c :: r =>
      if N.eqb c DOLLAR then
        match r with
        | d :: r' =>
            if N.eqb d DOLLAR then
              DOLLAR :: getSubstitution matched before after r'
            else if N.eqb d 38%N then
              matched ++ getSubstitution matched before after r'
            else if N.eqb d 96%N then
              before ++ getSubstitution matched before after r'
            else if N.eqb d 39%N then
              after ++ getSubstitution matched before after r'
            else c :: getSubstitution matched before after r
        | [] => [c]
        end
      else c :: getSubstitution matched before after r
  end.

(** [s.replace(pat, replacement)] with a string pattern: only the first
    occurrence is replaced. *)
Definition js_replace (s pat replacement : jsstring) : jsstring :=
  match find_first pat s with
  | None => s
  | Some (before, after) =>
      before ++ getSubstitution pat before after replacement ++ after
  end.

(* ===================================================================== *)
(** * 2. JavaScript [Map] with string keys                                *)
(* ===================================================================== *)

(** Entries in insertion order; [map_set] keeps the position of a key that
    is already present, as [Map.prototype.set] does. *)
Definition JsMap (V : Type) : Type := list (jsstring * V).

Fixpoint map_get {V} (k : jsstring) (m : JsMap V) : option V :=
  match m with
  | [] => None
  | (k', v) :: m' => if js_eqb k' k then Some v else map_get k m'
  end.

Fixpoint map_set {V} (k : jsstring) (v : V) (m : JsMap V) : JsMap V :=
  match m with
  | [] => [(k, v)]
  | (k', v') :: m' =>
      if js_eqb k' k then (k, v) :: m' else (k', v') :: map_set k v m'
  end.

Fixpoint map_delete {V} (k : jsstring) (m : JsMap V) : JsMap V :=
  match m with
  | [] => []
  | (k', v') :: m' =>
      if js_eqb k' k then map_delete k m' else (k', v') :: map_delete k m'
  end.

Definition map_keys {V} (m : JsMap V) : list jsstring := map fst m.
Definition map_values {V} (m : JsMap V) : list V := map snd m.

(* ===================================================================== *)
(** * 3. Data model (src/types.ts and the simple-git result types)        *)
(* ===================================================================== *)

Record FolderRepoConfig := {
  folderPath : jsstring;
  remoteName : jsstring;
  remoteUrl : jsstring;
  autoPush : bool;
  autoCommitInterval : Z;
  commitMessageTemplate : jsstring;
  githubRepoName : jsstring;
  isPrivate : bool;
}.

Record PluginSettings := {
  settingsRepos : list FolderRepoConfig;
  gitBinaryPath : jsstring;
  showUntrackedFiles : bool;
  refreshInterval : Z;
  githubToken : jsstring;
  githubUsername : jsstring;
}.

(** [FileChangeType]: "M" | "A" | "D" | "R" | "?" | "U" | "!". *)
Inductive FileChangeType :=
| Modified | Added | Deleted | Renamed | Untracked | Unmerged | Ignored.

Definition FileChangeType_code (t : FileChangeType) : jsstring :=
  match t with
  | Modified => str "M"
  | Added => str "A"
  | Deleted => str "D"
  | Renamed => str "R"
  | Untracked => str "?"
  | Unmerged => str "U"
  | Ignored => str "!"
  end.

Record FileStatusResult := {
  relPath : jsstring;            (* path *)
  vaultPath : jsstring;
  indexStatus : jsstring;
  workingTreeStatus : jsstring;
  displayStatus : FileChangeType;
}.

Record RepoStatus := {
  statusFolderPath : jsstring;   (* folderPath *)
  branch : jsstring;
  staged : list FileStatusResult;
  changed : list FileStatusResult;
  untracked : list jsstring;
  conflicted : list jsstring;
  statusAhead : Z;               (* ahead *)
  statusBehind : Z;              (* behind *)
}.

Record GitLogEntry := {
  entryHash : jsstring;          (* hash *)
  hashShort : jsstring;
  entryMessage : jsstring;       (* message *)
  author : jsstring;
  entryDate : jsstring;          (* date *)
  entryFiles : list jsstring;    (* files *)
}.

(** One record of simple-git's [StatusResult.files]. *)
Record FileStatus := {
  path : jsstring;
  index : jsstring;
  working_dir : jsstring;
}.

(** simple-git's [StatusResult], the fields the registry reads. *)
Record StatusResult := {
  files : list FileStatus;
  current : option jsstring;     (* string | null *)
  tracking : option jsstring;    (* string | null *)
  ahead : Z;
  behind : Z;
}.

(** simple-git's [RemoteWithRefs]. *)
Record RemoteWithRefs := {
  name : jsstring;
  refsFetch : jsstring;          (* refs.fetch *)
  refsPush : jsstring;           (* refs.push *)
}.

Record BranchSummary := {
  branchCurrent : jsstring;      (* current *)
  branchAll : list jsstring;     (* all *)
}.

(** The local [DiffLogEntry] of getLog; [diffFiles] is [diff?.files] with
    each element already projected to its [file]. *)
Record DiffLogEntry := {
  hash : jsstring;
  date : jsstring;
  message : jsstring;
  author_name : jsstring;
  author_email : jsstring;
  diffFiles : option (list jsstring);
}.

(** A handle made by [simpleGit({ baseDir, binary, config })]. *)
Record SimpleGit := {
  baseDir : option jsstring;
  binary : option jsstring;
  handleConfig : list jsstring;
}.

(** A timer handle of the host; every handle is truthy. *)
Inductive TimerHandle := Handle (slot : nat).

Record RepoInstance := {
  config : FolderRepoConfig;
  gitHandle : SimpleGit;         (* git *)
  absolutePath : jsstring;
  autoCommitTimer : option TimerHandle;
}.

(* ===================================================================== *)
(** * 4. The world around the registry                                    *)
(* ===================================================================== *)

Inductive Error :=
| JsError (msg : jsstring)       (* throw new Error(msg) *)
| GitFailure (msg : jsstring)    (* a rejected simple-git promise *)
| GitConstructError (msg : jsstring) (* thrown by the simpleGit factory *)
| FsFailure (code : jsstring).   (* an exception of a node fs call *)

Inductive Result (A : Type) :=
| Ok (a : A)
| Throw (e : Error).
Arguments Ok {A} a.
Arguments Throw {A} e.

(** The operations the registry issues on a handle. *)
Inductive GitCommand :=
| CheckIsRepo
| Status
| Add (what : list jsstring)
| Reset (args : list jsstring)
| Checkout (args : list jsstring)
| Commit (commitMessage : jsstring)
| Diff (args : list jsstring)
| Log (maxCount : Z)
| BranchLocal
| Init
| Clone (url target : jsstring)
| AddRemote (remote url : jsstring)
| GetRemotes
| AddConfig (key value : jsstring) (append : bool) (scope : jsstring)
| Push (args : list jsstring)
| Pull
| Raw (args : list jsstring).

Record GitEvent := {
  onHandle : SimpleGit;
  command : GitCommand;
}.

(** The answers of simple-git and of the external executable behind it.
    Each answer to a command may depend on everything issued so far; the call
    being answered is the last event.  [answerFactory] is the verdict of the
    factory on the options of a handle whose directory exists: later
    versions of the library refuse a custom binary path that holds
    restricted characters. *)
Record GitOracle := {
  answerFactory : SimpleGit -> Result unit;
  answerCheckIsRepo : list GitEvent -> Result bool;
  answerStatus : list GitEvent -> Result StatusResult;
  answerGetRemotes : list GitEvent -> Result (list RemoteWithRefs);
  answerDiff : list GitEvent -> Result jsstring;
  answerLog : list GitEvent -> Result (list DiffLogEntry);
  answerBranchLocal : list GitEvent -> Result BranchSummary;
  answerVoid : list GitEvent -> Result unit;
}.

(** A node of the file system: a file with its content and mode, or a
    directory.  Parent directories are not tracked. *)
Inductive FsNode :=
| File (content : jsstring) (mode : N)
| Dir.

(** An interval timer made by [addRepo]: the folder its callback passes to
    [autoCommit], the delay given to [setInterval], and whether it has been
    cleared. *)
Record TimerSlot := {
  callbackFolder : jsstring;
  delayMs : Z;
  active : bool;
}.

Record World := {
  settings : PluginSettings;      (* plugin.settings *)
  vaultBasePath : jsstring;       (* adapter.getBasePath() *)
  configDir : jsstring;           (* app.vault.configDir *)
  repos : JsMap RepoInstance;     (* this.repos *)
  timers : list TimerSlot;
  fs : gmap jsstring FsNode;
  gitTrace : list GitEvent;
  git : GitOracle;
  consoleErrors : list (jsstring * Error);
  notices : list jsstring;
  nowISO : jsstring;              (* new Date().toISOString() *)
}.

Definition set_repos (r : JsMap RepoInstance) (w : World) : World :=
  {| settings := settings w; vaultBasePath := vaultBasePath w;
     configDir := configDir w; repos := r; timers := timers w; fs := fs w;
     gitTrace := gitTrace w; git := git w;
     consoleErrors := consoleErrors w; notices := notices w;
     nowISO := nowISO w |}.

Definition set_timers (t : list TimerSlot) (w : World) : World :=
  {| settings := settings w; vaultBasePath := vaultBasePath w;
     configDir := configDir w; repos := repos w; timers := t; fs := fs w;
     gitTrace := gitTrace w; git := git w;
     consoleErrors := consoleErrors w; notices := notices w;
     nowISO := nowISO w |}.

Definition set_fs (f : gmap jsstring FsNode) (w : World) : World :=
  {| settings := settings w; vaultBasePath := vaultBasePath w;
     configDir := configDir w; repos := repos w; timers := timers w; fs := f;
     gitTrace := gitTrace w; git := git w;
     consoleErrors := consoleErrors w; notices := notices w;
     nowISO := nowISO w |}.

Definition set_gitTrace (t : list GitEvent) (w : World) : World :=
  {| settings := settings w; vaultBasePath := vaultBasePath w;
     configDir := configDir w; repos := repos w; timers := timers w;
     fs := fs w; gitTrace := t; git := git w;
     consoleErrors := consoleErrors w; notices := notices w;
     nowISO := nowISO w |}.

Definition set_consoleErrors (c : list (jsstring * Error)) (w : World)
  : World :=
  {| settings := settings w; vaultBasePath := vaultBasePath w;
     configDir := configDir w; repos := repos w; timers := timers w;
     fs := fs w; gitTrace := gitTrace w; git := git w;
     consoleErrors := c; notices := notices w; nowISO := nowISO w |}.

Definition set_notices (n : list jsstring) (w : World) : World :=
  {| settings := settings w; vaultBasePath := vaultBasePath w;
     configDir := configDir w; repos := repos w; timers := timers w;
     fs := fs w; gitTrace := gitTrace w; git := git w;
     consoleErrors := consoleErrors w; notices := n; nowISO := nowISO w |}.

(** ** The monad of registry methods *)

Definition M (A : Type) : Type := World -> Result A * World.

Definition ret {A} (a : A) : M A := fun w => (Ok a, w).

Definition throw {A} (e : Error) : M A := fun w => (Throw e, w).

Definition bind {A B} (m : M A) (k : A -> M B) : M B :=
  fun w =>
    match m w with
    | (Ok a, w') => k a w'
    | (Throw e, w') => (Throw e, w')
    end.

(** [try { body } catch (e) { handler(e) }] *)
Definition tryCatch {A} (body : M A) (handler : Error -> M A) : M A :=
  fun w =>
    match body w with
    | (Ok a, w') => (Ok a, w')
    | (Throw e, w') => handler e w'
    end.

Notation "'let*' x := m 'in' k" := (bind m (fun x => k))
  (at level 10, x name, m at level 100, k at level 200).
Notation "m ;;; k" := (bind m (fun _ => k))
  (at level 100, k at level 200, right associativity).

Definition gets {A} (f : World -> A) : M A := fun w => (Ok (f w), w).
Definition modify (f : World -> World) : M unit := fun w => (Ok tt, f w).

(** Issue [c] on handle [h]; the oracle field [answer] gives the outcome. *)
Definition gitCall {A} (h : SimpleGit) (c : GitCommand)
    (answer : GitOracle -> list GitEvent -> Result A) : M A :=
  fun w =>
    let t := gitTrace w ++ [{| onHandle := h; command := c |}] in
    (answer (git w) t, set_gitTrace t w).

(** ** Host services *)

(** [fs.existsSync(p)] *)
Definition existsSync (p : jsstring) : M bool :=
  gets (fun w => bool_decide (is_Some (fs w !! p))).

(** [fs.readFileSync(p, "utf8")]; contents are kept as decoded text. *)
Definition readFileSync (p : jsstring) : M jsstring :=
  fun w =>
    match fs w !! p with
    | Some (File c _) => (Ok c, w)
    | Some Dir => (Throw (FsFailure (str "EISDIR")), w)
    | None => (Throw (FsFailure (str "ENOENT")), w)
    end.

(** [fs.writeFileSync(p, data, { mode })]: the mode is applied only when the
    file is created. *)
Definition writeFileSync (p data : jsstring) (mode : N) : M unit :=
  fun w =>
    match fs w !! p with
    | Some (File _ m) => (Ok tt, set_fs (<[p := File data m]> (fs w)) w)
    | Some Dir => (Throw (FsFailure (str "EISDIR")), w)
    | None => (Ok tt, set_fs (<[p := File data mode]> (fs w)) w)
    end.

(** The mode of [fs.writeFileSync(p, data)] without options: 0o666. *)
Definition defaultMode : N := 438%N.

(** [fs.mkdirSync(p, { recursive: true })] *)
Definition mkdirSync (p : jsstring) : M unit :=
  fun w =>
    match fs w !! p with
    | Some (File _ _) => (Throw (FsFailure (str "EEXIST")), w)
    | Some Dir => (Ok tt, w)
    | None => (Ok tt, set_fs (<[p := Dir]> (fs w)) w)
    end.

(** The test the factory of simple-git makes on [baseDir]: the path is an
    existing directory. *)
Definition folderExists (w : World) (p : jsstring) : bool :=
  match fs w !! p with
  | Some Dir => true
  | _ => false
  end.

(** The error of the factory for a [baseDir] that is no directory. *)
Definition cannotUseDirectory : Error :=
  GitConstructError
    (str "Cannot use simple-git on a directory that does not exist").

(** What the factory of simple-git says to the options of a handle: it
    throws when a [baseDir] is given that is not an existing directory, and
    otherwise it may still refuse the options; without [baseDir] the handle
    works in the current directory of the process. *)
Definition factoryOutcome (w : World) (h : SimpleGit) : Result unit :=
  if match baseDir h with
     | Some d => folderExists w d
     | None => true
     end
  then answerFactory (git w) h
  else Throw cannotUseDirectory.

(** [simpleGit({ baseDir, binary, config })]; no command is issued. *)
Definition simpleGit (dir bin : option jsstring) (cfg : list jsstring)
  : M SimpleGit :=
  fun w =>
    let h := {| baseDir := dir; binary := bin; handleConfig := cfg |} in
    match factoryOutcome w h with
    | Ok _ => (Ok h, w)
    | Throw e => (Throw e, w)
    end.

(** [setInterval(() => { void this.autoCommit(folder) }, delay)] *)
Definition setInterval (folder : jsstring) (delay : Z) : M TimerHandle :=
  fun w =>
    (Ok (Handle (length (timers w))),
     set_timers (timers w ++ [{| callbackFolder := folder; delayMs := delay;
                                 active := true |}]) w).

Definition clearSlot (s : TimerSlot) : TimerSlot :=
  {| callbackFolder := callbackFolder s; delayMs := delayMs s;
     active := false |}.

(** [clearInterval(h)] *)
Definition clearInterval (h : TimerHandle) : M unit :=
  match h with
  | Handle i => modify (fun w => set_timers (alter clearSlot i (timers w)) w)
  end.

(** [console.error(text, e)] *)
Definition consoleError (text : jsstring) (e : Error) : M unit :=
  modify (fun w => set_consoleErrors (consoleErrors w ++ [(text, e)]) w).

(** [new Notice(text)] *)
Definition notice (text : jsstring) : M unit :=
  modify (fun w => set_notices (notices w ++ [text]) w).

(* ===================================================================== *)
(** * 5. RepoRegistry                                                     *)
(* ===================================================================== *)

(** ** Small helpers *)

Definition quoted (s : jsstring) : jsstring := DQUOTE :: s ++ [DQUOTE].

(** [`No repo for "${folderPath}"`] *)
Definition noRepoFor (folder : jsstring) : Error :=
  JsError (str "No repo for " ++ quoted folder).

(** [`No repo configured for "${folderPath}"`] *)
Definition noRepoConfiguredFor (folder : jsstring) : Error :=
  JsError (str "No repo configured for " ++ quoted folder).

(** [`"${folderPath}" is not a Git repository`] *)
Definition notAGitRepository (folder : jsstring) : Error :=
  JsError (quoted folder ++ str " is not a Git repository").

(** [resolveAbsolutePath] *)
Definition resolveAbsolutePath (w : World) (folder : jsstring) : jsstring :=
  if js_eqb folder [] || js_eqb folder (str "/") then vaultBasePath w
  else vaultBasePath w ++ str "/" ++ folder.

(** [gitBinary]: [settings.gitBinaryPath || undefined] *)
Definition gitBinary (w : World) : option jsstring :=
  if truthy (gitBinaryPath (settings w)) then Some (gitBinaryPath (settings w))
  else None.

(** [this.repos.get(folderPath)] *)
Definition getRepo (folder : jsstring) : M (option RepoInstance) :=
  gets (fun w => map_get folder (repos w)).

(** The guard that opens most methods:
    [if (!instance) throw new Error(`No repo for "${folderPath}"`)]. *)
Definition requireRepo (folder : jsstring) : M RepoInstance :=
  let* o := getRepo folder in
  match o with
  | Some instance => ret instance
  | None => throw (noRepoFor folder)
  end.

(** ** Auto-commit, credentials and push *)

(** [configureCredentials] *)
Definition configureCredentials (folder : jsstring) : M unit :=
  let* token := gets (fun w => githubToken (settings w)) in
  let* username := gets (fun w => githubUsername (settings w)) in
  if negb (truthy token) || negb (truthy username) then ret tt
  else
    let* o := getRepo folder in
    match o with
    | None => ret tt
    | Some instance =>
        let* remotes :=
          gitCall (gitHandle instance) GetRemotes answerGetRemotes in
        let wanted := or_else (remoteName (config instance)) (str "origin") in
        match List.find (fun r => js_eqb (name r) wanted) remotes with
        | None => ret tt
        | Some origin =>
            let remoteUrl_ := or_else (refsPush origin)
                                (or_else (refsFetch origin) []) in
            if negb (startsWith remoteUrl_ (str "https://")) then ret tt
            else
              let* base := gets vaultBasePath in
              let* cdir := gets configDir in
              let credPath :=
                base ++ str "/" ++ cdir
                  ++ str "/plugins/obsidian-folder-git/.git-credentials" in
              let credLine :=
                str "https://" ++ username ++ str ":" ++ token
                  ++ str "@github.com" ++ [LF] in
              let credDir :=
                substring0 (Z.to_nat (lastIndexOfSlash credPath)) credPath in
              let* present := existsSync credDir in
              (if negb present then mkdirSync credDir else ret tt) ;;;
              writeFileSync credPath credLine 384%N ;;;
              gitCall (gitHandle instance)
                (AddConfig (str "credential.helper")
                   (str "store --file=" ++ quoted credPath)
                   false (str "local"))
                answerVoid
        end
    end.

(** [push] *)
Definition push (folder : jsstring) : M unit :=
  let* instance := requireRepo folder in
  configureCredentials folder ;;;
  let* status := gitCall (gitHandle instance) Status answerStatus in
  match opt_or_else (tracking status) [] with
  | [] =>
      let branch_ := opt_or_else (current status) (str "main") in
      let remoteName_ := or_else (remoteName (config instance)) (str "origin") in
      gitCall (gitHandle instance)
        (Push [str "-u"; remoteName_; branch_]) answerVoid
  | _ :: _ =>
      gitCall (gitHandle instance) (Push []) answerVoid
  end.

(** [pull] *)
Definition pull (folder : jsstring) : M unit :=
  let* instance := requireRepo folder in
  configureCredentials folder ;;;
  gitCall (gitHandle instance) Pull answerVoid.

(** The message of an automatic commit:
    [template.replace("{{date}}", new Date().toISOString())]. *)
Definition autoCommitMessage (template iso : jsstring) : jsstring :=
  js_replace template (str "{{date}}") iso.

(** [autoCommit] *)
Definition autoCommit (folder : jsstring) : M unit :=
  let* o := getRepo folder in
  match o with
  | None => ret tt
  | Some instance =>
      tryCatch
        (let* status := gitCall (gitHandle instance) Status answerStatus in
         if Z.eqb (Z.of_nat (length (files status))) 0 then ret tt
         else
           gitCall (gitHandle instance) (Add [str "."]) answerVoid ;;;
           let* iso := gets nowISO in
           let message_ :=
             autoCommitMessage (commitMessageTemplate (config instance)) iso in
           gitCall (gitHandle instance) (Commit message_) answerVoid ;;;
           if autoPush (config instance) then push folder else ret tt)
        (fun e =>
           consoleError
             (str "Folder Git: Auto-commit failed for " ++ quoted folder
                ++ str ":") e)
  end.

(** ** Lifecycle and repository management *)

(** [for (const x of l) { f(x) }] *)
Fixpoint forEach {A} (f : A -> M unit) (l : list A) : M unit :=
  match l with
  | [] => ret tt
  | x :: r => f x ;;; forEach f r
  end.

(** The handle [addRepo] and [detectRemotesFromPath] ask the factory for,
    for the directory [dir]. *)
Definition handleFor (w : World) (dir : jsstring) : SimpleGit :=
  {| baseDir := Some dir; binary := gitBinary w;
     handleConfig := [str "core.quotepath=off"] |}.

(** [addRepo] *)
Definition addRepo (cfg : FolderRepoConfig) : M unit :=
  let* absolutePath_ := gets (fun w => resolveAbsolutePath w (folderPath cfg)) in
  let* bin := gets gitBinary in
  let* git_ := simpleGit (Some absolutePath_) bin [str "core.quotepath=off"] in
  let* isRepo := gitCall git_ CheckIsRepo answerCheckIsRepo in
  if negb isRepo then throw (notAGitRepository (folderPath cfg))
  else
    let* timer :=
      (if 0 <? autoCommitInterval cfg then
         let* h := setInterval (folderPath cfg)
                     (autoCommitInterval cfg * 60 * 1000) in
         ret (Some h)
       else ret None) in
    let instance := {| config := cfg; gitHandle := git_;
                       absolutePath := absolutePath_;
                       autoCommitTimer := timer |} in
    modify (fun w => set_repos (map_set (folderPath cfg) instance (repos w)) w).

(** [initialize] *)
Definition initialize : M unit :=
  let* cfgs := gets (fun w => settingsRepos (settings w)) in
  forEach
    (fun cfg =>
       tryCatch (addRepo cfg)
         (fun e =>
            consoleError
              (str "Folder Git: Failed to init repo for " ++ folderPath cfg
                 ++ str ":") e ;;;
            notice
              (str "Folder Git: Failed to initialize repo for "
                 ++ quoted (folderPath cfg))))
    cfgs.

(** The body of the loops of [destroy] and the first half of [removeRepo]:
    [if (instance.autoCommitTimer) clearInterval(instance.autoCommitTimer)]. *)
Definition clearTimerOf (instance : RepoInstance) : M unit :=
  match autoCommitTimer instance with
  | Some h => clearInterval h
  | None => ret tt
  end.

(** [destroy] *)
Definition destroy : M unit :=
  let* entries := gets repos in
  forEach (fun entry => clearTimerOf (snd entry)) entries ;;;
  modify (set_repos []).

(** [removeRepo] *)
Definition removeRepo (folder : jsstring) : M unit :=
  let* o := getRepo folder in
  (match o with
   | Some instance => clearTimerOf instance
   | None => ret tt
   end) ;;;
  modify (fun w => set_repos (map_delete folder (repos w)) w).

(** [getAllRepos] *)
Definition getAllRepos : M (list RepoInstance) :=
  gets (fun w => map_values (repos w)).

(** [getAllPaths] *)
Definition getAllPaths : M (list jsstring) :=
  gets (fun w => map_keys (repos w)).

(** The condition of the loop of [getRepoForFile], without the length test. *)
Definition folderMatches (filePath folder : jsstring) : bool :=
  startsWith filePath (folder ++ str "/")
  || js_eqb folder [] || js_eqb folder filePath.

(** One iteration of the loop of [getRepoForFile] on the pair
    (bestMatch, bestLength). *)
Definition bestStep (filePath : jsstring)
    (best : option RepoInstance * Z) (entry : jsstring * RepoInstance)
  : option RepoInstance * Z :=
  if folderMatches filePath (fst entry) && (snd best <? js_length (fst entry))
  then (Some (snd entry), js_length (fst entry))
  else best.

(** [getRepoForFile] on the entries of the map. *)
Definition ownerOf (entries : JsMap RepoInstance) (filePath : jsstring)
  : option RepoInstance :=
  fst (fold_left (bestStep filePath) entries (None, -1)).

(** [getRepoForFile] *)
Definition getRepoForFile (filePath : jsstring) : M (option RepoInstance) :=
  gets (fun w => ownerOf (repos w) filePath).

(** The timer [h] fires: its callback runs [autoCommit] on the folder it
    captured, unless the timer has been cleared. *)
Definition fire (h : TimerHandle) : M unit :=
  match h with
  | Handle i =>
      let* ts := gets timers in
      match ts !! i with
      | Some slot =>
          if active slot then autoCommit (callbackFolder slot) else ret tt
      | None => ret tt
      end
  end.

(** ** Status *)

(** [mapStatus] *)
Definition mapStatus (s : jsstring) : FileChangeType :=
  if js_eqb s (str "M") then Modified
  else if js_eqb s (str "A") then Added
  else if js_eqb s (str "D") then Deleted
  else if js_eqb s (str "R") then Renamed
  else if js_eqb s (str "?") then Untracked
  else if js_eqb s (str "U") then Unmerged
  else Modified.

(** The four arrays filled by the loop of [getStatus]. *)
Record Buckets := {
  bStaged : list FileStatusResult;
  bChanged : list FileStatusResult;
  bUntracked : list jsstring;
  bConflicted : list jsstring;
}.

Definition emptyBuckets : Buckets :=
  {| bStaged := []; bChanged := []; bUntracked := []; bConflicted := [] |}.

(** [folderPath ? `${folderPath}/${file.path}` : file.path] *)
Definition vaultPathOf (folder : jsstring) (file : FileStatus) : jsstring :=
  if truthy folder then folder ++ str "/" ++ path file else path file.

Definition entryOf (folder : jsstring) (file : FileStatus) (code : jsstring)
  : FileStatusResult :=
  {| relPath := path file; vaultPath := vaultPathOf folder file;
     indexStatus := index file; workingTreeStatus := working_dir file;
     displayStatus := mapStatus code |}.

(** [code && code !== " " && code !== "?"] *)
Definition hasChange (code : jsstring) : bool :=
  truthy code && negb (js_eqb code (str " ")) && negb (js_eqb code (str "?")).

(** One iteration of the loop of [getStatus]. *)
Definition statusStep (folder : jsstring) (b : Buckets) (file : FileStatus)
  : Buckets :=
  if js_eqb (working_dir file) (str "?") && js_eqb (index file) (str "?") then
    {| bStaged := bStaged b; bChanged := bChanged b;
       bUntracked := bUntracked b ++ [vaultPathOf folder file];
       bConflicted := bConflicted b |}
  else if js_eqb (working_dir file) (str "U") || js_eqb (index file) (str "U")
  then
    {| bStaged := bStaged b; bChanged := bChanged b;
       bUntracked := bUntracked b;
       bConflicted := bConflicted b ++ [vaultPathOf folder file] |}
  else
    let staged_ :=
      if hasChange (index file)
      then bStaged b ++ [entryOf folder file (index file)]
      else bStaged b in
    let changed_ :=
      if hasChange (working_dir file)
      then bChanged b ++ [entryOf folder file (working_dir file)]
      else bChanged b in
    {| bStaged := staged_; bChanged := changed_;
       bUntracked := bUntracked b; bConflicted := bConflicted b |}.

(** [getStatus] *)
Definition getStatus (folder : jsstring) : M RepoStatus :=
  let* o := getRepo folder in
  match o with
  | None => throw (noRepoConfiguredFor folder)
  | Some instance =>
      let* status := gitCall (gitHandle instance) Status answerStatus in
      let b := fold_left (statusStep folder) (files status) emptyBuckets in
      ret {| statusFolderPath := folder;
             branch := opt_or_else (current status) (str "HEAD");
             staged := bStaged b; changed := bChanged b;
             untracked := bUntracked b; conflicted := bConflicted b;
             statusAhead := ahead status; statusBehind := behind status |}
  end.

(** ** Delegating operations *)

(** [stage] *)
Definition stage (folder : jsstring) (paths : list jsstring) : M unit :=
  let* instance := requireRepo folder in
  gitCall (gitHandle instance) (Add paths) answerVoid.

(** [stageAll] *)
Definition stageAll (folder : jsstring) : M unit :=
  let* instance := requireRepo folder in
  gitCall (gitHandle instance) (Add [str "."]) answerVoid.

(** [unstage] *)
Definition unstage (folder : jsstring) (paths : list jsstring) : M unit :=
  let* instance := requireRepo folder in
  gitCall (gitHandle instance) (Reset (str "HEAD" :: str "--" :: paths))
    answerVoid.

(** [unstageAll] *)
Definition unstageAll (folder : jsstring) : M unit :=
  let* instance := requireRepo folder in
  gitCall (gitHandle instance) (Reset [str "HEAD"]) answerVoid.

(** [discard] *)
Definition discard (folder file : jsstring) : M unit :=
  let* instance := requireRepo folder in
  gitCall (gitHandle instance) (Checkout [str "--"; file]) answerVoid.

(** [commit] *)
Definition commit (folder msg : jsstring) : M unit :=
  let* instance := requireRepo folder in
  gitCall (gitHandle instance) (Commit msg) answerVoid.

(** [getDiff]; [staged] defaults to [false]. *)
Definition getDiff (folder file : jsstring) (cached : option bool)
  : M jsstring :=
  let* instance := requireRepo folder in
  let args := if default false cached
              then [str "--cached"; str "--"; file]
              else [str "--"; file] in
  gitCall (gitHandle instance) (Diff args) answerDiff.

Definition toLogEntry (e : DiffLogEntry) : GitLogEntry :=
  {| entryHash := hash e; hashShort := substring0 7 (hash e);
     entryMessage := message e; author := author_name e;
     entryDate := date e; entryFiles := default [] (diffFiles e) |}.

(** [getLog]; [limit] defaults to 50. *)
Definition getLog (folder : jsstring) (limit : option Z)
  : M (list GitLogEntry) :=
  let* instance := requireRepo folder in
  let* all := gitCall (gitHandle instance) (Log (default 50 limit)) answerLog in
  ret (map toLogEntry all).

(** [getBranch] *)
Definition getBranch (folder : jsstring) : M jsstring :=
  let* instance := requireRepo folder in
  let* status := gitCall (gitHandle instance) Status answerStatus in
  ret (opt_or_else (current status) (str "HEAD")).

(** [getBranches] *)
Definition getBranches (folder : jsstring) : M BranchSummary :=
  let* instance := requireRepo folder in
  gitCall (gitHandle instance) BranchLocal answerBranchLocal.

(** [checkout] *)
Definition checkout (folder branch_ : jsstring) : M unit :=
  let* instance := requireRepo folder in
  gitCall (gitHandle instance) (Checkout [branch_]) answerVoid.

(** [initRepo] *)
Definition initRepo (absolutePath_ : jsstring) : M unit :=
  let* bin := gets gitBinary in
  let* git_ := simpleGit (Some absolutePath_) bin [] in
  gitCall git_ Init answerVoid.

(** [cloneRepo] *)
Definition cloneRepo (url absolutePath_ : jsstring) : M unit :=
  let* bin := gets gitBinary in
  let* git_ := simpleGit None bin [] in
  gitCall git_ (Clone url absolutePath_) answerVoid.

(** [addRemote] *)
Definition addRemote (folder remote url : jsstring) : M unit :=
  let* instance := requireRepo folder in
  gitCall (gitHandle instance) (AddRemote remote url) answerVoid.

(** [detectRemotes]; a missing ref being the empty string, the projection
    to [{ name, fetchUrl, pushUrl }] keeps the record as it is. *)
Definition detectRemotes (folder : jsstring) : M (list RemoteWithRefs) :=
  let* instance := requireRepo folder in
  gitCall (gitHandle instance) GetRemotes answerGetRemotes.

(** [detectRemotesFromPath]; the result keeps [name] and [fetchUrl] only. *)
Definition detectRemotesFromPath (absolutePath_ : jsstring)
  : M (list (jsstring * jsstring)) :=
  let* bin := gets gitBinary in
  let* git_ := simpleGit (Some absolutePath_) bin [str "core.quotepath=off"] in
  tryCatch
    (let* isRepo := gitCall git_ CheckIsRepo answerCheckIsRepo in
     if negb isRepo then ret []
     else
       let* remotes := gitCall git_ GetRemotes answerGetRemotes in
       ret (map (fun r => (name r, refsFetch r)) remotes))
    (fun _ => ret []).

(** ** Ignore list *)

Definition gitignorePathOf (instance : RepoInstance) : jsstring :=
  absolutePath instance ++ str "/.gitignore".

(** [trimmed === relativePath || trimmed === relativePath + "/"] *)
Definition lineMatches (relativePath line : jsstring) : bool :=
  js_eqb (trim line) relativePath
  || js_eqb (trim line) (relativePath ++ str "/").

(** [checkExplicitlyIgnored] *)
Definition checkExplicitlyIgnored (folder relativePath : jsstring) : M bool :=
  let* o := getRepo folder in
  match o with
  | None => ret false
  | Some instance =>
      let* present := existsSync (gitignorePathOf instance) in
      if negb present then ret false
      else
        let* content := readFileSync (gitignorePathOf instance) in
        ret (existsb (lineMatches relativePath) (split_lines content))
  end.

(** [checkIgnored] *)
Definition checkIgnored (folder relativePath : jsstring) : M bool :=
  let* o := getRepo folder in
  match o with
  | None => ret false
  | Some instance =>
      tryCatch
        (gitCall (gitHandle instance)
           (Raw [str "check-ignore"; str "-q"; relativePath]) answerVoid ;;;
         ret true)
        (fun _ => ret false)
  end.

(** [addToGitignore] *)
Definition addToGitignore (folder relativePath : jsstring) : M unit :=
  let* instance := requireRepo folder in
  let* present := existsSync (gitignorePathOf instance) in
  let* content :=
    (if present then
       let* c := readFileSync (gitignorePathOf instance) in
       if (0 <? js_length c) && negb (endsWithLF c) then ret (c ++ [LF])
       else ret c
     else ret []) in
  writeFileSync (gitignorePathOf instance) (content ++ relativePath ++ [LF])
    defaultMode.

(** [removeFromGitignore] *)
Definition removeFromGitignore (folder relativePath : jsstring) : M unit :=
  let* instance := requireRepo folder in
  let* present := existsSync (gitignorePathOf instance) in
  if negb present then ret tt
  else
    let* content := readFileSync (gitignorePathOf instance) in
    let lines := split_lines content in
    let newLines := List.filter (fun line => negb (lineMatches relativePath line))
                      lines in
    writeFileSync (gitignorePathOf instance) (join_lines newLines) defaultMode.

(* ===================================================================== *)
(** * 6. Vocabulary of the specification                                  *)
(* ===================================================================== *)

(** ** Status translation, in the words of the specification *)

Inductive Bucket := InUntracked | InConflicted | InTracked.

(** Both codes "?": untracked; else either code "U": conflicted; else the
    record is a candidate for the staged and changed buckets. *)
Definition spec_bucket (file : FileStatus) : Bucket :=
  if bool_decide (index file = str "?" /\ working_dir file = str "?")
  then InUntracked
  else if bool_decide (index file = str "U" \/ working_dir file = str "U")
  then InConflicted
  else InTracked.

(** A code emits an entry when it is present and neither space nor "?". *)
Definition spec_emits (code : jsstring) : bool :=
  bool_decide (code <> [] /\ code <> str " " /\ code <> str "?").

Definition displayTable : list (jsstring * FileChangeType) :=
  [(str "M", Modified); (str "A", Added); (str "D", Deleted);
   (str "R", Renamed); (str "?", Untracked); (str "U", Unmerged)].

(** The code-to-display mapping; any other code is shown as Modified. *)
Definition spec_display (code : jsstring) : FileChangeType :=
  default Modified (map_get code displayTable).

Definition isBucket (b : Bucket) (file : FileStatus) : bool :=
  match b, spec_bucket file with
  | InUntracked, InUntracked => true
  | InConflicted, InConflicted => true
  | InTracked, InTracked => true
  | _, _ => false
  end.

Definition spec_entry (folder : jsstring) (code : FileStatus -> jsstring)
    (file : FileStatus) : FileStatusResult :=
  {| relPath := path file;
     vaultPath := if bool_decide (folder = []) then path file
                  else folder ++ str "/" ++ path file;
     indexStatus := index file; workingTreeStatus := working_dir file;
     displayStatus := spec_display (code file) |}.

(** ** Ownership, in the words of the specification *)

(** A candidate folder matches when the file path equals it, or it is the
    empty string, or the file path starts with the folder followed by "/". *)
Definition candidateMatches (filePath folder : jsstring) : Prop :=
  filePath = folder \/ folder = []
  \/ exists rest, filePath = folder ++ str "/" ++ rest.

(** ** The operations of the registry that take a folder id *)

Inductive RegistryOp :=
| OpGetRepo
| OpRemoveRepo
| OpGetStatus
| OpStage (paths : list jsstring)
| OpStageAll
| OpUnstage (paths : list jsstring)
| OpUnstageAll
| OpDiscard (file : jsstring)
| OpCommit (msg : jsstring)
| OpGetDiff (file : jsstring) (cached : option bool)
| OpGetLog (limit : option Z)
| OpGetBranch
| OpGetBranches
| OpCheckout (branchName : jsstring)
| OpAddRemote (remote url : jsstring)
| OpDetectRemotes
| OpConfigureCredentials
| OpPush
| OpPull
| OpCheckExplicitlyIgnored (relativePath : jsstring)
| OpCheckIgnored (relativePath : jsstring)
| OpAddToGitignore (relativePath : jsstring)
| OpRemoveFromGitignore (relativePath : jsstring).

Inductive OpValue :=
| VUnit
| VBool (b : bool)
| VString (s : jsstring)
| VInstance (o : option RepoInstance)
| VStatus (s : RepoStatus)
| VLog (l : list GitLogEntry)
| VBranches (b : BranchSummary)
| VRemotes (l : list RemoteWithRefs).

Definition mapM {A B} (f : A -> B) (m : M A) : M B :=
  let* a := m in ret (f a).

Definition runOp (op : RegistryOp) (folder : jsstring) : M OpValue :=
  match op with
  | OpGetRepo => mapM VInstance (getRepo folder)
  | OpRemoveRepo => mapM (fun _ => VUnit) (removeRepo folder)
  | OpGetStatus => mapM VStatus (getStatus folder)
  | OpStage paths => mapM (fun _ => VUnit) (stage folder paths)
  | OpStageAll => mapM (fun _ => VUnit) (stageAll folder)
  | OpUnstage paths => mapM (fun _ => VUnit) (unstage folder paths)
  | OpUnstageAll => mapM (fun _ => VUnit) (unstageAll folder)
  | OpDiscard file => mapM (fun _ => VUnit) (discard folder file)
  | OpCommit msg => mapM (fun _ => VUnit) (commit folder msg)
  | OpGetDiff file cached => mapM VString (getDiff folder file cached)
  | OpGetLog limit => mapM VLog (getLog folder limit)
  | OpGetBranch => mapM VString (getBranch folder)
  | OpGetBranches => mapM VBranches (getBranches folder)
  | OpCheckout b => mapM (fun _ => VUnit) (checkout folder b)
  | OpAddRemote r u => mapM (fun _ => VUnit) (addRemote folder r u)
  | OpDetectRemotes => mapM VRemotes (detectRemotes folder)
  | OpConfigureCredentials =>
      mapM (fun _ => VUnit) (configureCredentials folder)
  | OpPush => mapM (fun _ => VUnit) (push folder)
  | OpPull => mapM (fun _ => VUnit) (pull folder)
  | OpCheckExplicitlyIgnored p => mapM VBool (checkExplicitlyIgnored folder p)
  | OpCheckIgnored p => mapM VBool (checkIgnored folder p)
  | OpAddToGitignore p => mapM (fun _ => VUnit) (addToGitignore folder p)
  | OpRemoveFromGitignore p =>
      mapM (fun _ => VUnit) (removeFromGitignore folder p)
  end.

(** ** Well-formed registries *)

(** Keys are unique, as in any [Map]; no timer handle is held by two
    instances, since each comes from its own call of [setInterval]; and the
    handle held by an instance denotes a running timer whose callback names
    the folder of that instance. *)
Definition wfRegistry (w : World) : Prop :=
  NoDup (map_keys (repos w))
  /\ (forall k1 k2 i1 i2 h,
        In (k1, i1) (repos w) -> In (k2, i2) (repos w) ->
        autoCommitTimer i1 = Some h -> autoCommitTimer i2 = Some h ->
        k1 = k2)
  /\ (forall k inst i,
        In (k, inst) (repos w) -> autoCommitTimer inst = Some (Handle i) ->
        exists slot,
          timers w !! i = Some slot /\ active slot = true
          /\ callbackFolder slot = k).

(** The timer in slot [i] is still running. *)
Definition timerRunning (w : World) (i : nat) : Prop :=
  exists slot, timers w !! i = Some slot /\ active slot = true.

(** The timer in slot [i] is running and no registered instance holds its
    handle, so that no [clearInterval] of the registry can reach it. *)
Definition orphanTimer (w : World) (i : nat) : Prop :=
  timerRunning w i
  /\ forall k inst, In (k, inst) (repos w) ->
                    autoCommitTimer inst <> Some (Handle i).

(** What an auto-commit cycle may issue after its status query, for
    [instance] at the time [iso]: every command goes to the handle of the
    instance, a commit carries the message made from the template of its
    configuration, and a push is issued only when its configuration asks
    for one. *)
Definition cycleEvent (instance : RepoInstance) (iso : jsstring)
    (ev : GitEvent) : Prop :=
  onHandle ev = gitHandle instance
  /\ (forall m,
        command ev = Commit m ->
        m = autoCommitMessage (commitMessageTemplate (config instance)) iso)
  /\ (forall args,
        command ev = Push args -> autoPush (config instance) = true).

(** A computation that, started while [folder] resolves to [instance],
    issues only commands that satisfy [P] and leaves the folder resolving
    to that instance. *)
Definition issuesOnly (P : GitEvent -> Prop) (folder : jsstring)
    (instance : RepoInstance) {A} (m : M A) : Prop :=
  forall w,
    map_get folder (repos w) = Some instance ->
    exists evs,
      gitTrace (snd (m w)) = gitTrace w ++ evs
      /\ Forall P evs
      /\ map_get folder (repos (snd (m w))) = Some instance.

(** ** Lines of the ignore file *)

(** The lines of the file at [p], as the registry reads them. *)
Definition linesAt (w : World) (p : jsstring) : option (list jsstring) :=
  match fs w !! p with
  | Some (File c _) => Some (split_lines c)
  | _ => None
  end.

(** [addToGitignore] followed by [removeFromGitignore]. *)
Definition addThenRemove (folder relativePath : jsstring) : M unit :=
  addToGitignore folder relativePath ;;;
  removeFromGitignore folder relativePath.

(** ** Notions used in the proofs *)

(** What the pair (bestMatch, bestLength) knows after the entries [seen]. *)
Definition bestInvariant (filePath : jsstring) (seen : JsMap RepoInstance)
    (best : option RepoInstance * Z) : Prop :=
  match fst best with
  | None =>
      snd best = -1
      /\ forall k i, In (k, i) seen -> folderMatches filePath k = false
  | Some inst =>
      exists k, In (k, inst) seen
        /\ folderMatches filePath k = true
        /\ snd best = js_length k
        /\ forall k' i', In (k', i') seen ->
             folderMatches filePath k' = true ->
             (length k' <= length k)%nat
  end.

(** The four buckets the specification assigns to a list of raw records:
    each keeps the order of the records. *)
Definition untrackedOf folder (l : list FileStatus) : list jsstring :=
  map (fun f => vaultPath (spec_entry folder index f))
    (List.filter (isBucket InUntracked) l).

Definition conflictedOf folder (l : list FileStatus) : list jsstring :=
  map (fun f => vaultPath (spec_entry folder index f))
    (List.filter (isBucket InConflicted) l).

Definition stagedOf folder (l : list FileStatus) : list FileStatusResult :=
  map (spec_entry folder index)
    (List.filter (fun f => isBucket InTracked f && spec_emits (index f)) l).

Definition changedOf folder (l : list FileStatus) : list FileStatusResult :=
  map (spec_entry folder working_dir)
    (List.filter (fun f => isBucket InTracked f && spec_emits (working_dir f))
       l).

(** [!o] holds for [o : string | null]. *)
Definition falsy (o : option jsstring) : Prop := o = None \/ o = Some [].

(** The code units of an ISO-8601 timestamp as [toISOString] prints it:
    digits, "-", "+", ":", ".", "T" and "Z". *)
Definition isoCodeUnit (c : N) : bool :=
  ((N.leb 48 c && N.leb c 57) || N.eqb c 45 || N.eqb c 43 || N.eqb c 58
   || N.eqb c 46 || N.eqb c 84 || N.eqb c 90)%N.

(** A computation that leaves the commands issued so far in place and at
    most issues further ones. *)
Definition appendsOnly {A} (m : M A) : Prop :=
  forall w, exists evs, gitTrace (snd (m w)) = gitTrace w ++ evs.

(** The lines of a text that ends with a line feed, that last empty line
    left out. *)
Definition terminatedLines (s : jsstring) : list jsstring :=
  removelast (split_lines (s ++ [LF])).

(** [addToGitignore]: the content that is written. *)
Definition afterAdd (content p : jsstring) : jsstring :=
  (if (0 <? js_length content) && negb (endsWithLF content)
   then content ++ [LF] else content) ++ p ++ [LF].

(** [removeFromGitignore]: the content that is written. *)
Definition afterRemove (content p : jsstring) : jsstring :=
  join_lines
    (List.filter (fun line => negb (lineMatches p line)) (split_lines content)).

(** The empty line that appears when the text lacked its final line feed. *)
Definition addedTerminator (content : jsstring) : list jsstring :=
  if (0 <? js_length content) && negb (endsWithLF content) then [[]] else [].

(* ===================================================================== *)
(** * 6b. Callers of the registry and further notions                     *)
(* ===================================================================== *)

(** ** src/main.ts *)

(** The file menu: the path of a file relative to the root of the
    repository that owns it,
    [relativePath.slice(folderPath.length + 1)] when the folder is not
    empty and the path starts with the folder and a slash. *)
Definition menuRelativePath (folder filePath : jsstring) : jsstring :=
  if truthy folder then
    if startsWith filePath (folder ++ str "/")
    then drop (length folder + 1) filePath
    else filePath
  else filePath.

(** [String(n)] for an integer that is not negative. *)
Definition decimalString (n : Z) : jsstring :=
  str (NilEmpty.string_of_uint (N.to_uint (Z.to_N n))).

(** One iteration of the loop of [updateBadge] on the pair
    (newStatuses, totalChanges). *)
Definition badgeStep (acc : JsMap RepoStatus * Z) (p : jsstring)
  : M (JsMap RepoStatus * Z) :=
  tryCatch
    (let* status := getStatus p in
     ret (map_set p status (fst acc),
          snd acc + Z.of_nat (length (staged status))
          + Z.of_nat (length (changed status)) + Z.of_nat (length (untracked status))))
    (fun _ => ret acc).

(** [for (const x of l) { acc = f(acc, x) }] *)
Fixpoint foldM {A B} (f : B -> A -> M B) (l : list A) (acc : B) : M B :=
  match l with
  | [] => ret acc
  | x :: r => let* acc' := f acc x in foldM f r acc'
  end.

(** [updateBadge] up to the assignment of [cachedStatuses]: the new cache
    and the total that the badge shows. *)
Definition pollStatuses : M (JsMap RepoStatus * Z) :=
  let* paths := getAllPaths in
  foldM badgeStep paths ([], 0).

(** [updateBadge], the text of the badge; no badge without changes. *)
Definition badgeText (totalChanges : Z) : option jsstring :=
  if 0 <? totalChanges then
    Some (if 99 <? totalChanges then str "99+" else decimalString totalChanges)
  else None.

(** ** src/views/sourceControlView.ts *)

(** [renderUntrackedSection]: the path handed to [stage] for an untracked
    file, [filePath.replace(activeRepo + "/", "")] when a folder is
    active. *)
Definition repoRelativePath (activeRepo filePath : jsstring) : jsstring :=
  if truthy activeRepo then js_replace filePath (activeRepo ++ str "/") []
  else filePath.

(** ** src/modals/addRepoModal.ts *)

(** [handleAdd]: the directory that is initialised or cloned into. *)
Definition modalAbsolutePath (w : World) (folder : jsstring) : jsstring :=
  if truthy folder then vaultBasePath w ++ str "/" ++ folder
  else vaultBasePath w.

(** ** Further notions *)

(** Every instance sits under the folder of its own configuration, on the
    directory that folder resolves to, with a handle on that directory. *)
Definition coherentRegistry (w : World) : Prop :=
  forall k inst,
    In (k, inst) (repos w) ->
    folderPath (config inst) = k
    /\ absolutePath inst = resolveAbsolutePath w k
    /\ baseDir (gitHandle inst) = Some (absolutePath inst).

(** A computation that leaves the map of instances and the timers alone. *)
Definition keepsRegistry {A} (m : M A) : Prop :=
  forall w, repos (snd (m w)) = repos w /\ timers (snd (m w)) = timers w.

(** The timer in slot [i], if there is one, has been cleared. *)
Definition timerCleared (w : World) (i : nat) : Prop :=
  forall slot, timers w !! i = Some slot -> active slot = false.

(** The notice [initialize] shows for a configuration it could not add. *)
Definition initFailureNotice (cfg : FolderRepoConfig) : jsstring :=
  str "Folder Git: Failed to initialize repo for " ++ quoted (folderPath cfg).

(** The path of the credential file, its directory and its content. *)
Definition credPathOf (w : World) : jsstring :=
  vaultBasePath w ++ str "/" ++ configDir w
    ++ str "/plugins/obsidian-folder-git/.git-credentials".

Definition credDirOf (w : World) : jsstring :=
  substring0 (Z.to_nat (lastIndexOfSlash (credPathOf w))) (credPathOf w).

Definition credLineOf (w : World) : jsstring :=
  str "https://" ++ githubUsername (settings w) ++ str ":"
    ++ githubToken (settings w) ++ str "@github.com" ++ [LF].

(** The remote that [configureCredentials] looks at. *)
Definition activeRemote (instance : RepoInstance)
    (remotes : list RemoteWithRefs) : option RemoteWithRefs :=
  List.find
    (fun r =>
       js_eqb (name r)
         (or_else (remoteName (config instance)) (str "origin")))
    remotes.

(** A computation that leaves the component [f] of the world alone. *)
Definition keepsField {A B} (f : World -> B) (m : M A) : Prop :=
  forall w, f (snd (m w)) = f w.

(** A component of the world that neither a command nor a file operation
    touches. *)
Definition hostBlind {B} (f : World -> B) : Prop :=
  (forall t w, f (set_gitTrace t w) = f w)
  /\ (forall x w, f (set_fs x w) = f w).

(** The mode of the credential file after [configureCredentials]: the mode
    it had, or 0o600 when the file is created. *)
Definition credModeOf (w : World) : N :=
  match fs w !! credPathOf w with
  | Some (File _ m) => m
  | _ => 384%N
  end.

(** The file system after [configureCredentials] has written. *)
Definition credDiskOf (w : World) : gmap jsstring FsNode :=
  <[credPathOf w := File (credLineOf w) (credModeOf w)]>
    (if bool_decide (is_Some (fs w !! credDirOf w)) then fs w
     else <[credDirOf w := Dir]> (fs w)).

(** The command that points the repository at the credential file. *)
Definition credConfigCommand (w : World) : GitCommand :=
  AddConfig (str "credential.helper")
    (str "store --file=" ++ quoted (credPathOf w)) false (str "local").

(** The console message of a failed auto-commit cycle. *)
Definition autoCommitFailureText (folder : jsstring) : jsstring :=
  str "Folder Git: Auto-commit failed for " ++ quoted folder ++ str ":".

(** The number of changes a status adds to the badge. *)
Definition changesOf (s : RepoStatus) : Z :=
  Z.of_nat (length (staged s)) + Z.of_nat (length (changed s))
  + Z.of_nat (length (untracked s)).

(** The changes of all the statuses of a cache. *)
Fixpoint totalOf (cache : JsMap RepoStatus) : Z :=
  match cache with
  | [] => 0
  | (_, s) :: r => changesOf s + totalOf r
  end.

(* ===================================================================== *)
(** * 7. Sample data                                                      *)
(* ===================================================================== *)

(** [DEFAULT_REPO_CONFIG] of src/types.ts with a folder and an interval. *)
Definition sampleConfig (folder : jsstring) (interval : Z) : FolderRepoConfig :=
  {| folderPath := folder; remoteName := str "origin"; remoteUrl := [];
     autoPush := true; autoCommitInterval := interval;
     commitMessageTemplate := str "vault backup: {{date}}";
     githubRepoName := []; isPrivate := true |}.

Definition sampleHandle (dir : jsstring) : SimpleGit :=
  {| baseDir := Some dir; binary := None;
     handleConfig := [str "core.quotepath=off"] |}.

Definition sampleInstance (folder : jsstring) (timer : option TimerHandle)
  : RepoInstance :=
  {| config := sampleConfig folder 0;
     gitHandle := sampleHandle (str "/vault/" ++ folder);
     absolutePath := str "/vault/" ++ folder;
     autoCommitTimer := timer |}.

(** An executable that always gives the same answers. *)
Definition constOracle (isRepo : bool) (st : StatusResult)
    (remotes : list RemoteWithRefs) : GitOracle :=
  {| answerFactory := fun _ => Ok tt;
     answerCheckIsRepo := fun _ => Ok isRepo;
     answerStatus := fun _ => Ok st;
     answerGetRemotes := fun _ => Ok remotes;
     answerDiff := fun _ => Ok [];
     answerLog := fun _ => Ok [];
     answerBranchLocal :=
       fun _ => Ok {| branchCurrent := str "main"; branchAll := [str "main"] |};
     answerVoid := fun _ => Ok tt |}.

Definition cleanStatus : StatusResult :=
  {| files := []; current := Some (str "main");
     tracking := Some (str "origin/main"); ahead := 0; behind := 0 |}.

Definition sampleSettings (token username : jsstring) : PluginSettings :=
  {| settingsRepos := []; gitBinaryPath := []; showUntrackedFiles := true;
     refreshInterval := 30; githubToken := token;
     githubUsername := username |}.

Definition sampleWorld (entries : JsMap RepoInstance)
    (slots : list TimerSlot) (disk : gmap jsstring FsNode)
    (oracle : GitOracle) (token username : jsstring) : World :=
  {| settings := sampleSettings token username;
     vaultBasePath := str "/vault"; configDir := str ".obsidian";
     repos := entries; timers := slots; fs := disk; gitTrace := [];
     git := oracle; consoleErrors := []; notices := [];
     nowISO := str "2024-01-01T00:00:00.000Z" |}.

(** A disk that holds the vault and the folders "notes", "a" and "b". *)
Definition vaultDisk : gmap jsstring FsNode :=
  {[ str "/vault" := Dir; str "/vault/notes" := Dir; str "/vault/a" := Dir;
     str "/vault/b" := Dir ]}.

(** Repositories registered at "", "a" and "a/b". *)
Definition nestedRepos : JsMap RepoInstance :=
  [([], sampleInstance [] None);
   (str "a", sampleInstance (str "a") None);
   (str "a/b", sampleInstance (str "a/b") None)].

(** The folder of the owner of a file, if any. *)
Definition ownerFolder (entries : JsMap RepoInstance) (filePath : jsstring)
  : option jsstring :=
  option_map (fun i => folderPath (config i)) (ownerOf entries filePath).

(** A registry that holds the folder "notes" only, with the given instance,
    timers, files and executable. *)
Definition notesWorld (instance : RepoInstance) (slots : list TimerSlot)
    (disk : gmap jsstring FsNode) (oracle : GitOracle)
    (token username : jsstring) : World :=
  sampleWorld [(str "notes", instance)] slots disk oracle token username.

Definition notesInstance : RepoInstance := sampleInstance (str "notes") None.

(** One modified tracked file and one new untracked file. *)
Definition notesStatus : StatusResult :=
  {| files := [ {| path := str "todo-old.md"; index := str " ";
                   working_dir := str "M" |};
                {| path := str "todo.md"; index := str "?";
                   working_dir := str "?" |} ];
     current := Some (str "main"); tracking := Some (str "origin/main");
     ahead := 0; behind := 0 |}.

(** A status without upstream and without a name for the current branch. *)
Definition noBranchStatus : StatusResult :=
  {| files := []; current := None; tracking := None;
     ahead := 0; behind := 0 |}.

(** The status on a detached HEAD: the executable prints the branch line
    "## HEAD (no branch)", which simple-git reads as the current branch
    "HEAD" without upstream. *)
Definition detachedStatus : StatusResult :=
  {| files := []; current := Some (str "HEAD"); tracking := None;
     ahead := 0; behind := 0 |}.

(** The folder "notes" on a detached HEAD. *)
Definition detachedWorld : World :=
  notesWorld notesInstance [] ∅ (constOracle true detachedStatus []) [] [].

Definition sshRemote : RemoteWithRefs :=
  {| name := str "origin"; refsFetch := str "git@github.com:user/notes.git";
     refsPush := str "git@github.com:user/notes.git" |}.

(** An ignore file of the folder "notes" with the given content. *)
Definition ignoreDisk (content : jsstring) : gmap jsstring FsNode :=
  {[ str "/vault/notes/.gitignore" := File content defaultMode ]}.

Definition ignoreWorld (content : jsstring) : World :=
  notesWorld notesInstance [] (ignoreDisk content)
    (constOracle true cleanStatus []) [] [].

(** A template with two tokens. *)
Definition twoDatesInstance : RepoInstance :=
  {| config :=
       {| folderPath := str "notes"; remoteName := str "origin";
          remoteUrl := []; autoPush := false; autoCommitInterval := 0;
          commitMessageTemplate := str "{{date}} / {{date}}";
          githubRepoName := []; isPrivate := true |};
     gitHandle := sampleHandle (str "/vault/notes");
     absolutePath := str "/vault/notes";
     autoCommitTimer := None |}.

(** The folder "notes" registered with a running timer in slot 0. *)
Definition timedWorld : World :=
  notesWorld (sampleInstance (str "notes") (Some (Handle 0%nat)))
    [{| callbackFolder := str "notes"; delayMs := 60000; active := true |}]
    vaultDisk (constOracle true cleanStatus []) [] [].

(** An HTTPS remote "origin". *)
Definition httpsRemote : RemoteWithRefs :=
  {| name := str "origin";
     refsFetch := str "https://github.com/user/notes.git";
     refsPush := str "https://github.com/user/notes.git" |}.

(** An executable that fails to list the remotes. *)
Definition noRemotesOracle : GitOracle :=
  {| answerFactory := fun _ => Ok tt;
     answerCheckIsRepo := fun _ => Ok true;
     answerStatus := fun _ => Ok cleanStatus;
     answerGetRemotes := fun _ => Throw (GitFailure (str "fatal: bad config"));
     answerDiff := fun _ => Ok [];
     answerLog := fun _ => Ok [];
     answerBranchLocal :=
       fun _ => Ok {| branchCurrent := str "main"; branchAll := [str "main"] |};
     answerVoid := fun _ => Ok tt |}.

Definition sampleLogEntry : DiffLogEntry :=
  {| hash := str "0123456789abcdef"; date := str "2024-01-01";
     message := str "first"; author_name := str "user";
     author_email := str "user@example.org"; diffFiles := None |}.

(** An executable whose log holds one commit. *)
Definition logOracle : GitOracle :=
  {| answerFactory := fun _ => Ok tt;
     answerCheckIsRepo := fun _ => Ok true;
     answerStatus := fun _ => Ok cleanStatus;
     answerGetRemotes := fun _ => Ok [];
     answerDiff := fun _ => Ok [];
     answerLog := fun _ => Ok [sampleLogEntry];
     answerBranchLocal :=
       fun _ => Ok {| branchCurrent := str "main"; branchAll := [str "main"] |};
     answerVoid := fun _ => Ok tt |}.

(** The folder "notes" with an HTTPS remote and a configured token. *)
Definition tokenWorld : World :=
  notesWorld notesInstance [] ∅ (constOracle true cleanStatus [httpsRemote])
    (str "ghp_token") (str "user").

(** The folder "notes" with one modified and one untracked file. *)
Definition changedWorld : World :=
  notesWorld notesInstance [] vaultDisk (constOracle true notesStatus []) [] [].

(** The folder "notes" with nothing to commit and an upstream. *)
Definition cleanWorld : World :=
  notesWorld notesInstance [] ∅ (constOracle true cleanStatus []) [] [].

(** The folder "notes" with changes, a template with two tokens and
    [autoPush] off. *)
Definition twoDatesWorld : World :=
  notesWorld twoDatesInstance [] ∅ (constOracle true notesStatus []) [] [].

(** The repositories of [nestedRepos], registered in another order. *)
Definition swappedRepos : JsMap RepoInstance :=
  [(str "a", sampleInstance (str "a") None);
   ([], sampleInstance [] None);
   (str "a/b", sampleInstance (str "a/b") None)].

(* ===================================================================== *)
(** * 8. Strings and maps: basic facts                                    *)
(* ===================================================================== *)

Lemma js_eqb_true (s t : jsstring) : js_eqb s t = true <-> s = t.
Proof. unfold js_eqb. apply bool_decide_eq_true. Qed.

Lemma js_eqb_false (s t : jsstring) : js_eqb s t = false <-> s <> t.
Proof. unfold js_eqb. apply bool_decide_eq_false. Qed.

Lemma js_eqb_refl (s : jsstring) : js_eqb s s = true.
Proof. by apply js_eqb_true. Qed.

Lemma truthy_true (s : jsstring) : truthy s = true <-> s <> [].
Proof. destruct s; simpl; split; congruence. Qed.

Lemma truthy_false (s : jsstring) : truthy s = false <-> s = [].
Proof. destruct s; simpl; split; congruence. Qed.

Lemma startsWith_app (s p : jsstring) :
  startsWith s p = true <-> exists rest, s = p ++ rest.
Proof.
  revert s. induction p as [|c p IH]; intros s; simpl.
  - split; [intros _; by exists s | done].
  - destruct s as [|d s].
    + split; [done | intros [rest Hr]; discriminate Hr].
    + rewrite andb_true_iff, N.eqb_eq, IH. split.
      * intros [-> [rest ->]]. by exists rest.
      * intros [rest Hr]. injection Hr as -> ->. split; [done | by exists rest].
Qed.

Lemma folderMatches_spec (filePath folder : jsstring) :
  folderMatches filePath folder = true <-> candidateMatches filePath folder.
Proof.
  unfold folderMatches, candidateMatches.
  rewrite !orb_true_iff, startsWith_app, !js_eqb_true.
  split.
  - intros [[[rest H] | H] | H]; [right; right | right; left | left].
    + exists rest. by rewrite <- app_assoc in H.
    + done.
    + done.
  - intros [H | [H | [rest H]]]; [right | left; right | left; left]; try done.
    exists rest. by rewrite <- app_assoc.
Qed.

(** ** The loop of [getRepoForFile] *)

Lemma bestStep_invariant filePath seen best entry :
  bestInvariant filePath seen best ->
  bestInvariant filePath (seen ++ [entry]) (bestStep filePath best entry).
Proof.
  destruct entry as [k v]. destruct best as [[inst|] len];
    unfold bestInvariant, bestStep, js_length; simpl.
  - intros (k0 & Hin & Hm & -> & Hmax).
    destruct (folderMatches filePath k) eqn:Hk; simpl.
    + destruct (Z.ltb_spec (Z.of_nat (length k0)) (Z.of_nat (length k)));
        simpl.
      * exists k. repeat split; [apply in_app_iff; right; by left | done |].
        intros k' i' [Hin' | [[= <- <-] | []]]%in_app_iff Hm'; [| lia].
        specialize (Hmax _ _ Hin' Hm'). lia.
      * exists k0. repeat split; [apply in_app_iff; by left | done |].
        intros k' i' [Hin' | [[= <- <-] | []]]%in_app_iff Hm'; [| lia].
        by apply (Hmax _ _ Hin').
    + exists k0. repeat split; [apply in_app_iff; by left | done |].
      intros k' i' [Hin' | [[= <- <-] | []]]%in_app_iff Hm'; [| congruence].
      by apply (Hmax _ _ Hin').
  - intros [-> Hnone].
    destruct (folderMatches filePath k) eqn:Hk; simpl.
    + destruct (Z.ltb_spec (-1) (Z.of_nat (length k))); [| lia]. simpl.
      exists k. repeat split; [apply in_app_iff; right; by left | done |].
      intros k' i' [Hin' | [[= <- <-] | []]]%in_app_iff Hm'; [| lia].
      rewrite (Hnone _ _ Hin') in Hm'. discriminate.
    + split; [done |].
      intros k' i' [Hin' | [[= <- <-] | []]]%in_app_iff; [| done].
      by apply (Hnone _ _ Hin').
Qed.

Lemma bestLoop_invariant filePath entries seen best :
  bestInvariant filePath seen best ->
  bestInvariant filePath (seen ++ entries)
    (fold_left (bestStep filePath) entries best).
Proof.
  revert seen best. induction entries as [|e entries IH]; intros seen best H.
  - by rewrite app_nil_r.
  - simpl. replace (seen ++ e :: entries) with ((seen ++ [e]) ++ entries)
      by (by rewrite <- app_assoc).
    apply IH. by apply bestStep_invariant.
Qed.

Lemma ownerOf_invariant entries filePath :
  bestInvariant filePath entries
    (fold_left (bestStep filePath) entries (None, -1)).
Proof.
  apply (bestLoop_invariant filePath entries [] (None, -1)).
  split; [done | intros k i []].
Qed.

(* ===================================================================== *)
(** * 9. Ownership of a file                                              *)
(* ===================================================================== *)

(** C2. [getRepoForFile] returns an instance registered under a folder that
    matches the file path (the path equals the folder, or the folder is
    empty, or the path starts with the folder and a slash) and that is at
    least as long as every other matching folder; it returns nothing exactly
    when no registered folder matches; it never throws and changes nothing.
    With repositories at "", "a" and "a/b", in any order of registration,
    "a/b/c.md" belongs to "a/b", "a/x.md" to "a" and "z.md" to "". *)
Theorem getRepoForFile_longest_prefix (w : World) (filePath : jsstring) :
  (exists owner,
     getRepoForFile filePath w = (Ok owner, w)
     /\ match owner with
        | Some inst =>
            exists folder,
              In (folder, inst) (repos w)
              /\ candidateMatches filePath folder
              /\ forall folder' inst',
                   In (folder', inst') (repos w) ->
                   candidateMatches filePath folder' ->
                   (length folder' <= length folder)%nat
        | None =>
            forall folder inst,
              In (folder, inst) (repos w) ->
              ~ candidateMatches filePath folder
        end)
  /\ Forall
       (fun entries =>
          ownerFolder entries (str "a/b/c.md") = Some (str "a/b")
          /\ ownerFolder entries (str "a/x.md") = Some (str "a")
          /\ ownerFolder entries (str "z.md") = Some [])
       (permutations nestedRepos).
Proof.
  split.
  - exists (ownerOf (repos w) filePath). split; [done |].
    pose proof (ownerOf_invariant (repos w) filePath) as Hinv.
    unfold ownerOf. unfold bestInvariant in Hinv.
    destruct (fst (fold_left (bestStep filePath) (repos w) (None, -1)))
      as [inst|].
    + destruct Hinv as (k & Hin & Hm & _ & Hmax).
      exists k. split; [done |]. split; [by apply folderMatches_spec |].
      intros folder' inst' Hin' Hm'.
      apply (Hmax _ _ Hin'). by apply folderMatches_spec.
    + destruct Hinv as [_ Hnone]. intros folder inst Hin Hm.
      apply folderMatches_spec in Hm. rewrite (Hnone _ _ Hin) in Hm.
      discriminate.
  - vm_compute. repeat constructor.
Qed.

(* ===================================================================== *)
(** * 10. Status translation                                              *)
(* ===================================================================== *)

Lemma js_eqb_sym (s t : jsstring) : js_eqb s t = js_eqb t s.
Proof.
  destruct (js_eqb t s) eqn:H.
  - apply js_eqb_true in H. by apply js_eqb_true.
  - apply js_eqb_false in H. by apply js_eqb_false.
Qed.

Lemma mapStatus_display (code : jsstring) : mapStatus code = spec_display code.
Proof.
  unfold mapStatus, spec_display, displayTable. simpl.
  rewrite !(js_eqb_sym code).
  repeat (match goal with |- context [js_eqb ?a code] =>
            destruct (js_eqb a code); [done |] end).
  done.
Qed.

Lemma hasChange_emits (code : jsstring) : hasChange code = spec_emits code.
Proof.
  unfold hasChange, spec_emits. apply eq_true_iff_eq.
  rewrite !andb_true_iff, !negb_true_iff, truthy_true, !js_eqb_false,
    bool_decide_eq_true.
  tauto.
Qed.

Lemma vaultPathOf_spec folder code file :
  vaultPathOf folder file = vaultPath (spec_entry folder code file).
Proof.
  unfold vaultPathOf, spec_entry; simpl. destruct folder; done.
Qed.

Lemma entryOf_spec folder code file :
  entryOf folder file (code file) = spec_entry folder code file.
Proof.
  unfold entryOf. rewrite mapStatus_display, (vaultPathOf_spec folder code).
  done.
Qed.

Lemma spec_bucket_untracked file :
  js_eqb (working_dir file) (str "?") && js_eqb (index file) (str "?")
  = isBucket InUntracked file.
Proof.
  unfold isBucket, spec_bucket. apply eq_true_iff_eq.
  rewrite andb_true_iff, !js_eqb_true.
  case_bool_decide as H.
  - intuition congruence.
  - split; [intuition congruence |]. by case_bool_decide.
Qed.

Lemma spec_bucket_conflicted file :
  isBucket InUntracked file = false ->
  js_eqb (working_dir file) (str "U") || js_eqb (index file) (str "U")
  = isBucket InConflicted file.
Proof.
  unfold isBucket, spec_bucket. case_bool_decide as H; [done |]. intros _.
  apply eq_true_iff_eq. rewrite orb_true_iff, !js_eqb_true.
  case_bool_decide as H'; intuition congruence.
Qed.

Lemma spec_bucket_tracked file :
  isBucket InUntracked file = false ->
  isBucket InConflicted file = false ->
  isBucket InTracked file = true.
Proof. unfold isBucket. destruct (spec_bucket file); done. Qed.

Lemma spec_bucket_exclusive file b1 b2 :
  isBucket b1 file = true -> isBucket b2 file = true -> b1 = b2.
Proof.
  unfold isBucket. destruct b1, b2, (spec_bucket file); done.
Qed.

Lemma filter_one {A} (p : A -> bool) (x : A) :
  List.filter p [x] = if p x then [x] else [].
Proof. reflexivity. Qed.

Lemma statusStep_spec folder b file :
  statusStep folder b file =
  {| bStaged := bStaged b ++ stagedOf folder [file];
     bChanged := bChanged b ++ changedOf folder [file];
     bUntracked := bUntracked b ++ untrackedOf folder [file];
     bConflicted := bConflicted b ++ conflictedOf folder [file] |}.
Proof.
  unfold statusStep, stagedOf, changedOf, untrackedOf, conflictedOf.
  rewrite !filter_one, spec_bucket_untracked.
  destruct (isBucket InUntracked file) eqn:Hu.
  - assert (isBucket InConflicted file = false) as ->.
    { destruct (isBucket InConflicted file) eqn:Hc; [| done].
      by pose proof (spec_bucket_exclusive _ _ _ Hu Hc). }
    assert (isBucket InTracked file = false) as ->.
    { destruct (isBucket InTracked file) eqn:Hc; [| done].
      by pose proof (spec_bucket_exclusive _ _ _ Hu Hc). }
    simpl. rewrite !app_nil_r. by rewrite (vaultPathOf_spec folder index).
  - rewrite (spec_bucket_conflicted _ Hu).
    destruct (isBucket InConflicted file) eqn:Hc.
    + assert (isBucket InTracked file = false) as ->.
      { destruct (isBucket InTracked file) eqn:Ht; [| done].
        by pose proof (spec_bucket_exclusive _ _ _ Hc Ht). }
      simpl. rewrite !app_nil_r. by rewrite (vaultPathOf_spec folder index).
    + rewrite (spec_bucket_tracked _ Hu Hc).
      rewrite !hasChange_emits.
      rewrite (entryOf_spec folder index), (entryOf_spec folder working_dir).
      destruct (spec_emits (index file)), (spec_emits (working_dir file));
        simpl; rewrite ?app_nil_r; done.
Qed.

Lemma statusLoop_spec folder l b :
  fold_left (statusStep folder) l b =
  {| bStaged := bStaged b ++ stagedOf folder l;
     bChanged := bChanged b ++ changedOf folder l;
     bUntracked := bUntracked b ++ untrackedOf folder l;
     bConflicted := bConflicted b ++ conflictedOf folder l |}.
Proof.
  revert b. induction l as [|f l IH]; intros b.
  - simpl. unfold stagedOf, changedOf, untrackedOf, conflictedOf. simpl.
    rewrite !app_nil_r. by destruct b.
  - simpl. rewrite IH, statusStep_spec. simpl.
    unfold stagedOf, changedOf, untrackedOf, conflictedOf.
    change (f :: l) with ([f] ++ l).
    rewrite !List.filter_app, !map_app, <- !app_assoc. done.
Qed.

(** C1. When the folder is registered and the executable reports the raw
    status [st], [getStatus] succeeds and fills its four buckets, in the
    order of the records, by the precedence of the specification: a record
    whose two codes are "?" contributes its vault path to [untracked] only;
    otherwise one with a code "U" contributes its vault path to [conflicted]
    only; otherwise it contributes a staged entry exactly when its index code
    is present and neither space nor "?", and a changed entry exactly when
    its working-tree code is present and neither space nor "?".  The
    [displayStatus] of an entry is the image of the deciding code under the
    table M, A, D, R, ?, U with Modified for any other code, which is what
    [mapStatus] computes. *)
Theorem getStatus_classification (w : World) (folder : jsstring)
    (instance : RepoInstance) (st : StatusResult) :
  map_get folder (repos w) = Some instance ->
  answerStatus (git w)
    (gitTrace w ++ [{| onHandle := gitHandle instance; command := Status |}])
  = Ok st ->
  (exists r,
     fst (getStatus folder w) = Ok r
     /\ untracked r = untrackedOf folder (files st)
     /\ conflicted r = conflictedOf folder (files st)
     /\ staged r = stagedOf folder (files st)
     /\ changed r = changedOf folder (files st))
  /\ (forall file b1 b2,
        isBucket b1 file = true -> isBucket b2 file = true -> b1 = b2)
  /\ (forall code, mapStatus code = spec_display code)
  /\ mapStatus (str "M") = Modified /\ mapStatus (str "A") = Added
  /\ mapStatus (str "D") = Deleted /\ mapStatus (str "R") = Renamed
  /\ mapStatus (str "?") = Untracked /\ mapStatus (str "U") = Unmerged
  /\ (forall code,
        ~ In code [str "M"; str "A"; str "D"; str "R"; str "?"; str "U"] ->
        mapStatus code = Modified).
Proof.
  intros Hrepo Hst. split; [| split; [| split]].
  - unfold getStatus, bind, getRepo, gets, gitCall, ret. simpl.
    rewrite Hrepo. simpl. rewrite Hst. simpl.
    eexists. split; [reflexivity |]. simpl.
    rewrite statusLoop_spec. simpl. done.
  - intros file b1 b2. apply spec_bucket_exclusive.
  - apply mapStatus_display.
  - repeat split; try reflexivity.
    intros code Hnot. unfold mapStatus.
    repeat (match goal with |- context [js_eqb code ?a] =>
              destruct (js_eqb code a) eqn:E;
                [exfalso; apply Hnot; apply js_eqb_true in E; subst code;
                 simpl; tauto | clear E] end).
    done.
Qed.

(* ===================================================================== *)
(** * 11. Operations on a folder that is not registered                   *)
(* ===================================================================== *)

Lemma set_repos_same (w : World) : set_repos (repos w) w = w.
Proof. by destruct w. Qed.

Lemma map_delete_absent {V} (k : jsstring) (m : JsMap V) :
  map_get k m = None -> map_delete k m = m.
Proof.
  induction m as [|[k' v] m IH]; simpl; [done |].
  destruct (js_eqb k' k); [done |]. intros H. by rewrite IH.
Qed.

Lemma requireRepo_absent (w : World) (folder : jsstring) :
  map_get folder (repos w) = None ->
  requireRepo folder w = (Throw (noRepoFor folder), w).
Proof.
  intros H. unfold requireRepo, bind, getRepo, gets. by rewrite H.
Qed.

Lemma requireRepo_present (w : World) (folder : jsstring) instance :
  map_get folder (repos w) = Some instance ->
  requireRepo folder w = (Ok instance, w).
Proof.
  intros H. unfold requireRepo, bind, getRepo, gets. by rewrite H.
Qed.

(** A method that starts with the guard stops at the guard. *)
Lemma guarded_absent {A B} (w : World) (folder : jsstring)
    (k : RepoInstance -> M A) (f : A -> B) :
  map_get folder (repos w) = None ->
  mapM f (bind (requireRepo folder) k) w = (Throw (noRepoFor folder), w).
Proof.
  intros H. unfold mapM, bind. by rewrite (requireRepo_absent _ _ H).
Qed.

(** C3, as the code has it.  On a folder without a registered instance the
    delegating operations (stage, stageAll, unstage, unstageAll, discard,
    commit, getDiff, getLog, getBranch, getBranches, checkout, addRemote,
    detectRemotes, push, pull, addToGitignore, removeFromGitignore) throw
    the error "No repo for <folder>" and getStatus throws "No repo
    configured for <folder>"; the two ignore queries answer false, getRepo
    answers undefined, and removeRepo and configureCredentials return
    normally.  None of them changes the world. *)
Theorem unregistered_folder_operations (w : World) (folder : jsstring)
    (op : RegistryOp) :
  map_get folder (repos w) = None ->
  runOp op folder w =
  (match op with
   | OpGetRepo => Ok (VInstance None)
   | OpRemoveRepo => Ok VUnit
   | OpConfigureCredentials => Ok VUnit
   | OpCheckExplicitlyIgnored _ => Ok (VBool false)
   | OpCheckIgnored _ => Ok (VBool false)
   | OpGetStatus => Throw (noRepoConfiguredFor folder)
   | OpStage _ | OpStageAll | OpUnstage _ | OpUnstageAll | OpDiscard _
   | OpCommit _ | OpGetDiff _ _ | OpGetLog _ | OpGetBranch | OpGetBranches
   | OpCheckout _ | OpAddRemote _ _ | OpDetectRemotes | OpPush | OpPull
   | OpAddToGitignore _ | OpRemoveFromGitignore _ =>
       Throw (noRepoFor folder)
   end, w).
Proof.
  intros H.
  destruct op; simpl;
    try (apply (guarded_absent w folder _ _ H)).
  - unfold mapM, bind, getRepo, gets, ret. by rewrite H.
  - unfold mapM, removeRepo, bind, getRepo, gets, ret, modify. rewrite H.
    rewrite (map_delete_absent _ _ H). by rewrite set_repos_same.
  - unfold mapM, getStatus, bind, getRepo, gets, throw. by rewrite H.
  - unfold mapM, configureCredentials, bind, getRepo, gets, ret.
    destruct (negb (truthy (githubToken (settings w)))
              || negb (truthy (githubUsername (settings w)))); [done |].
    by rewrite H.
  - unfold mapM, checkExplicitlyIgnored, bind, getRepo, gets, ret.
    by rewrite H.
  - unfold mapM, checkIgnored, bind, getRepo, gets, ret. by rewrite H.
Qed.

(* ===================================================================== *)
(** * 12. The auto-commit cycle with nothing to commit                    *)
(* ===================================================================== *)

(** C4. When the status of a registered repository lists no file, an
    auto-commit cycle issues the status query and nothing else: no stage, no
    commit, no push, no console message, no notice; it returns normally.
    The same holds for the firing of any running timer whose callback names
    that folder. *)
Theorem autoCommit_nothing_to_commit (w : World) (folder : jsstring)
    (instance : RepoInstance) (st : StatusResult) :
  map_get folder (repos w) = Some instance ->
  answerStatus (git w)
    (gitTrace w ++ [{| onHandle := gitHandle instance; command := Status |}])
  = Ok st ->
  files st = [] ->
  let w' :=
    set_gitTrace
      (gitTrace w ++ [{| onHandle := gitHandle instance; command := Status |}])
      w in
  autoCommit folder w = (Ok tt, w')
  /\ (forall i slot,
        timers w !! i = Some slot -> active slot = true ->
        callbackFolder slot = folder ->
        fire (Handle i) w = (Ok tt, w')).
Proof.
  intros Hrepo Hst Hfiles w'.
  assert (autoCommit folder w = (Ok tt, w')) as Hauto.
  { unfold autoCommit, bind, getRepo, gets. rewrite Hrepo.
    unfold tryCatch, bind, gitCall. rewrite Hst, Hfiles. done. }
  split; [done |].
  intros i slot Hslot Hact Hcb.
  unfold fire, bind, gets. rewrite Hslot, Hact, Hcb. done.
Qed.

(* ===================================================================== *)
(** * 13. Credentials are left alone                                      *)
(* ===================================================================== *)

Lemma set_gitTrace_same (w : World) : set_gitTrace (gitTrace w) w = w.
Proof. by destruct w. Qed.

Lemma set_gitTrace_twice (t t' : list GitEvent) (w : World) :
  set_gitTrace t (set_gitTrace t' w) = set_gitTrace t w.
Proof. done. Qed.

(** C5. [configureCredentials] does nothing when the token or the user name
    is missing, when the folder has no instance, when no remote carries the
    configured name (default "origin"), or when the URL of that remote does
    not start with "https://": it returns normally, the file system is the
    one it found (no file written, none created), the only command it may
    have issued is the listing of the remotes (so no configuration entry is
    written), and nothing else in the world changes. *)
Theorem configureCredentials_skips (w : World) (folder : jsstring) :
  (truthy (githubToken (settings w)) = false
   \/ truthy (githubUsername (settings w)) = false
   \/ map_get folder (repos w) = None
   \/ exists instance remotes,
        map_get folder (repos w) = Some instance
        /\ answerGetRemotes (git w)
             (gitTrace w
                ++ [{| onHandle := gitHandle instance;
                       command := GetRemotes |}])
           = Ok remotes
        /\ match
             List.find
               (fun r =>
                  js_eqb (name r)
                    (or_else (remoteName (config instance)) (str "origin")))
               remotes
           with
           | None => True
           | Some origin =>
               startsWith
                 (or_else (refsPush origin) (or_else (refsFetch origin) []))
                 (str "https://") = false
           end) ->
  exists w',
    configureCredentials folder w = (Ok tt, w')
    /\ fs w' = fs w
    /\ (exists evs,
          gitTrace w' = gitTrace w ++ evs
          /\ Forall (fun e => command e = GetRemotes) evs)
    /\ set_gitTrace (gitTrace w) w' = w.
Proof.
  intros H.
  assert (forall evs, Forall (fun e : GitEvent => command e = GetRemotes) evs ->
            exists w', (Ok tt, set_gitTrace (gitTrace w ++ evs) w) = (Ok tt, w')
              /\ fs w' = fs w
              /\ (exists evs', gitTrace w' = gitTrace w ++ evs'
                    /\ Forall (fun e => command e = GetRemotes) evs')
              /\ set_gitTrace (gitTrace w) w' = w) as Hdone.
  { intros evs Hevs. eexists. split; [reflexivity |].
    split; [done |]. split; [by exists evs |].
    by rewrite set_gitTrace_twice, set_gitTrace_same. }
  assert (exists w', (Ok tt, w) = (Ok tt, w')
              /\ fs w' = fs w
              /\ (exists evs', gitTrace w' = gitTrace w ++ evs'
                    /\ Forall (fun e => command e = GetRemotes) evs')
              /\ set_gitTrace (gitTrace w) w' = w) as Hnil.
  { exists w. split; [done |]. split; [done |].
    split; [exists []; by rewrite app_nil_r |]. apply set_gitTrace_same. }
  unfold configureCredentials, bind, gets.
  destruct (truthy (githubToken (settings w))) eqn:Htok;
    cbn [negb orb]; [| done].
  destruct (truthy (githubUsername (settings w))) eqn:Husr;
    cbn [negb orb]; [| done].
  unfold getRepo, gets.
  destruct (map_get folder (repos w)) as [instance|] eqn:Hrepo; [| done].
  destruct H as [H | [H | [H | H]]]; try discriminate.
  destruct H as (instance' & remotes & [= <-] & Hrem & Hfind).
  unfold gitCall. rewrite Hrem. cbv beta iota zeta.
  destruct (List.find _ remotes) as [origin|].
  - rewrite Hfind. apply Hdone. by repeat constructor.
  - apply Hdone. by repeat constructor.
Qed.

(* ===================================================================== *)
(** * 14. Adding a repository                                             *)
(* ===================================================================== *)

Lemma map_get_set_eq {V} (k : jsstring) (v : V) (m : JsMap V) :
  map_get k (map_set k v m) = Some v.
Proof.
  induction m as [|[k' v'] m IH]; simpl.
  - by rewrite js_eqb_refl.
  - destruct (js_eqb k' k) eqn:E; simpl.
    + by rewrite js_eqb_refl.
    + by rewrite E.
Qed.

Lemma map_get_set_ne {V} (k k' : jsstring) (v : V) (m : JsMap V) :
  k <> k' -> map_get k' (map_set k v m) = map_get k' m.
Proof.
  intros Hne. induction m as [|[k0 v0] m IH]; simpl.
  - apply js_eqb_false in Hne. by rewrite Hne.
  - destruct (js_eqb k0 k) eqn:E; simpl.
    + apply js_eqb_true in E. subst k0.
      apply js_eqb_false in Hne. by rewrite Hne.
    + by rewrite IH.
Qed.

Lemma simpleGit_made (w : World) (dir bin : option jsstring)
    (cfg : list jsstring) :
  factoryOutcome w {| baseDir := dir; binary := bin; handleConfig := cfg |}
  = Ok tt ->
  simpleGit dir bin cfg w
  = (Ok {| baseDir := dir; binary := bin; handleConfig := cfg |}, w).
Proof. intros H. unfold simpleGit. by rewrite H. Qed.

Lemma simpleGit_refused (w : World) (dir bin : option jsstring)
    (cfg : list jsstring) (e : Error) :
  factoryOutcome w {| baseDir := dir; binary := bin; handleConfig := cfg |}
  = Throw e ->
  simpleGit dir bin cfg w = (Throw e, w).
Proof. intros H. unfold simpleGit. by rewrite H. Qed.

Lemma factoryOutcome_missing (w : World) (dir : jsstring) :
  folderExists w dir = false ->
  factoryOutcome w (handleFor w dir) = Throw cannotUseDirectory.
Proof. intros H. unfold factoryOutcome, handleFor. simpl. by rewrite H. Qed.

Lemma addRepo_refused (w : World) (cfg : FolderRepoConfig) (e : Error) :
  factoryOutcome w (handleFor w (resolveAbsolutePath w (folderPath cfg)))
  = Throw e ->
  addRepo cfg w = (Throw e, w).
Proof.
  intros Hfac. unfold addRepo, bind, gets.
  by rewrite (simpleGit_refused _ _ _ _ _ Hfac).
Qed.


Lemma addRepo_rejected (w : World) (cfg : FolderRepoConfig) :
  let git_ := {| baseDir := Some (resolveAbsolutePath w (folderPath cfg));
                 binary := gitBinary w;
                 handleConfig := [str "core.quotepath=off"] |} in
  let t := gitTrace w ++ [{| onHandle := git_; command := CheckIsRepo |}] in
  factoryOutcome w (handleFor w (resolveAbsolutePath w (folderPath cfg)))
  = Ok tt ->
  answerCheckIsRepo (git w) t = Ok false ->
  addRepo cfg w
  = (Throw (notAGitRepository (folderPath cfg)), set_gitTrace t w).
Proof.
  intros git_ t Hdir Hans.
  unfold addRepo, bind, gets. rewrite (simpleGit_made _ _ _ _ Hdir).
  unfold gitCall. fold git_. fold t.
  by rewrite Hans.
Qed.

Lemma addRepo_check_failed (w : World) (cfg : FolderRepoConfig) (e : Error) :
  let git_ := {| baseDir := Some (resolveAbsolutePath w (folderPath cfg));
                 binary := gitBinary w;
                 handleConfig := [str "core.quotepath=off"] |} in
  let t := gitTrace w ++ [{| onHandle := git_; command := CheckIsRepo |}] in
  factoryOutcome w (handleFor w (resolveAbsolutePath w (folderPath cfg)))
  = Ok tt ->
  answerCheckIsRepo (git w) t = Throw e ->
  addRepo cfg w = (Throw e, set_gitTrace t w).
Proof.
  intros git_ t Hdir Hans.
  unfold addRepo, bind, gets. rewrite (simpleGit_made _ _ _ _ Hdir).
  unfold gitCall. fold git_. fold t.
  by rewrite Hans.
Qed.

Lemma addRepo_accepted (w : World) (cfg : FolderRepoConfig) :
  let git_ := {| baseDir := Some (resolveAbsolutePath w (folderPath cfg));
                 binary := gitBinary w;
                 handleConfig := [str "core.quotepath=off"] |} in
  let t := gitTrace w ++ [{| onHandle := git_; command := CheckIsRepo |}] in
  factoryOutcome w (handleFor w (resolveAbsolutePath w (folderPath cfg)))
  = Ok tt ->
  answerCheckIsRepo (git w) t = Ok true ->
  exists timer started,
    let instance :=
      {| config := cfg; gitHandle := git_;
         absolutePath := resolveAbsolutePath w (folderPath cfg);
         autoCommitTimer := timer |} in
    addRepo cfg w
    = (Ok tt,
       set_repos (map_set (folderPath cfg) instance (repos w))
         (set_timers (timers w ++ started) (set_gitTrace t w)))
    /\ map_get (folderPath cfg)
         (map_set (folderPath cfg) instance (repos w))
       = Some instance
    /\ ((0 < autoCommitInterval cfg
         /\ timer = Some (Handle (length (timers w)))
         /\ started =
              [{| callbackFolder := folderPath cfg;
                  delayMs := autoCommitInterval cfg * 60 * 1000;
                  active := true |}])
        \/ (autoCommitInterval cfg <= 0
            /\ timer = None /\ started = [])).
Proof.
  intros git_ t Hdir Hans.
  unfold addRepo, bind, gets. rewrite (simpleGit_made _ _ _ _ Hdir).
  unfold gitCall. fold git_. fold t.
  rewrite Hans. simpl.
  destruct (Z.ltb_spec 0 (autoCommitInterval cfg)) as [Hpos | Hnon].
  - eexists _, _. split; [reflexivity |].
    split; [apply map_get_set_eq |]. left. done.
  - exists None, []. split.
    + unfold ret, modify. simpl. rewrite app_nil_r.
      by destruct w.
    + split; [apply map_get_set_eq |]. right. done.
Qed.

Lemma addRepo_accepted_summary (w : World) (cfg : FolderRepoConfig) :
  factoryOutcome w (handleFor w (resolveAbsolutePath w (folderPath cfg)))
  = Ok tt ->
  answerCheckIsRepo (git w)
    (gitTrace w
       ++ [{| onHandle :=
                {| baseDir := Some (resolveAbsolutePath w (folderPath cfg));
                   binary := gitBinary w;
                   handleConfig := [str "core.quotepath=off"] |};
              command := CheckIsRepo |}])
  = Ok true ->
  exists w1 new started,
    addRepo cfg w = (Ok tt, w1)
    /\ repos w1 = map_set (folderPath cfg) new (repos w)
    /\ timers w1 = timers w ++ started
    /\ config new = cfg
    /\ ((0 < autoCommitInterval cfg
         /\ autoCommitTimer new = Some (Handle (length (timers w)))
         /\ started =
              [{| callbackFolder := folderPath cfg;
                  delayMs := autoCommitInterval cfg * 60 * 1000;
                  active := true |}])
        \/ (autoCommitInterval cfg <= 0
            /\ autoCommitTimer new = None /\ started = []))
    /\ gitHandle new
       = {| baseDir := Some (resolveAbsolutePath w (folderPath cfg));
            binary := gitBinary w;
            handleConfig := [str "core.quotepath=off"] |}
    /\ absolutePath new = resolveAbsolutePath w (folderPath cfg).
Proof.
  intros Hdir Hans.
  destruct (addRepo_accepted w cfg Hdir Hans)
    as (timer & started & Heq & _ & Hcases).
  eexists _, _, started. split; [exact Heq |].
  split; [reflexivity |]. split; [reflexivity |]. split; [reflexivity |].
  split; [exact Hcases |]. split; reflexivity.
Qed.


(* ===================================================================== *)
(** * 15. Push without upstream                                           *)
(* ===================================================================== *)

Lemma opt_or_else_falsy (o : option jsstring) (d : jsstring) :
  falsy o -> opt_or_else o d = d.
Proof. by intros [-> | ->]. Qed.

(** C10. When the folder is registered, the credential step has returned
    and the status then reports no upstream ([tracking] is null or empty),
    [push] issues exactly one more command, [push -u <remote> <branch>],
    where <remote> is the remote name of the configuration or "origin" when
    that is empty, and its outcome is the outcome of that command.  The
    branch is the literal "main" when the status names no current branch
    ([current] is null or empty), and otherwise the name the status
    reports: on a detached HEAD that name is "HEAD", so [push -u <remote>
    HEAD] is issued, not main. *)
Theorem push_defaults_to_main (w w1 : World) (folder : jsstring)
    (instance : RepoInstance) (st : StatusResult) :
  map_get folder (repos w) = Some instance ->
  configureCredentials folder w = (Ok tt, w1) ->
  answerStatus (git w1)
    (gitTrace w1 ++ [{| onHandle := gitHandle instance; command := Status |}])
  = Ok st ->
  falsy (tracking st) ->
  let t2 :=
    gitTrace w1 ++ [{| onHandle := gitHandle instance; command := Status |}] in
  let t3 branch :=
    t2 ++ [{| onHandle := gitHandle instance;
              command :=
                Push [str "-u";
                      or_else (remoteName (config instance)) (str "origin");
                      branch] |}] in
  (falsy (current st) ->
   push folder w
   = (answerVoid (git w1) (t3 (str "main")), set_gitTrace (t3 (str "main")) w1))
  /\ (forall branch,
        current st = Some branch ->
        branch <> [] ->
        push folder w
        = (answerVoid (git w1) (t3 branch), set_gitTrace (t3 branch) w1)).
Proof.
  intros Hrepo Hcred Hst Htrack t2 t3. split.
  - intros Hcur.
    unfold push, bind. rewrite (requireRepo_present _ _ _ Hrepo), Hcred.
    unfold gitCall. rewrite Hst.
    rewrite (opt_or_else_falsy _ _ Htrack), (opt_or_else_falsy _ _ Hcur).
    done.
  - intros branch Hcur Hne.
    unfold push, bind. rewrite (requireRepo_present _ _ _ Hrepo), Hcred.
    unfold gitCall. rewrite Hst.
    rewrite (opt_or_else_falsy _ _ Htrack), Hcur.
    by destruct branch.
Qed.

(* ===================================================================== *)
(** * 16. The message of an automatic commit                              *)
(* ===================================================================== *)

Lemma startsWith_self_app (p rest : jsstring) : startsWith (p ++ rest) p = true.
Proof. apply startsWith_app. by exists rest. Qed.

(** [find_first] finds the leftmost occurrence. *)
Lemma find_first_leftmost (pat before after : jsstring) :
  (forall x y,
     before ++ pat ++ after = x ++ pat ++ y -> (length before <= length x)%nat) ->
  find_first pat (before ++ pat ++ after) = Some (before, after).
Proof.
  induction before as [|c before IH]; intros Hleft.
  - simpl app.
    destruct (pat ++ after) as [|d s] eqn:E; simpl.
    + destruct pat; [| discriminate E]. simpl in E. by subst after.
    + rewrite <- E, startsWith_self_app. by rewrite drop_app_length.
  - simpl app. simpl find_first.
    destruct (startsWith (c :: before ++ pat ++ after) pat) eqn:Hs.
    + apply startsWith_app in Hs as [rest Hrest].
      specialize (Hleft [] rest). simpl in Hleft.
      specialize (Hleft Hrest). lia.
    + rewrite IH; [done |].
      intros x y Hxy. specialize (Hleft (c :: x) y). simpl in Hleft.
      rewrite Hxy in Hleft. specialize (Hleft eq_refl). lia.
Qed.

Lemma find_first_absent (pat s : jsstring) :
  (forall x y, s <> x ++ pat ++ y) -> find_first pat s = None.
Proof.
  induction s as [|c s IH]; intros Hno; simpl.
  - destruct (startsWith [] pat) eqn:Hs; [| done].
    apply startsWith_app in Hs as [rest Hrest]. by destruct (Hno [] rest).
  - destruct (startsWith (c :: s) pat) eqn:Hs.
    + apply startsWith_app in Hs as [rest Hrest]. by destruct (Hno [] rest).
    + rewrite IH; [done |]. intros x y ->. by apply (Hno (c :: x) y).
Qed.

(** Without a dollar sign the replacement text is inserted as it is. *)
Lemma getSubstitution_plain (matched before after replacement : jsstring) :
  ~ In DOLLAR replacement ->
  getSubstitution matched before after replacement = replacement.
Proof.
  induction replacement as [|c r IH]; intros Hno; simpl; [done |].
  destruct (N.eqb_spec c DOLLAR) as [-> | _].
  - exfalso. apply Hno. by left.
  - rewrite IH; [done |]. intros Hin. apply Hno. by right.
Qed.

Lemma iso_has_no_dollar (iso : jsstring) :
  forallb isoCodeUnit iso = true -> ~ In DOLLAR iso.
Proof.
  intros Hall Hin. rewrite forallb_forall in Hall.
  specialize (Hall _ Hin). discriminate Hall.
Qed.

(** ** Running a sequence step by step *)

Lemma bind_ok {A B} (m : M A) (k : A -> M B) (w : World) (a : A) (w1 : World) :
  m w = (Ok a, w1) -> bind m k w = k a w1.
Proof. intros H. unfold bind. by rewrite H. Qed.

Lemma bind_throw {A B} (m : M A) (k : A -> M B) (w : World) (e : Error)
    (w1 : World) :
  m w = (Throw e, w1) -> bind m k w = (Throw e, w1).
Proof. intros H. unfold bind. by rewrite H. Qed.

(** ** Commands are only ever appended to the trace *)

Lemma appendsOnly_ret {A} (a : A) : appendsOnly (ret a).
Proof. intros w. exists []. by rewrite app_nil_r. Qed.

Lemma appendsOnly_throw {A} (e : Error) : appendsOnly (@throw A e).
Proof. intros w. exists []. by rewrite app_nil_r. Qed.

Lemma appendsOnly_gets {A} (f : World -> A) : appendsOnly (gets f).
Proof. intros w. exists []. by rewrite app_nil_r. Qed.

Lemma appendsOnly_modify (f : World -> World) :
  (forall w, gitTrace (f w) = gitTrace w) -> appendsOnly (modify f).
Proof. intros Hf w. exists []. simpl. by rewrite Hf, app_nil_r. Qed.

Lemma appendsOnly_gitCall {A} h c
    (answer : GitOracle -> list GitEvent -> Result A) :
  appendsOnly (gitCall h c answer).
Proof. intros w. by eexists. Qed.

Lemma appendsOnly_bind {A B} (m : M A) (k : A -> M B) :
  appendsOnly m -> (forall a, appendsOnly (k a)) -> appendsOnly (bind m k).
Proof.
  intros Hm Hk w. unfold bind. destruct (Hm w) as [evs Hevs].
  destruct (m w) as [[a | e] w1]; simpl in *.
  - destruct (Hk a w1) as [evs' Hevs']. exists (evs ++ evs').
    by rewrite Hevs', Hevs, app_assoc.
  - by exists evs.
Qed.

Lemma appendsOnly_tryCatch {A} (m : M A) (h : Error -> M A) :
  appendsOnly m -> (forall e, appendsOnly (h e)) -> appendsOnly (tryCatch m h).
Proof.
  intros Hm Hh w. unfold tryCatch. destruct (Hm w) as [evs Hevs].
  destruct (m w) as [[a | e] w1]; simpl in *.
  - by exists evs.
  - destruct (Hh e w1) as [evs' Hevs']. exists (evs ++ evs').
    by rewrite Hevs', Hevs, app_assoc.
Qed.

Lemma appendsOnly_fs {A} (m : M A) :
  (forall w, gitTrace (snd (m w)) = gitTrace w) -> appendsOnly m.
Proof. intros Hm w. exists []. by rewrite Hm, app_nil_r. Qed.

Lemma appendsOnly_writeFileSync p data mode :
  appendsOnly (writeFileSync p data mode).
Proof.
  apply appendsOnly_fs. intros w. unfold writeFileSync.
  by destruct (fs w !! p) as [[]|].
Qed.

Lemma appendsOnly_mkdirSync p : appendsOnly (mkdirSync p).
Proof.
  apply appendsOnly_fs. intros w. unfold mkdirSync.
  by destruct (fs w !! p) as [[]|].
Qed.

Lemma appendsOnly_requireRepo folder : appendsOnly (requireRepo folder).
Proof.
  apply appendsOnly_bind; [apply appendsOnly_gets |].
  intros [i|]; [apply appendsOnly_ret | apply appendsOnly_throw].
Qed.

Lemma appendsOnly_configureCredentials folder :
  appendsOnly (configureCredentials folder).
Proof.
  unfold configureCredentials.
  apply appendsOnly_bind; [apply appendsOnly_gets | intros token].
  apply appendsOnly_bind; [apply appendsOnly_gets | intros username].
  destruct (negb (truthy token) || negb (truthy username));
    [apply appendsOnly_ret |].
  apply appendsOnly_bind; [apply appendsOnly_gets | intros [instance|]];
    [| apply appendsOnly_ret].
  apply appendsOnly_bind; [apply appendsOnly_gitCall | intros remotes].
  destruct (List.find _ remotes) as [origin|]; [| apply appendsOnly_ret].
  destruct (negb (startsWith _ _)); [apply appendsOnly_ret |].
  apply appendsOnly_bind; [apply appendsOnly_gets | intros base].
  apply appendsOnly_bind; [apply appendsOnly_gets | intros cdir].
  apply appendsOnly_bind; [apply appendsOnly_gets | intros present].
  apply appendsOnly_bind.
  { destruct (negb present); [apply appendsOnly_mkdirSync | apply appendsOnly_ret]. }
  intros _. apply appendsOnly_bind; [apply appendsOnly_writeFileSync |].
  intros _. apply appendsOnly_gitCall.
Qed.

Lemma appendsOnly_push folder : appendsOnly (push folder).
Proof.
  unfold push.
  apply appendsOnly_bind; [apply appendsOnly_requireRepo | intros instance].
  apply appendsOnly_bind; [apply appendsOnly_configureCredentials | intros _].
  apply appendsOnly_bind; [apply appendsOnly_gitCall | intros status].
  destruct (opt_or_else (tracking status) []); apply appendsOnly_gitCall.
Qed.

(** C9. Let the template of a registered repository read
    [before ++ "{{date}}" ++ after] with no occurrence of the token further
    left, and let the clock print a timestamp made of ISO-8601 code units.
    Then the message of the cycle is [before ++ timestamp ++ after]: only
    that first token is replaced and [after], with any further token in it,
    is kept as it is; for instance "{{date}} / {{date}}" becomes
    "<timestamp> / {{date}}".  When the status lists a file and staging
    succeeds, this is the message of the commit command the cycle issues
    next. *)
Theorem autoCommit_replaces_first_date_only (w : World) (folder : jsstring)
    (instance : RepoInstance) (st : StatusResult) (before after : jsstring) :
  map_get folder (repos w) = Some instance ->
  commitMessageTemplate (config instance)
  = before ++ str "{{date}}" ++ after ->
  (forall x y,
     before ++ str "{{date}}" ++ after = x ++ str "{{date}}" ++ y ->
     (length before <= length x)%nat) ->
  forallb isoCodeUnit (nowISO w) = true ->
  let statusEv := {| onHandle := gitHandle instance; command := Status |} in
  let addEv := {| onHandle := gitHandle instance; command := Add [str "."] |} in
  let msg := before ++ nowISO w ++ after in
  autoCommitMessage (commitMessageTemplate (config instance)) (nowISO w) = msg
  /\ autoCommitMessage (str "{{date}} / {{date}}") (nowISO w)
     = nowISO w ++ str " / {{date}}"
  /\ (answerStatus (git w) (gitTrace w ++ [statusEv]) = Ok st ->
      files st <> [] ->
      answerVoid (git w) (gitTrace w ++ [statusEv; addEv]) = Ok tt ->
      exists evs,
        gitTrace (snd (autoCommit folder w))
        = gitTrace w
            ++ [statusEv; addEv;
                {| onHandle := gitHandle instance; command := Commit msg |}]
            ++ evs).
Proof.
  intros Hrepo Htpl Hleft Hiso statusEv addEv msg.
  pose proof (iso_has_no_dollar _ Hiso) as Hplain.
  assert (autoCommitMessage (commitMessageTemplate (config instance))
            (nowISO w) = msg) as Hmsg.
  { unfold autoCommitMessage, js_replace.
    rewrite Htpl, (find_first_leftmost _ _ _ Hleft).
    by rewrite getSubstitution_plain. }
  split; [done |]. split.
  - unfold autoCommitMessage, js_replace.
    change (find_first (str "{{date}}") (str "{{date}} / {{date}}"))
      with (Some ([] : jsstring, str " / {{date}}")).
    cbv beta iota. by rewrite getSubstitution_plain.
  - intros Hst Hfiles Hadd.
    set (commitEv := {| onHandle := gitHandle instance;
                        command := Commit msg |}).
    set (w1 := set_gitTrace (gitTrace w ++ [statusEv]) w).
    set (w2 := set_gitTrace (gitTrace w ++ [statusEv; addEv]) w).
    set (w3 := set_gitTrace (gitTrace w ++ [statusEv; addEv; commitEv]) w).
    assert (getRepo folder w = (Ok (Some instance), w)) as H0.
    { unfold getRepo, gets. by rewrite Hrepo. }
    assert (gitCall (gitHandle instance) Status answerStatus w = (Ok st, w1))
      as H1.
    { unfold gitCall. fold statusEv. by rewrite Hst. }
    assert (gitCall (gitHandle instance) (Add [str "."]) answerVoid w1
            = (Ok tt, w2)) as H2.
    { unfold gitCall, w1, w2. simpl. fold statusEv addEv.
      rewrite <- app_assoc. simpl. by rewrite Hadd. }
    assert (gets nowISO w2 = (Ok (nowISO w), w2)) as H3 by done.
    assert (gitCall (gitHandle instance) (Commit msg) answerVoid w2
            = (answerVoid (git w) (gitTrace w3), w3)) as H4.
    { unfold gitCall, w2, w3. simpl. fold commitEv.
      by rewrite <- app_assoc. }
    unfold autoCommit. rewrite (bind_ok _ _ _ _ _ H0). unfold tryCatch.
    rewrite (bind_ok _ _ _ _ _ H1).
    destruct (files st) as [|f fs_] eqn:Hf; [done |].
    replace (Z.of_nat (length (f :: fs_)) =? 0) with false
      by (symmetry; apply Z.eqb_neq; simpl; lia).
    rewrite (bind_ok _ _ _ _ _ H2), (bind_ok _ _ _ _ _ H3), Hmsg.
    unfold bind at 1. rewrite H4.
    destruct (answerVoid (git w) (gitTrace w3)) as [[] | e].
    + destruct (autoPush (config instance)).
      * destruct (appendsOnly_push folder w3) as [evs Hevs].
        destruct (push folder w3) as [[[] | e] w4]; simpl in *.
        -- exists evs. by rewrite Hevs, <- app_assoc.
        -- exists evs. by rewrite Hevs, <- app_assoc.
      * by exists [].
    + by exists [].
Qed.

(* ===================================================================== *)
(** * 17. Replacing a registered repository                               *)
(* ===================================================================== *)

Lemma map_get_In {V} (k : jsstring) (v : V) (m : JsMap V) :
  map_get k m = Some v -> In (k, v) m.
Proof.
  induction m as [|[k' v'] m IH]; simpl; [done |].
  destruct (js_eqb k' k) eqn:E.
  - apply js_eqb_true in E. intros [= ->]. left. by subst.
  - intros H. right. by apply IH.
Qed.

Lemma map_keys_In {V} (k : jsstring) (v : V) (m : JsMap V) :
  In (k, v) m -> In k (map_keys m).
Proof. intros H. apply (in_map fst) in H. exact H. Qed.

Lemma map_set_In {V} (k k0 : jsstring) (v v0 : V) (m : JsMap V) :
  NoDup (map_keys m) ->
  In (k, v) (map_set k0 v0 m) ->
  (k = k0 /\ v = v0) \/ (In (k, v) m /\ k <> k0).
Proof.
  induction m as [|[k' v'] m IH]; simpl; intros Hnd Hin.
  - destruct Hin as [[= <- <-] | []]. by left.
  - apply NoDup_cons in Hnd as [Hnotin Hnd].
    destruct (js_eqb k' k0) eqn:E.
    + apply js_eqb_true in E. subst k'.
      destruct Hin as [[= <- <-] | Hin]; [by left |].
      right. split; [by right |]. intros ->.
      apply Hnotin. apply list_elem_of_In. by apply (map_keys_In _ v).
    + apply js_eqb_false in E.
      destruct Hin as [[= <- <-] | Hin]; [right; split; [by left | done] |].
      destruct (IH Hnd Hin) as [? | [? ?]]; [by left |].
      right. split; [by right | done].
Qed.

Lemma map_delete_In {V} (k k0 : jsstring) (v : V) (m : JsMap V) :
  In (k, v) (map_delete k0 m) -> In (k, v) m /\ k <> k0.
Proof.
  induction m as [|[k' v'] m IH]; simpl; [done |].
  destruct (js_eqb k' k0) eqn:E.
  - intros Hin. destruct (IH Hin). split; [by right | done].
  - apply js_eqb_false in E.
    intros [[= <- <-] | Hin]; [split; [by left | done] |].
    destruct (IH Hin). split; [by right | done].
Qed.

Lemma clearTimerOf_other (instance : RepoInstance) (w : World) (i : nat) :
  autoCommitTimer instance <> Some (Handle i) ->
  timers (snd (clearTimerOf instance w)) !! i = timers w !! i.
Proof.
  unfold clearTimerOf. destruct (autoCommitTimer instance) as [[j]|];
    [| done].
  intros Hne. simpl. apply list_lookup_alter_ne. congruence.
Qed.

Lemma clearTimerOf_ok (instance : RepoInstance) (w : World) :
  fst (clearTimerOf instance w) = Ok tt.
Proof.
  unfold clearTimerOf. by destruct (autoCommitTimer instance) as [[j]|].
Qed.

(** The loop of [destroy] leaves alone every timer that no visited instance
    holds. *)
Lemma destroyLoop_other (entries : JsMap RepoInstance) (w : World) (i : nat) :
  (forall k inst, In (k, inst) entries ->
                  autoCommitTimer inst <> Some (Handle i)) ->
  timers (snd (forEach (fun entry => clearTimerOf (snd entry)) entries w)) !! i
  = timers w !! i.
Proof.
  revert w. induction entries as [|[k inst] entries IH]; intros w Hnone;
    [done |].
  simpl. unfold bind.
  pose proof (clearTimerOf_ok inst w) as Hok.
  pose proof (clearTimerOf_other inst w i (Hnone k inst (or_introl eq_refl)))
    as Hsame.
  destruct (clearTimerOf inst w) as [[[] | e] w1]; simpl in *; [| done].
  rewrite IH; [done |]. intros k' inst' Hin. apply (Hnone k' inst').
  by right.
Qed.

Lemma destroyLoop_ok (entries : JsMap RepoInstance) (w : World) :
  fst (forEach (fun entry => clearTimerOf (snd entry)) entries w) = Ok tt.
Proof.
  revert w. induction entries as [|[k inst] entries IH]; intros w; [done |].
  simpl. unfold bind.
  pose proof (clearTimerOf_ok inst w) as Hok.
  destruct (clearTimerOf inst w) as [[[] | e] w1]; simpl in *; [| done].
  apply IH.
Qed.

(** ** What [addRepo], [removeRepo] and [destroy] do to map and timers *)

Lemma addRepo_effect (w : World) (cfg : FolderRepoConfig) :
  (repos (snd (addRepo cfg w)) = repos w
   /\ timers (snd (addRepo cfg w)) = timers w)
  \/ (exists new started,
        repos (snd (addRepo cfg w)) = map_set (folderPath cfg) new (repos w)
        /\ timers (snd (addRepo cfg w)) = timers w ++ started
        /\ config new = cfg
        /\ ((0 < autoCommitInterval cfg
             /\ autoCommitTimer new = Some (Handle (length (timers w)))
             /\ started =
                  [{| callbackFolder := folderPath cfg;
                      delayMs := autoCommitInterval cfg * 60 * 1000;
                      active := true |}])
            \/ (autoCommitInterval cfg <= 0
                /\ autoCommitTimer new = None /\ started = []))).
Proof.
  destruct (factoryOutcome w
              (handleFor w (resolveAbsolutePath w (folderPath cfg))))
    as [[] | e0] eqn:Hdir; [| left; by rewrite (addRepo_refused w cfg e0 Hdir)].
  destruct (answerCheckIsRepo (git w)
              (gitTrace w
                 ++ [{| onHandle :=
                          {| baseDir :=
                               Some (resolveAbsolutePath w (folderPath cfg));
                             binary := gitBinary w;
                             handleConfig := [str "core.quotepath=off"] |};
                        command := CheckIsRepo |}])) as [[|] | e] eqn:Hans.
  - right. destruct (addRepo_accepted_summary w cfg Hdir Hans)
      as (w1 & new & started & Heq & Hrepos & Htimers & Hcfg & Hcases & _).
    exists new, started. by rewrite Heq.
  - left. by rewrite (addRepo_rejected w cfg Hdir Hans).
  - left. by rewrite (addRepo_check_failed w cfg e Hdir Hans).
Qed.

Lemma map_set_In_weak {V} (k k0 : jsstring) (v v0 : V) (m : JsMap V) :
  In (k, v) (map_set k0 v0 m) -> (k = k0 /\ v = v0) \/ In (k, v) m.
Proof.
  induction m as [|[k' v'] m IH]; simpl.
  - intros [[= <- <-] | []]. by left.
  - destruct (js_eqb k' k0).
    + intros [[= <- <-] | Hin]; [by left | right; by right].
    + intros [[= <- <-] | Hin]; [right; by left |].
      destruct (IH Hin) as [? | ?]; [by left | right; by right].
Qed.

Lemma map_set_keys {V} (x k : jsstring) (v : V) (m : JsMap V) :
  In x (map_keys (map_set k v m)) -> x = k \/ In x (map_keys m).
Proof.
  unfold map_keys. intros Hin. apply in_map_iff in Hin as [[k' v'] [<- Hin]].
  apply map_set_In_weak in Hin as [[-> _] | Hin]; [by left |].
  right. apply (in_map fst) in Hin. exact Hin.
Qed.

Lemma map_set_NoDup {V} (k : jsstring) (v : V) (m : JsMap V) :
  NoDup (map_keys m) -> NoDup (map_keys (map_set k v m)).
Proof.
  induction m as [|[k' v'] m IH]; simpl; intros Hnd.
  - apply NoDup_singleton.
  - apply NoDup_cons in Hnd as [Hnotin Hnd].
    destruct (js_eqb k' k) eqn:E; simpl.
    + apply js_eqb_true in E. subst k'. by apply NoDup_cons.
    + apply js_eqb_false in E. apply NoDup_cons. split; [| by apply IH].
      intros Hin. apply list_elem_of_In in Hin.
      apply map_set_keys in Hin as [-> | Hin]; [done |].
      apply Hnotin. by apply list_elem_of_In.
Qed.

Lemma map_delete_keys {V} (x k : jsstring) (m : JsMap V) :
  In x (map_keys (map_delete k m)) -> In x (map_keys m).
Proof.
  unfold map_keys. intros Hin. apply in_map_iff in Hin as [[k' v'] [<- Hin]].
  apply map_delete_In in Hin as [Hin _].
  apply (in_map fst) in Hin. exact Hin.
Qed.

Lemma map_delete_NoDup {V} (k : jsstring) (m : JsMap V) :
  NoDup (map_keys m) -> NoDup (map_keys (map_delete k m)).
Proof.
  induction m as [|[k' v'] m IH]; simpl; intros Hnd; [done |].
  apply NoDup_cons in Hnd as [Hnotin Hnd].
  destruct (js_eqb k' k); [by apply IH |].
  simpl. apply NoDup_cons. split; [| by apply IH].
  intros Hin. apply Hnotin. apply list_elem_of_In.
  apply list_elem_of_In in Hin. by apply (map_delete_keys _ k).
Qed.

Lemma clearTimerOf_repos (instance : RepoInstance) (w : World) :
  repos (snd (clearTimerOf instance w)) = repos w.
Proof.
  unfold clearTimerOf. by destruct (autoCommitTimer instance) as [[j]|].
Qed.

Lemma removeRepo_effect (w : World) (folder : jsstring) :
  repos (snd (removeRepo folder w)) = map_delete folder (repos w)
  /\ timers (snd (removeRepo folder w))
     = match map_get folder (repos w) with
       | Some instance => timers (snd (clearTimerOf instance w))
       | None => timers w
       end.
Proof.
  unfold removeRepo, bind, getRepo, gets.
  destruct (map_get folder (repos w)) as [instance|]; [| done].
  pose proof (clearTimerOf_ok instance w) as Hok.
  pose proof (clearTimerOf_repos instance w) as Hrepos.
  destruct (clearTimerOf instance w) as [[[] | e] w1]; simpl in *; [| done].
  by rewrite Hrepos.
Qed.

Lemma destroy_effect (w : World) :
  repos (snd (destroy w)) = []
  /\ timers (snd (destroy w))
     = timers (snd (forEach (fun entry => clearTimerOf (snd entry))
                      (repos w) w)).
Proof.
  unfold destroy. unfold bind at 1. unfold gets. unfold bind.
  pose proof (destroyLoop_ok (repos w) w) as Hok.
  destruct (forEach _ (repos w) w) as [[[] | e] w1]; simpl in *; done.
Qed.

(** ** A timer nobody holds stays *)

Lemma orphanTimer_addRepo (w : World) (cfg : FolderRepoConfig) (i : nat) :
  orphanTimer w i -> orphanTimer (snd (addRepo cfg w)) i.
Proof.
  intros [(slot & Hslot & Hactive) Hfree].
  pose proof (lookup_lt_Some _ _ _ Hslot) as Hlt.
  unfold orphanTimer, timerRunning.
  destruct (addRepo_effect w cfg)
    as [[-> Ht] | (new & started & -> & Ht & _ & Hcases)].
  - split; [| done]. exists slot. by rewrite Ht.
  - split.
    + exists slot. rewrite Ht. by rewrite lookup_app_l.
    + intros k inst [[-> ->] | Hin]%map_set_In_weak; [| by apply (Hfree k)].
      destruct Hcases as [(_ & -> & _) | (_ & -> & _)]; [| done].
      intros [= E]. lia.
Qed.

Lemma orphanTimer_removeRepo (w : World) (folder : jsstring) (i : nat) :
  orphanTimer w i -> orphanTimer (snd (removeRepo folder w)) i.
Proof.
  intros [(slot & Hslot & Hactive) Hfree].
  unfold orphanTimer, timerRunning.
  destruct (removeRepo_effect w folder) as [-> Ht]. split.
  - exists slot. split; [| done]. rewrite Ht.
    destruct (map_get folder (repos w)) as [instance|] eqn:Hget; [| done].
    rewrite clearTimerOf_other; [done |].
    apply (Hfree folder). by apply map_get_In.
  - intros k inst [Hin _]%map_delete_In. by apply (Hfree k).
Qed.

Lemma orphanTimer_destroy (w : World) (i : nat) :
  orphanTimer w i -> orphanTimer (snd (destroy w)) i.
Proof.
  intros [(slot & Hslot & Hactive) Hfree].
  unfold orphanTimer, timerRunning.
  destruct (destroy_effect w) as [-> Ht]. split; [| by intros k inst []].
  exists slot. split; [| done]. rewrite Ht.
  by rewrite destroyLoop_other.
Qed.

(** ** Well-formedness is an invariant of the registry *)

Lemma wfRegistry_empty (w : World) : repos w = [] -> wfRegistry w.
Proof.
  intros Hempty. unfold wfRegistry. rewrite Hempty.
  split; [apply NoDup_nil_2 |]. split; by intros.
Qed.

Lemma wfRegistry_addRepo (w : World) (cfg : FolderRepoConfig) :
  wfRegistry w -> wfRegistry (snd (addRepo cfg w)).
Proof.
  intros (Hnd & Hdistinct & Hslots).
  assert (forall k inst i, In (k, inst) (repos w) ->
            autoCommitTimer inst = Some (Handle i) ->
            (i < length (timers w))%nat) as Hrange.
  { intros k inst i Hin Hheld.
    destruct (Hslots _ _ _ Hin Hheld) as (slot & Hslot & _).
    by apply lookup_lt_Some in Hslot. }
  unfold wfRegistry.
  destruct (addRepo_effect w cfg)
    as [[-> ->] | (new & started & -> & -> & _ & Hcases)]; [done |].
  assert (forall i, autoCommitTimer new = Some (Handle i) ->
            i = length (timers w)
            /\ (timers w ++ started) !! i
               = Some {| callbackFolder := folderPath cfg;
                         delayMs := autoCommitInterval cfg * 60 * 1000;
                         active := true |}) as Hfresh.
  { intros i Hheld.
    destruct Hcases as [(_ & Ht & ->) | (_ & Ht & _)]; [| congruence].
    rewrite Ht in Hheld. injection Hheld as <-.
    split; [done |]. by apply list_lookup_middle. }
  split; [by apply map_set_NoDup |]. split.
  - intros k1 k2 i1 i2 [j] Hin1 Hin2 Hheld1 Hheld2.
    apply (map_set_In _ _ _ _ _ Hnd) in Hin1 as [[-> ->] | [Hin1 Hk1]];
      apply (map_set_In _ _ _ _ _ Hnd) in Hin2 as [[-> ->] | [Hin2 Hk2]].
    + done.
    + destruct (Hfresh _ Hheld1) as [-> _].
      pose proof (Hrange _ _ _ Hin2 Hheld2). lia.
    + destruct (Hfresh _ Hheld2) as [-> _].
      pose proof (Hrange _ _ _ Hin1 Hheld1). lia.
    + by apply (Hdistinct _ _ _ _ _ Hin1 Hin2 Hheld1 Hheld2).
  - intros k inst i Hin Hheld.
    apply (map_set_In _ _ _ _ _ Hnd) in Hin as [[-> ->] | [Hin Hk]].
    + destruct (Hfresh _ Hheld) as [_ Hslot]. eexists. by split.
    + destruct (Hslots _ _ _ Hin Hheld) as (slot & Hslot & Hactive & Hcb).
      exists slot. split; [| done].
      rewrite lookup_app_l; [done |]. by apply lookup_lt_Some in Hslot.
Qed.

Lemma wfRegistry_removeRepo (w : World) (folder : jsstring) :
  wfRegistry w -> wfRegistry (snd (removeRepo folder w)).
Proof.
  intros (Hnd & Hdistinct & Hslots). unfold wfRegistry.
  destruct (removeRepo_effect w folder) as [-> ->].
  split; [by apply map_delete_NoDup |]. split.
  - intros k1 k2 i1 i2 h [Hin1 _]%map_delete_In [Hin2 _]%map_delete_In.
    by apply Hdistinct.
  - intros k inst i [Hin Hk]%map_delete_In Hheld.
    destruct (Hslots _ _ _ Hin Hheld) as (slot & Hslot & Hactive & Hcb).
    exists slot. split; [| done].
    destruct (map_get folder (repos w)) as [removed|] eqn:Hget; [| done].
    rewrite clearTimerOf_other; [done |].
    intros Hsame. apply Hk.
    apply (Hdistinct _ _ _ _ _ Hin (map_get_In _ _ _ Hget) Hheld Hsame).
Qed.

Lemma wfRegistry_destroy (w : World) : wfRegistry (snd (destroy w)).
Proof. apply wfRegistry_empty. apply destroy_effect. Qed.

(** ** The commands of an auto-commit cycle *)

Lemma issuesOnly_quiet (P : GitEvent -> Prop) folder instance {A} (m : M A) :
  (forall w, gitTrace (snd (m w)) = gitTrace w
             /\ repos (snd (m w)) = repos w) ->
  issuesOnly P folder instance m.
Proof.
  intros H w Hget. destruct (H w) as [Ht Hr]. exists [].
  rewrite Ht, Hr, app_nil_r. split; [done |]. split; [constructor | done].
Qed.

Lemma issuesOnly_gitCall (P : GitEvent -> Prop) folder instance {A} h c
    (answer : GitOracle -> list GitEvent -> Result A) :
  P {| onHandle := h; command := c |} ->
  issuesOnly P folder instance (gitCall h c answer).
Proof.
  intros HP w Hget. exists [{| onHandle := h; command := c |}].
  split; [done |]. split; [by repeat constructor | done].
Qed.

Lemma issuesOnly_bind (P : GitEvent -> Prop) folder instance {A B}
    (m : M A) (k : A -> M B) :
  issuesOnly P folder instance m ->
  (forall a, issuesOnly P folder instance (k a)) ->
  issuesOnly P folder instance (bind m k).
Proof.
  intros Hm Hk w Hget. unfold bind.
  destruct (Hm w Hget) as (evs & Ht & HP & Hget1).
  destruct (m w) as [[a | e] w1]; simpl in *.
  - destruct (Hk a w1 Hget1) as (evs' & Ht' & HP' & Hget2).
    exists (evs ++ evs'). rewrite Ht', Ht, app_assoc.
    split; [done |]. split; [by apply Forall_app | done].
  - by exists evs.
Qed.

Lemma issuesOnly_getRepo (P : GitEvent -> Prop) folder instance {B}
    (k : option RepoInstance -> M B) :
  issuesOnly P folder instance (k (Some instance)) ->
  issuesOnly P folder instance (bind (getRepo folder) k).
Proof.
  intros Hk w Hget. unfold bind, getRepo, gets. rewrite Hget. by apply Hk.
Qed.

Lemma issuesOnly_requireRepo (P : GitEvent -> Prop) folder instance {B}
    (k : RepoInstance -> M B) :
  issuesOnly P folder instance (k instance) ->
  issuesOnly P folder instance (bind (requireRepo folder) k).
Proof.
  intros Hk w Hget. rewrite (bind_ok _ _ _ _ _ (requireRepo_present _ _ _ Hget)).
  by apply Hk.
Qed.

Lemma cycleEvent_plain (instance : RepoInstance) (iso : jsstring)
    (c : GitCommand) :
  (forall m, c <> Commit m) -> (forall args, c <> Push args) ->
  cycleEvent instance iso {| onHandle := gitHandle instance; command := c |}.
Proof.
  intros Hc Hp. split; [done |]. split.
  - intros m E. by destruct (Hc m).
  - intros args E. by destruct (Hp args).
Qed.

Lemma issuesOnly_configureCredentials instance iso folder :
  issuesOnly (cycleEvent instance iso) folder instance
    (configureCredentials folder).
Proof.
  unfold configureCredentials.
  apply issuesOnly_bind; [by apply issuesOnly_quiet | intros token].
  apply issuesOnly_bind; [by apply issuesOnly_quiet | intros username].
  destruct (negb (truthy token) || negb (truthy username));
    [by apply issuesOnly_quiet |].
  apply issuesOnly_getRepo.
  apply issuesOnly_bind.
  { apply issuesOnly_gitCall. by apply cycleEvent_plain. }
  intros remotes.
  destruct (List.find _ remotes) as [origin|]; [| by apply issuesOnly_quiet].
  destruct (negb (startsWith _ _)); [by apply issuesOnly_quiet |].
  apply issuesOnly_bind; [by apply issuesOnly_quiet | intros base].
  apply issuesOnly_bind; [by apply issuesOnly_quiet | intros cdir].
  apply issuesOnly_bind; [by apply issuesOnly_quiet | intros present].
  apply issuesOnly_bind.
  { apply issuesOnly_quiet. intros w.
    destruct (negb present); [| done].
    unfold mkdirSync. by destruct (fs w !! _) as [[]|]. }
  intros _. apply issuesOnly_bind.
  { apply issuesOnly_quiet. intros w.
    unfold writeFileSync. by destruct (fs w !! _) as [[]|]. }
  intros _. apply issuesOnly_gitCall. by apply cycleEvent_plain.
Qed.

Lemma issuesOnly_push instance iso folder :
  autoPush (config instance) = true ->
  issuesOnly (cycleEvent instance iso) folder instance (push folder).
Proof.
  intros Hpush. unfold push. apply issuesOnly_requireRepo.
  apply issuesOnly_bind; [apply issuesOnly_configureCredentials | intros _].
  apply issuesOnly_bind.
  { apply issuesOnly_gitCall. by apply cycleEvent_plain. }
  intros status.
  destruct (opt_or_else (tracking status) []); apply issuesOnly_gitCall;
    (split; [done |]); (split; [intros m E; discriminate E | done]).
Qed.

(** The cycle of a registered folder starts with the status query on the
    handle of the instance the folder resolves to; what follows are
    commands of that instance, and when the status lists a file and staging
    succeeds, staging and the commit with the message of that instance come
    next. *)
Lemma autoCommit_cycle (w : World) (folder : jsstring)
    (instance : RepoInstance) :
  map_get folder (repos w) = Some instance ->
  let statusEv := {| onHandle := gitHandle instance; command := Status |} in
  let addEv :=
    {| onHandle := gitHandle instance; command := Add [str "."] |} in
  let commitEv :=
    {| onHandle := gitHandle instance;
       command :=
         Commit (autoCommitMessage (commitMessageTemplate (config instance))
                   (nowISO w)) |} in
  exists evs,
    gitTrace (snd (autoCommit folder w)) = gitTrace w ++ statusEv :: evs
    /\ Forall (cycleEvent instance (nowISO w)) evs
    /\ (forall st,
          answerStatus (git w) (gitTrace w ++ [statusEv]) = Ok st ->
          files st <> [] ->
          answerVoid (git w) (gitTrace w ++ [statusEv; addEv]) = Ok tt ->
          exists rest, evs = addEv :: commitEv :: rest).
Proof.
  intros Hrepo statusEv addEv commitEv.
  assert (cycleEvent instance (nowISO w) addEv) as Hadd_ev
    by (by apply cycleEvent_plain).
  assert (cycleEvent instance (nowISO w) commitEv) as Hcommit_ev.
  { split; [done |]. split; [by intros m [= <-] | intros args E].
    discriminate E. }
  set (w1 := set_gitTrace (gitTrace w ++ [statusEv]) w).
  set (w2 := set_gitTrace (gitTrace w ++ [statusEv; addEv]) w).
  set (w3 := set_gitTrace (gitTrace w ++ [statusEv; addEv; commitEv]) w).
  assert (getRepo folder w = (Ok (Some instance), w)) as H0.
  { unfold getRepo, gets. by rewrite Hrepo. }
  unfold autoCommit. rewrite (bind_ok _ _ _ _ _ H0). unfold tryCatch.
  destruct (answerStatus (git w) (gitTrace w ++ [statusEv]))
    as [st | e] eqn:Hst.
  - assert (gitCall (gitHandle instance) Status answerStatus w = (Ok st, w1))
      as H1.
    { unfold gitCall. fold statusEv. by rewrite Hst. }
    rewrite (bind_ok _ _ _ _ _ H1).
    destruct (files st) as [|f rest] eqn:Hfiles.
    { exists []. split; [done |]. split; [constructor |].
      intros st' [= <-] Hne. by destruct Hne. }
    replace (Z.of_nat (length (f :: rest)) =? 0) with false
      by (symmetry; apply Z.eqb_neq; simpl; lia).
    destruct (answerVoid (git w) (gitTrace w ++ [statusEv; addEv]))
      as [[] | e] eqn:Hadd.
    + assert (gitCall (gitHandle instance) (Add [str "."]) answerVoid w1
              = (Ok tt, w2)) as H2.
      { unfold gitCall, w1, w2. simpl. fold statusEv addEv.
        rewrite <- app_assoc. simpl. by rewrite Hadd. }
      assert (gets nowISO w2 = (Ok (nowISO w), w2)) as H3 by done.
      assert (gitCall (gitHandle instance)
                (Commit (autoCommitMessage
                           (commitMessageTemplate (config instance))
                           (nowISO w))) answerVoid w2
              = (answerVoid (git w) (gitTrace w3), w3)) as H4.
      { unfold gitCall, w2, w3. simpl. fold commitEv.
        by rewrite <- app_assoc. }
      rewrite (bind_ok _ _ _ _ _ H2), (bind_ok _ _ _ _ _ H3).
      unfold bind at 1. rewrite H4.
      destruct (answerVoid (git w) (gitTrace w3)) as [[] | e].
      * destruct (autoPush (config instance)) eqn:Hpush.
        -- destruct (issuesOnly_push instance (nowISO w) folder Hpush w3 Hrepo)
             as (evs & Hevs & HP & _).
           exists (addEv :: commitEv :: evs).
           split; [| split; [repeat first [assumption | apply List.Forall_nil | apply List.Forall_cons] | by eexists]].
           destruct (push folder w3) as [[[] | e] w4]; simpl in *;
             by rewrite Hevs, <- app_assoc.
        -- exists [addEv; commitEv].
           split; [done |]. split; [repeat first [assumption | apply List.Forall_nil | apply List.Forall_cons] | by eexists].
      * exists [addEv; commitEv].
        split; [done |]. split; [repeat first [assumption | apply List.Forall_nil | apply List.Forall_cons] | by eexists].
    + assert (gitCall (gitHandle instance) (Add [str "."]) answerVoid w1
              = (Throw e, w2)) as H2.
      { unfold gitCall, w1, w2. simpl. fold statusEv addEv.
        rewrite <- app_assoc. simpl. by rewrite Hadd. }
      rewrite (bind_throw _ _ _ _ _ H2).
      exists [addEv]. split; [done |]. split; [repeat first [assumption | apply List.Forall_nil | apply List.Forall_cons] |].
      intros st' _ _ E. discriminate E.
  - assert (gitCall (gitHandle instance) Status answerStatus w
            = (Throw e, w1)) as H1.
    { unfold gitCall. fold statusEv. by rewrite Hst. }
    rewrite (bind_throw _ _ _ _ _ H1).
    exists []. split; [done |]. split; [constructor |].
    intros st' E. discriminate E.
Qed.

(** C8. Let a well-formed registry hold, under the folder of [cfg], an
    instance whose timer [i] is running, and let [addRepo cfg] succeed.
    Then the new instance, made from [cfg], is registered under that folder
    and holds a different handle (or none).  Timer [i] is never cleared:
    its slot, with its delay, is the same after [addRepo], after a
    following [removeRepo] of the folder and after a following [destroy],
    and it is running in each.  When timer [i] fires it runs the
    auto-commit cycle of the folder, which looks the folder up at that
    moment and so works on the new instance: the cycle opens with the
    status query on the handle of the new instance, every further command
    goes to that handle, a push is issued only when the new configuration
    asks for one, and when the status lists a file and staging succeeds the
    cycle stages and commits with the message made from the template of the
    new configuration.  When the new configuration has a positive interval,
    a second running timer, created with the delay of that interval, runs
    the same cycle.  Moreover no instance holds the handle of timer [i] any more,
    and a running timer in that position stays so under every later
    [addRepo], [removeRepo] and [destroy], the only methods that clear
    timers. *)
Theorem addRepo_leaves_previous_timer_running (w : World)
    (cfg : FolderRepoConfig) (old : RepoInstance) (i : nat) :
  wfRegistry w ->
  map_get (folderPath cfg) (repos w) = Some old ->
  autoCommitTimer old = Some (Handle i) ->
  factoryOutcome w (handleFor w (resolveAbsolutePath w (folderPath cfg)))
  = Ok tt ->
  answerCheckIsRepo (git w)
    (gitTrace w
       ++ [{| onHandle :=
                {| baseDir := Some (resolveAbsolutePath w (folderPath cfg));
                   binary := gitBinary w;
                   handleConfig := [str "core.quotepath=off"] |};
              command := CheckIsRepo |}])
  = Ok true ->
  exists w1 new slot,
    addRepo cfg w = (Ok tt, w1)
    /\ map_get (folderPath cfg) (repos w1) = Some new
    /\ config new = cfg
    /\ gitHandle new
       = {| baseDir := Some (resolveAbsolutePath w (folderPath cfg));
            binary := gitBinary w;
            handleConfig := [str "core.quotepath=off"] |}
    /\ autoCommitTimer new <> Some (Handle i)
    /\ (timers w !! i = Some slot
        /\ active slot = true
        /\ callbackFolder slot = folderPath cfg
        /\ timers w1 !! i = Some slot
        /\ timers (snd (removeRepo (folderPath cfg) w1)) !! i = Some slot
        /\ timers (snd (destroy w1)) !! i = Some slot)
    /\ timerRunning w1 i
    /\ timerRunning (snd (removeRepo (folderPath cfg) w1)) i
    /\ timerRunning (snd (destroy w1)) i
    /\ fire (Handle i) w1 = autoCommit (folderPath cfg) w1
    /\ (exists evs,
          gitTrace (snd (fire (Handle i) w1))
          = gitTrace w1
              ++ {| onHandle := gitHandle new; command := Status |} :: evs
          /\ Forall (cycleEvent new (nowISO w1)) evs
          /\ (forall st,
                answerStatus (git w1)
                  (gitTrace w1
                     ++ [{| onHandle := gitHandle new; command := Status |}])
                = Ok st ->
                files st <> [] ->
                answerVoid (git w1)
                  (gitTrace w1
                     ++ [{| onHandle := gitHandle new; command := Status |};
                         {| onHandle := gitHandle new;
                            command := Add [str "."] |}])
                = Ok tt ->
                exists rest,
                  evs
                  = {| onHandle := gitHandle new; command := Add [str "."] |}
                    :: {| onHandle := gitHandle new;
                          command :=
                            Commit (autoCommitMessage
                                      (commitMessageTemplate cfg)
                                      (nowISO w1)) |}
                    :: rest))
    /\ (0 < autoCommitInterval cfg ->
        exists j,
          j <> i /\ autoCommitTimer new = Some (Handle j)
          /\ timers w1 !! j
             = Some {| callbackFolder := folderPath cfg;
                       delayMs := autoCommitInterval cfg * 60 * 1000;
                       active := true |}
          /\ timerRunning w1 j
          /\ fire (Handle j) w1 = autoCommit (folderPath cfg) w1)
    /\ orphanTimer w1 i
    /\ (forall w2,
          orphanTimer w2 i ->
          (forall cfg', orphanTimer (snd (addRepo cfg' w2)) i)
          /\ (forall folder, orphanTimer (snd (removeRepo folder w2)) i)
          /\ orphanTimer (snd (destroy w2)) i).
Proof.
  intros (Hnd & Hdistinct & Hslots) Hold Htimer Hdir Hrepo.
  pose proof (map_get_In _ _ _ Hold) as Hin_old.
  destruct (Hslots _ _ _ Hin_old Htimer) as (slot & Hslot & Hactive & Hcb).
  pose proof (lookup_lt_Some _ _ _ Hslot) as Hlt.
  destruct (addRepo_accepted_summary w cfg Hdir Hrepo)
    as (w1 & new & started & Heq & Hrepos & Htimers & Hcfg & Hcases
        & Hhandle & _).
  assert (map_get (folderPath cfg) (map_set (folderPath cfg) new (repos w))
          = Some new) as Hget by apply map_get_set_eq.
  assert (map_get (folderPath cfg) (repos w1) = Some new) as Hget1
    by (by rewrite Hrepos).
  assert (timers w1 !! i = Some slot) as Hslot1.
  { rewrite Htimers. by rewrite lookup_app_l. }
  assert (autoCommitTimer new <> Some (Handle i)) as Hne.
  { destruct Hcases as [(_ & -> & _) | (_ & -> & _)]; [| done].
    intros [= E]. lia. }
  assert (fire (Handle i) w1 = autoCommit (folderPath cfg) w1) as Hfire.
  { unfold fire, bind, gets. by rewrite Hslot1, Hactive, Hcb. }
  assert (timers (snd (removeRepo (folderPath cfg) w1)) !! i = Some slot)
    as Hslot_remove.
  { unfold removeRepo, bind, getRepo, gets. rewrite Hget1.
    pose proof (clearTimerOf_ok new w1) as Hok.
    pose proof (clearTimerOf_other new w1 i Hne) as Hsame.
    destruct (clearTimerOf new w1) as [[[] | e] w2]; simpl in *; [| done].
    by rewrite Hsame. }
  assert (timers (snd (destroy w1)) !! i = Some slot) as Hslot_destroy.
  { unfold destroy. unfold bind at 1. unfold gets. unfold bind.
    pose proof (destroyLoop_ok (repos w1) w1) as Hok.
    pose proof (destroyLoop_other (repos w1) w1 i) as Hsame.
    destruct (forEach _ (repos w1) w1) as [[[] | e] w2]; simpl in *;
      [| done].
    rewrite Hsame; [done |].
    intros k inst Hin Hk_held. rewrite Hrepos in Hin.
    apply (map_set_In _ _ _ _ _ Hnd) in Hin as [[-> ->] | [Hin Hk]];
      [done |].
    apply Hk. apply (Hdistinct _ _ _ _ _ Hin Hin_old Hk_held Htimer). }
  exists w1, new, slot. split; [done |]. split; [done |].
  split; [done |]. split; [done |]. split; [done |]. split; [done |].
  assert (orphanTimer w1 i) as Horphan.
  { split; [by exists slot |].
    intros k inst Hin Hk_held. rewrite Hrepos in Hin.
    apply (map_set_In _ _ _ _ _ Hnd) in Hin as [[-> ->] | [Hin Hk]];
      [done |].
    apply Hk. apply (Hdistinct _ _ _ _ _ Hin Hin_old Hk_held Htimer). }
  split; [by exists slot |]. split; [by exists slot |].
  split; [by exists slot |]. split; [done |].
  split; [| split; [| split]].
  - rewrite Hfire.
    destruct (autoCommit_cycle w1 (folderPath cfg) new Hget1)
      as (evs & Htrace & Hevs & Hcommit).
    exists evs. split; [done |]. split; [done |]. by rewrite <- Hcfg.
  - intros Hpos.
    destruct Hcases as [(_ & Ht & Hs) | (Hle & _ & _)]; [| lia].
    exists (length (timers w)). split; [lia |].
    split; [done |].
    assert (timers w1 !! length (timers w)
            = Some {| callbackFolder := folderPath cfg;
                      delayMs := autoCommitInterval cfg * 60 * 1000;
                      active := true |}) as Hfresh.
    { rewrite Htimers, Hs. by apply list_lookup_middle. }
    split; [done |]. split; [by eexists |].
    unfold fire, bind, gets. by rewrite Hfresh.
  - exact Horphan.
  - intros w2 Hw2. split; [| split].
    + intros cfg'. by apply orphanTimer_addRepo.
    + intros folder. by apply orphanTimer_removeRepo.
    + by apply orphanTimer_destroy.
Qed.

(* ===================================================================== *)
(** * 18. Lines of a text                                                 *)
(* ===================================================================== *)

(** ** The equations of [split_lines] and the induction that follows them *)

Lemma split_lines_nil : split_lines [] = [[]].
Proof. done. Qed.

Lemma split_lines_LF (s : jsstring) :
  split_lines (LF :: s) = [] :: split_lines s.
Proof. done. Qed.

Lemma split_lines_CRLF (s : jsstring) :
  split_lines (CR :: LF :: s) = [] :: split_lines s.
Proof. done. Qed.

Lemma split_lines_one (c : N) : c <> LF -> split_lines [c] = [[c]].
Proof.
  intros Hc. simpl. apply N.eqb_neq in Hc. by rewrite Hc.
Qed.

Lemma split_lines_more (c d : N) (s : jsstring) :
  c <> LF -> ~ (c = CR /\ d = LF) ->
  split_lines (c :: d :: s) = cons_head c (split_lines (d :: s)).
Proof.
  intros Hc Hcd. change (split_lines (c :: d :: s)) with
    (if N.eqb c LF then [] :: split_lines (d :: s)
     else if N.eqb c CR && N.eqb d LF then [] :: split_lines s
          else cons_head c (split_lines (d :: s))).
  apply N.eqb_neq in Hc. rewrite Hc.
  destruct (N.eqb_spec c CR) as [-> | _]; [| done].
  destruct (N.eqb_spec d LF) as [-> | _]; [| done].
  by destruct Hcd.
Qed.

Lemma split_lines_cases (P : jsstring -> Prop) :
  P [] ->
  (forall s, P s -> P (LF :: s)) ->
  (forall s, P s -> P (CR :: LF :: s)) ->
  (forall c, c <> LF -> P [c]) ->
  (forall c d s, c <> LF -> ~ (c = CR /\ d = LF) ->
                 P (d :: s) -> P (c :: d :: s)) ->
  forall s, P s.
Proof.
  intros Hnil HLF HCRLF Hone Hmore.
  assert (forall n s, (length s <= n)%nat -> P s) as Hstrong.
  { induction n as [|n IH]; intros s Hlen.
    - destruct s; [done | simpl in Hlen; lia].
    - destruct s as [|c [|d s]]; [done | |].
      + destruct (N.eq_dec c LF) as [-> | Hc]; [by apply HLF | by apply Hone].
      + simpl in Hlen.
        destruct (N.eq_dec c LF) as [-> | Hc].
        { apply HLF, IH. simpl. lia. }
        destruct (N.eq_dec c CR) as [-> | Hcr].
        * destruct (N.eq_dec d LF) as [-> | Hd].
          -- apply HCRLF, IH. lia.
          -- apply Hmore; [done | by intros [_ ?] |]. apply IH. simpl. lia.
        * apply Hmore; [done | by intros [? _] |]. apply IH. simpl. lia. }
  intros s. by apply (Hstrong (length s)).
Qed.

Lemma split_lines_nonempty (s : jsstring) : split_lines s <> [].
Proof.
  induction s as [| s IH | s IH | c Hc | c d s Hc Hcd IH]
    using split_lines_cases.
  - done.
  - by rewrite split_lines_LF.
  - by rewrite split_lines_CRLF.
  - by rewrite split_lines_one.
  - rewrite split_lines_more by done.
    by destruct (split_lines (d :: s)).
Qed.

Lemma cons_head_app (c : N) (l1 l2 : list jsstring) :
  l1 <> [] -> cons_head c (l1 ++ l2) = cons_head c l1 ++ l2.
Proof. by destruct l1. Qed.

Lemma cons_head_nonempty (c : N) (l : list jsstring) : cons_head c l <> [].
Proof. by destruct l. Qed.

(** No line contains a line feed. *)
Lemma split_lines_no_LF (s : jsstring) (l : jsstring) :
  In l (split_lines s) -> ~ In LF l.
Proof.
  revert l.
  induction s as [| s IH | s IH | c Hc | c d s Hc Hcd IH]
    using split_lines_cases; intros l.
  - intros [<- | []]. by intros [].
  - rewrite split_lines_LF. intros [<- | Hin]; [by intros [] | by apply IH].
  - rewrite split_lines_CRLF. intros [<- | Hin]; [by intros [] | by apply IH].
  - rewrite split_lines_one by done. intros [<- | []].
    intros [-> | []]. done.
  - rewrite split_lines_more by done.
    pose proof (split_lines_nonempty (d :: s)) as Hne.
    destruct (split_lines (d :: s)) as [|l0 r]; [done |]. simpl.
    intros [<- | Hin].
    + intros [-> | Hl0]; [done |]. apply (IH l0); [by left | done].
    + apply IH. by right.
Qed.

(** A text without line feed is one line. *)
Lemma split_lines_single (l : jsstring) : ~ In LF l -> split_lines l = [l].
Proof.
  induction l as [| s IH | s IH | c Hc | c d s Hc Hcd IH]
    using split_lines_cases; intros Hno.
  - done.
  - destruct Hno. by left.
  - destruct Hno. right. by left.
  - by apply split_lines_one.
  - rewrite split_lines_more by done. rewrite IH; [done |].
    intros Hin. apply Hno. by right.
Qed.

(** A text that ends with a line feed ends with an empty line. *)
Lemma split_lines_terminated (s : jsstring) :
  exists ls, ls <> [] /\ split_lines (s ++ [LF]) = ls ++ [[]].
Proof.
  induction s as [| s IH | s IH | c Hc | c d s Hc Hcd IH]
    using split_lines_cases.
  - by exists [[]].
  - destruct IH as (ls & Hne & Hls). exists ([] :: ls). split; [done |].
    cbn [app]. by rewrite split_lines_LF, Hls.
  - destruct IH as (ls & Hne & Hls). exists ([] :: ls). split; [done |].
    cbn [app]. by rewrite split_lines_CRLF, Hls.
  - destruct (N.eq_dec c CR) as [-> | Hcr].
    + by exists [[]].
    + exists [[c]]. split; [done |]. cbn [app].
      rewrite split_lines_more; [done | done | by intros [? _]].
  - destruct IH as (ls & Hne & Hls). exists (cons_head c ls).
    split; [apply cons_head_nonempty |].
    cbn [app]. rewrite split_lines_more by done.
    cbn [app] in Hls. rewrite Hls. by apply cons_head_app.
Qed.

Lemma terminatedLines_spec (s : jsstring) :
  terminatedLines s <> []
  /\ split_lines (s ++ [LF]) = terminatedLines s ++ [[]].
Proof.
  unfold terminatedLines.
  destruct (split_lines_terminated s) as (ls & Hne & ->).
  by rewrite removelast_last.
Qed.

Lemma terminatedLines_LF (s : jsstring) :
  terminatedLines (LF :: s) = [] :: terminatedLines s.
Proof.
  unfold terminatedLines. cbn [app]. rewrite split_lines_LF.
  destruct (split_lines_terminated s) as (ls & Hne & ->).
  by rewrite app_comm_cons, !removelast_last.
Qed.

Lemma terminatedLines_CRLF (s : jsstring) :
  terminatedLines (CR :: LF :: s) = [] :: terminatedLines s.
Proof.
  unfold terminatedLines. cbn [app]. rewrite split_lines_CRLF.
  destruct (split_lines_terminated s) as (ls & Hne & ->).
  by rewrite app_comm_cons, !removelast_last.
Qed.

Lemma terminatedLines_more (c d : N) (s : jsstring) :
  c <> LF -> ~ (c = CR /\ d = LF) ->
  terminatedLines (c :: d :: s) = cons_head c (terminatedLines (d :: s)).
Proof.
  intros Hc Hcd. unfold terminatedLines. cbn [app].
  rewrite split_lines_more by done.
  destruct (split_lines_terminated (d :: s)) as (ls & Hne & Hls).
  cbn [app] in Hls. rewrite Hls.
  rewrite cons_head_app by done. by rewrite !removelast_last.
Qed.

(** A prefix that ends with a line feed contributes its lines. *)
Lemma split_lines_after_terminated (s t : jsstring) :
  split_lines ((s ++ [LF]) ++ t) = terminatedLines s ++ split_lines t.
Proof.
  induction s as [| s IH | s IH | c Hc | c d s Hc Hcd IH]
    using split_lines_cases.
  - done.
  - cbn [app]. rewrite split_lines_LF, terminatedLines_LF.
    cbn [app] in IH. by rewrite IH.
  - cbn [app]. rewrite split_lines_CRLF, terminatedLines_CRLF.
    cbn [app] in IH. by rewrite IH.
  - cbn [app]. destruct (N.eq_dec c CR) as [-> | Hcr].
    + by rewrite split_lines_CRLF.
    + rewrite split_lines_more; [| done | by intros [? _]].
      rewrite split_lines_LF. unfold terminatedLines. cbn [app].
      rewrite split_lines_more; [done | done | by intros [? _]].
  - cbn [app]. rewrite split_lines_more by done.
    rewrite terminatedLines_more by done.
    cbn [app] in IH. rewrite IH.
    apply cons_head_app. apply terminatedLines_spec.
Qed.

Lemma last_cons_cons {A} (x y : A) (l : list A) :
  last (x :: y :: l) = last (y :: l).
Proof. done. Qed.

(** Without a carriage return at its end, a text that gets a line feed
    gets an empty last line and keeps the others. *)
Lemma terminatedLines_plain (s : jsstring) :
  last s <> Some CR -> terminatedLines s = split_lines s.
Proof.
  induction s as [| s IH | s IH | c Hc | c d s Hc Hcd IH]
    using split_lines_cases; intros Hlast.
  - done.
  - rewrite terminatedLines_LF, split_lines_LF, IH; [done |].
    destruct s; [done | by rewrite last_cons_cons in Hlast].
  - rewrite terminatedLines_CRLF, split_lines_CRLF, IH; [done |].
    destruct s; [done | by rewrite !last_cons_cons in Hlast].
  - unfold terminatedLines. cbn [app].
    rewrite split_lines_more; [| done | intros [-> _]; by apply Hlast].
    by rewrite split_lines_LF, split_lines_one.
  - rewrite terminatedLines_more, split_lines_more by done.
    rewrite IH; [done |]. by rewrite last_cons_cons in Hlast.
Qed.

(** The last code unit of a text is the last code unit of its last line,
    unless it is a line feed. *)
Lemma split_lines_last (s : jsstring) (x : N) :
  last s = Some x -> x <> LF ->
  exists l, last (split_lines s) = Some l /\ last l = Some x.
Proof.
  induction s as [| s IH | s IH | c Hc | c d s Hc Hcd IH]
    using split_lines_cases; intros Hlast Hx.
  - done.
  - destruct s as [|y s]; [by injection Hlast as <- |].
    rewrite last_cons_cons in Hlast. destruct (IH Hlast Hx) as (l & Hl & Hlx).
    exists l. split; [| done]. rewrite split_lines_LF.
    pose proof (split_lines_nonempty (y :: s)).
    by destruct (split_lines (y :: s)).
  - destruct s as [|y s]; [by injection Hlast as <- |].
    rewrite !last_cons_cons in Hlast.
    destruct (IH Hlast Hx) as (l & Hl & Hlx).
    exists l. split; [| done]. rewrite split_lines_CRLF.
    pose proof (split_lines_nonempty (y :: s)).
    by destruct (split_lines (y :: s)).
  - exists [c]. by rewrite split_lines_one.
  - rewrite last_cons_cons in Hlast. destruct (IH Hlast Hx) as (l & Hl & Hlx).
    rewrite split_lines_more by done.
    destruct (split_lines (d :: s)) as [|l0 [|l1 r]]; [done | |].
    + injection Hl as ->. exists (c :: l). split; [done |].
      destruct l; [done | by rewrite last_cons_cons].
    + exists l. split; [| done]. by rewrite last_cons_cons in Hl.
Qed.

Lemma last_In {A} (l : list A) (x : A) : last l = Some x -> In x l.
Proof.
  intros H. apply last_Some in H as [l' ->].
  apply in_app_iff. right. by left.
Qed.

Lemma lines_without_CR_end (s : jsstring) :
  (forall l, In l (split_lines s) -> last l <> Some CR) ->
  last s <> Some CR.
Proof.
  intros Hlines Hlast.
  destruct (split_lines_last s CR Hlast) as (l & Hl & Hcr); [done |].
  by apply (Hlines l (last_In _ _ Hl)).
Qed.

(** A line that ends with a line feed, then the rest. *)
Lemma split_lines_line (l rest : jsstring) :
  ~ In LF l -> last l <> Some CR ->
  split_lines (l ++ LF :: rest) = l :: split_lines rest.
Proof.
  intros Hno Hlast.
  replace (l ++ LF :: rest) with ((l ++ [LF]) ++ rest)
    by (by rewrite <- app_assoc).
  rewrite split_lines_after_terminated, terminatedLines_plain by done.
  by rewrite split_lines_single.
Qed.

(** Joining lines and splitting again gives the lines back. *)
Lemma split_join_lines (ls : list jsstring) :
  ls <> [] ->
  (forall l, In l ls -> ~ In LF l) ->
  (forall l, In l (removelast ls) -> last l <> Some CR) ->
  split_lines (join_lines ls) = ls.
Proof.
  induction ls as [|l ls IH]; [done |]. intros _ Hno Hcr.
  destruct ls as [|l' r].
  - simpl. apply split_lines_single. apply Hno. by left.
  - change (join_lines (l :: l' :: r)) with (l ++ LF :: join_lines (l' :: r)).
    rewrite split_lines_line.
    + rewrite IH; [done | done | |].
      * intros l0 Hin. apply Hno. by right.
      * intros l0 Hin. apply Hcr.
        change (removelast (l :: l' :: r)) with (l :: removelast (l' :: r)).
        by right.
    + apply Hno. by left.
    + apply Hcr. by left.
Qed.

(** ** [trim] *)

Lemma trimStart_length (s : jsstring) :
  (length (trimStart s) <= length s)%nat.
Proof.
  induction s as [|c s IH]; simpl; [done |].
  destruct (isWhiteSpace c); simpl; lia.
Qed.

Lemma trimStart_keeps_all (s : jsstring) :
  length (trimStart s) = length s -> trimStart s = s.
Proof.
  destruct s as [|c s]; simpl; [done |].
  destruct (isWhiteSpace c); [| done].
  pose proof (trimStart_length s). lia.
Qed.

(** A trimmed text does not end with a carriage return. *)
Lemma trimmed_no_CR_end (p : jsstring) : trim p = p -> last p <> Some CR.
Proof.
  intros Htrim Hlast. unfold trim in Htrim.
  assert (length (trimStart (rev (trimStart p))) = length p) as Hlen.
  { rewrite <- Htrim at 2. by rewrite length_rev. }
  pose proof (trimStart_length p) as H1.
  pose proof (trimStart_length (rev (trimStart p))) as H2.
  rewrite length_rev in H2.
  assert (trimStart p = p) as Hp by (apply trimStart_keeps_all; lia).
  rewrite Hp in Hlen, Htrim.
  assert (trimStart (rev p) = rev p) as Hr.
  { apply trimStart_keeps_all. rewrite length_rev. lia. }
  apply last_Some in Hlast as [p' ->].
  rewrite rev_app_distr in Hr. simpl in Hr.
  pose proof (trimStart_length (rev p')) as H3.
  apply (f_equal length) in Hr. simpl in Hr. lia.
Qed.

Lemma lineMatches_self (p : jsstring) : trim p = p -> lineMatches p p = true.
Proof.
  intros Htrim. unfold lineMatches. by rewrite Htrim, js_eqb_refl.
Qed.

Lemma lineMatches_empty (p : jsstring) : p <> [] -> lineMatches p [] = false.
Proof.
  intros Hp. unfold lineMatches.
  change (trim []) with ([] : jsstring).
  apply orb_false_iff. split; apply js_eqb_false; [done |].
  by destruct p.
Qed.

Lemma filter_keeps_all {A} (f : A -> bool) (l : list A) :
  (forall x, In x l -> f x = true) -> List.filter f l = l.
Proof.
  induction l as [|x l IH]; intros H; simpl; [done |].
  rewrite (H x) by (by left). rewrite IH; [done |].
  intros y Hy. apply H. by right.
Qed.

(** ** The text written by add-then-remove *)

Lemma roundtrip_lines (content p : jsstring) :
  p <> [] -> trim p = p -> ~ In LF p ->
  (forall line, In line (split_lines content) ->
     lineMatches p line = false /\ last line <> Some CR) ->
  split_lines (afterRemove (afterAdd content p) p)
  = split_lines content ++ addedTerminator content.
Proof.
  intros Hp Htrim HnoLF Hlines.
  pose proof (trimmed_no_CR_end p Htrim) as HpCR.
  assert (split_lines (p ++ [LF]) = [p; []]) as Hpline.
  { by rewrite split_lines_line. }
  assert (forall ls,
            (forall l, In l ls -> In l (split_lines content)) ->
            List.filter (fun line => negb (lineMatches p line))
              (ls ++ [p; []])
            = ls ++ [[]]) as Hfilter.
  { intros ls Hsub. rewrite List.filter_app. simpl.
    rewrite (lineMatches_self p Htrim), (lineMatches_empty p Hp). simpl.
    rewrite filter_keeps_all; [done |].
    intros l Hl. by rewrite (proj1 (Hlines l (Hsub l Hl))). }
  unfold afterRemove, afterAdd, addedTerminator.
  destruct content as [|c0 content0] eqn:Hcontent.
  { (* the file was empty *)
    change (0 <? js_length []) with false. cbn [andb app].
    rewrite Hpline.
    change [p; []] with ([] ++ [p; ([] : jsstring)]).
    rewrite (Hfilter []) by (by intros l []). done. }
  rewrite <- Hcontent in *.
  assert ((0 <? js_length content) = true) as Hpos.
  { apply Z.ltb_lt. unfold js_length. rewrite Hcontent. simpl. lia. }
  rewrite Hpos. cbn [andb].
  destruct (endsWithLF content) eqn:Hends; cbn [negb].
  - (* the file ended with a line feed *)
    unfold endsWithLF in Hends.
    destruct (last content) as [x|] eqn:Hlast; [| done].
    apply N.eqb_eq in Hends. subst x.
    apply last_Some in Hlast as [d Hd].
    destruct (terminatedLines_spec d) as [Hne Hsplit].
    rewrite Hd in *. rewrite split_lines_after_terminated, Hpline.
    rewrite Hsplit in *.
    rewrite Hfilter.
    + rewrite app_nil_r. apply split_join_lines.
      * by destruct (terminatedLines d).
      * intros l Hl. rewrite <- Hsplit in Hl.
        by apply (split_lines_no_LF _ _ Hl).
      * intros l Hl. rewrite removelast_last in Hl.
        apply Hlines. apply in_app_iff. by left.
    + intros l Hl. apply in_app_iff. by left.
  - (* the file lacked its final line feed *)
    assert (last content <> Some CR) as Hcr.
    { apply lines_without_CR_end. intros l Hl. by apply Hlines. }
    rewrite split_lines_after_terminated, Hpline.
    rewrite terminatedLines_plain by done.
    rewrite Hfilter by done.
    apply split_join_lines.
    + by destruct (split_lines content).
    + intros l [Hl | [<- | []]]%in_app_iff; [| by intros []].
      by apply (split_lines_no_LF _ _ Hl).
    + intros l Hl. rewrite removelast_last in Hl. by apply Hlines.
Qed.

(* ===================================================================== *)
(** * 19. Adding a path to the ignore file and removing it again          *)
(* ===================================================================== *)

Lemma addToGitignore_existing (w : World) (folder p : jsstring)
    (instance : RepoInstance) (content : jsstring) (mode : N) :
  map_get folder (repos w) = Some instance ->
  fs w !! gitignorePathOf instance = Some (File content mode) ->
  addToGitignore folder p w
  = (Ok tt,
     set_fs (<[gitignorePathOf instance := File (afterAdd content p) mode]>
               (fs w)) w).
Proof.
  intros Hrepo Hfile. unfold addToGitignore.
  rewrite (bind_ok _ _ _ _ _ (requireRepo_present _ _ _ Hrepo)).
  assert (existsSync (gitignorePathOf instance) w = (Ok true, w)) as Hex.
  { unfold existsSync, gets. rewrite Hfile.
    by rewrite bool_decide_eq_true_2. }
  rewrite (bind_ok _ _ _ _ _ Hex).
  assert (readFileSync (gitignorePathOf instance) w = (Ok content, w))
    as Hread.
  { unfold readFileSync. by rewrite Hfile. }
  unfold bind at 1. unfold bind at 1. rewrite Hread.
  unfold afterAdd, writeFileSync.
  destruct ((0 <? js_length content) && negb (endsWithLF content));
    unfold ret; by rewrite Hfile.
Qed.

Lemma removeFromGitignore_existing (w : World) (folder p : jsstring)
    (instance : RepoInstance) (content : jsstring) (mode : N) :
  map_get folder (repos w) = Some instance ->
  fs w !! gitignorePathOf instance = Some (File content mode) ->
  removeFromGitignore folder p w
  = (Ok tt,
     set_fs (<[gitignorePathOf instance := File (afterRemove content p) mode]>
               (fs w)) w).
Proof.
  intros Hrepo Hfile. unfold removeFromGitignore.
  rewrite (bind_ok _ _ _ _ _ (requireRepo_present _ _ _ Hrepo)).
  assert (existsSync (gitignorePathOf instance) w = (Ok true, w)) as Hex.
  { unfold existsSync, gets. rewrite Hfile.
    by rewrite bool_decide_eq_true_2. }
  rewrite (bind_ok _ _ _ _ _ Hex). cbn [negb].
  assert (readFileSync (gitignorePathOf instance) w = (Ok content, w))
    as Hread.
  { unfold readFileSync. by rewrite Hfile. }
  rewrite (bind_ok _ _ _ _ _ Hread).
  unfold afterRemove, writeFileSync. by rewrite Hfile.
Qed.

(** C7, as the code has it.  Let the ignore file of a registered repository
    exist, let none of its lines (the pieces of [content.split(/\r?\n/)])
    match [p] (trimmed text equal to [p] or to [p] followed by a slash) or
    end with a carriage return, and let [p] be non-empty, without line feed
    and without white space at either end.  Then [addToGitignore p] followed
    by [removeFromGitignore p] succeeds and leaves the sequence of lines of
    the file, hence its set of lines, as it was, apart from one empty last
    line that appears when the content was non-empty and did not end with a
    line feed; no other file changes. *)
Theorem ignore_roundtrip_keeps_lines (w : World) (folder : jsstring)
    (instance : RepoInstance) (content p : jsstring) (mode : N) :
  map_get folder (repos w) = Some instance ->
  fs w !! gitignorePathOf instance = Some (File content mode) ->
  p <> [] -> trim p = p -> ~ In LF p ->
  (forall line, In line (split_lines content) ->
     lineMatches p line = false /\ last line <> Some CR) ->
  exists w',
    addThenRemove folder p w = (Ok tt, w')
    /\ linesAt w' (gitignorePathOf instance)
       = Some (split_lines content
                 ++ (if (0 <? js_length content) && negb (endsWithLF content)
                     then [[]] else []))
    /\ (forall q, q <> gitignorePathOf instance -> fs w' !! q = fs w !! q).
Proof.
  intros Hrepo Hfile Hp Htrim HnoLF Hlines.
  pose proof (addToGitignore_existing w folder p instance content mode
                Hrepo Hfile) as Hadd.
  set (w1 := set_fs _ w) in Hadd.
  assert (map_get folder (repos w1) = Some instance) as Hrepo1 by done.
  assert (fs w1 !! gitignorePathOf instance
          = Some (File (afterAdd content p) mode)) as Hfile1.
  { unfold w1. simpl. by rewrite lookup_insert_eq. }
  pose proof (removeFromGitignore_existing w1 folder p instance
                (afterAdd content p) mode Hrepo1 Hfile1) as Hrem.
  eexists. split.
  - unfold addThenRemove. rewrite (bind_ok _ _ _ _ _ Hadd). exact Hrem.
  - split.
    + unfold linesAt. simpl. rewrite lookup_insert_eq.
      f_equal. by apply roundtrip_lines.
    + intros q Hq. simpl. by rewrite !lookup_insert_ne.
Qed.

(* ===================================================================== *)
(** * 20. Concrete runs                                                   *)
(* ===================================================================== *)

(** The scenario of the specification: folder "notes", one modified
    tracked file and one new untracked file. *)
Lemma getStatus_classification_witness :
  exists r,
    fst (getStatus (str "notes")
           (notesWorld notesInstance [] ∅ (constOracle true notesStatus [])
              [] []))
    = Ok r
    /\ untracked r = [str "notes/todo.md"]
    /\ conflicted r = []
    /\ staged r = []
    /\ map (fun e => (relPath e, displayStatus e)) (changed r)
       = [(str "todo-old.md", Modified)].
Proof.
  destruct (getStatus_classification
              (notesWorld notesInstance [] ∅ (constOracle true notesStatus [])
                 [] [])
              (str "notes") notesInstance notesStatus eq_refl eq_refl)
    as [(r & Hr & Hu & Hc & Hs & Hch) _].
  exists r. rewrite Hr, Hu, Hc, Hs, Hch. repeat split.
Defined.

(** The ignore query on a folder nobody registered answers false; it does
    not throw. *)
Lemma checkExplicitlyIgnored_unregistered_answers :
  map_get (str "ghost") (repos (ignoreWorld [])) = None
  /\ runOp (OpCheckExplicitlyIgnored (str "x/y")) (str "ghost")
       (ignoreWorld [])
     = (Ok (VBool false), ignoreWorld [])
  /\ ~ (exists e,
          fst (runOp (OpCheckExplicitlyIgnored (str "x/y")) (str "ghost")
                 (ignoreWorld []))
          = Throw e).
Proof.
  split; [reflexivity |]. split; [reflexivity |].
  intros [e He]. discriminate He.
Qed.

Lemma unregistered_folder_operations_witness :
  runOp (OpStage [str "a.md"]) (str "ghost") (ignoreWorld [])
  = (Throw (noRepoFor (str "ghost")), ignoreWorld []).
Proof.
  apply (unregistered_folder_operations (ignoreWorld []) (str "ghost")
           (OpStage [str "a.md"])).
  reflexivity.
Defined.

Lemma autoCommit_nothing_to_commit_witness :
  fst (autoCommit (str "notes") timedWorld) = Ok tt
  /\ gitTrace (snd (autoCommit (str "notes") timedWorld))
     = [{| onHandle := sampleHandle (str "/vault/notes");
           command := Status |}]
  /\ fire (Handle 0%nat) timedWorld = autoCommit (str "notes") timedWorld.
Proof.
  destruct (autoCommit_nothing_to_commit timedWorld (str "notes")
              (sampleInstance (str "notes") (Some (Handle 0%nat)))
              cleanStatus eq_refl eq_refl eq_refl) as [Hauto Hfire].
  rewrite Hauto. split; [reflexivity |]. split; [reflexivity |].
  apply (Hfire 0%nat
           {| callbackFolder := str "notes"; delayMs := 60000;
              active := true |}); reflexivity.
Defined.

(** A token is configured and the remote "origin" is an SSH remote. *)
Lemma configureCredentials_skips_witness :
  exists w',
    configureCredentials (str "notes")
      (notesWorld notesInstance [] ∅ (constOracle true cleanStatus [sshRemote])
         (str "ghp_token") (str "user"))
    = (Ok tt, w')
    /\ fs w' = ∅.
Proof.
  destruct (configureCredentials_skips
              (notesWorld notesInstance [] ∅
                 (constOracle true cleanStatus [sshRemote])
                 (str "ghp_token") (str "user"))
              (str "notes")) as (w' & Hrun & Hfs & _).
  - right. right. right. exists notesInstance, [sshRemote].
    split; [reflexivity |]. split; [reflexivity |]. vm_compute. reflexivity.
  - exists w'. split; [exact Hrun | exact Hfs].
Defined.


(** The path is already listed: the round trip removes the line that was
    there before the add. *)
Lemma ignore_roundtrip_drops_listed_path :
  linesAt (ignoreWorld (str "x/y" ++ [LF])) (str "/vault/notes/.gitignore")
  = Some [str "x/y"; []]
  /\ fst (addThenRemove (str "notes") (str "x/y")
            (ignoreWorld (str "x/y" ++ [LF])))
     = Ok tt
  /\ linesAt
       (snd (addThenRemove (str "notes") (str "x/y")
               (ignoreWorld (str "x/y" ++ [LF]))))
       (str "/vault/notes/.gitignore")
     = Some [[]]
  /\ ~ (forall line, In line [str "x/y"; []] <-> In line [[]]).
Proof.
  split; [by vm_compute |]. split; [by vm_compute |].
  split; [by vm_compute |].
  intros H. destruct (proj1 (H (str "x/y")) (or_introl eq_refl)) as [E | []].
  discriminate E.
Qed.

Lemma ignore_roundtrip_keeps_lines_witness :
  exists w',
    addThenRemove (str "notes") (str "x/y") (ignoreWorld (str "a" ++ [LF]))
    = (Ok tt, w')
    /\ linesAt w' (str "/vault/notes/.gitignore") = Some [str "a"; []].
Proof.
  destruct (ignore_roundtrip_keeps_lines (ignoreWorld (str "a" ++ [LF]))
              (str "notes") notesInstance (str "a" ++ [LF]) (str "x/y")
              defaultMode) as (w' & Hrun & Hlines & _).
  - reflexivity.
  - by vm_compute.
  - discriminate.
  - reflexivity.
  - vm_compute. intros [E | [E | [E | []]]]; discriminate E.
  - intros line Hin. vm_compute in Hin.
    destruct Hin as [<- | [<- | []]]; split; vm_compute;
      first [reflexivity | discriminate].
  - exists w'. split; [exact Hrun | exact Hlines].
Defined.

Lemma addRepo_leaves_previous_timer_running_witness :
  exists w1,
    addRepo (sampleConfig (str "notes") 5) timedWorld = (Ok tt, w1)
    /\ timerRunning w1 0
    /\ timerRunning (snd (removeRepo (str "notes") w1)) 0
    /\ timerRunning (snd (destroy w1)) 0
    /\ timers (snd (destroy w1)) !! 0%nat
       = Some {| callbackFolder := str "notes"; delayMs := 60000;
                 active := true |}
    /\ exists evs,
         gitTrace (snd (fire (Handle 0%nat) w1))
         = gitTrace w1
             ++ {| onHandle := sampleHandle (str "/vault/notes");
                   command := Status |} :: evs.
Proof.
  destruct (addRepo_leaves_previous_timer_running timedWorld
              (sampleConfig (str "notes") 5)
              (sampleInstance (str "notes") (Some (Handle 0%nat))) 0%nat)
    as (w1 & new & slot & Hrun & _ & _ & Hhandle & _ & Hslots & H1 & H2 & H3
        & _ & Hcycle & _).
  - split; [apply NoDup_singleton |]. split.
    + intros k1 k2 i1 i2 h [[= <- <-] | []] [[= <- <-] | []] _ _.
      reflexivity.
    + intros k inst i [[= <- <-] | []] [= <-].
      eexists. repeat split; reflexivity.
  - reflexivity.
  - reflexivity.
  - by vm_compute.
  - reflexivity.
  - destruct Hslots as (Hslot & _ & _ & _ & _ & Hdestroy).
    injection Hslot as <-.
    destruct Hcycle as (evs & Htrace & _). rewrite Hhandle in Htrace.
    exists w1. split; [exact Hrun |].
    split; [exact H1 |]. split; [exact H2 |]. split; [exact H3 |].
    split; [exact Hdestroy |]. exists evs. exact Htrace.
Defined.

Lemma autoCommit_replaces_first_date_only_witness :
  autoCommitMessage (str "{{date}} / {{date}}")
    (str "2024-01-01T00:00:00.000Z")
  = str "2024-01-01T00:00:00.000Z / {{date}}".
Proof.
  apply (autoCommit_replaces_first_date_only
           (notesWorld twoDatesInstance [] ∅
              (constOracle true notesStatus []) [] [])
           (str "notes") twoDatesInstance notesStatus [] (str " / {{date}}")).
  - reflexivity.
  - reflexivity.
  - intros x y _. simpl. lia.
  - reflexivity.
Defined.

Lemma push_defaults_to_main_witness :
  gitTrace
    (snd (push (str "notes")
            (notesWorld notesInstance [] ∅
               (constOracle true noBranchStatus []) [] [])))
  = [{| onHandle := sampleHandle (str "/vault/notes"); command := Status |};
     {| onHandle := sampleHandle (str "/vault/notes");
        command := Push [str "-u"; str "origin"; str "main"] |}].
Proof.
  pose proof (push_defaults_to_main
                (notesWorld notesInstance [] ∅
                   (constOracle true noBranchStatus []) [] [])
                (notesWorld notesInstance [] ∅
                   (constOracle true noBranchStatus []) [] [])
                (str "notes") notesInstance noBranchStatus
                eq_refl eq_refl eq_refl (or_introl eq_refl)) as H.
  cbv zeta in H. destruct H as [H _].
  rewrite (H (or_introl eq_refl)). reflexivity.
Defined.

(** On a detached HEAD the status has no upstream and names the current
    branch "HEAD": [push] asks to push HEAD with set-upstream, and issues no
    push of main. *)
Lemma push_on_detached_HEAD_names_HEAD :
  map_get (str "notes") (repos detachedWorld) = Some notesInstance
  /\ answerStatus (git detachedWorld)
       [{| onHandle := sampleHandle (str "/vault/notes"); command := Status |}]
     = Ok detachedStatus
  /\ tracking detachedStatus = None
  /\ gitTrace (snd (push (str "notes") detachedWorld))
     = [{| onHandle := sampleHandle (str "/vault/notes"); command := Status |};
        {| onHandle := sampleHandle (str "/vault/notes");
           command := Push [str "-u"; str "origin"; str "HEAD"] |}]
  /\ ~ In {| onHandle := sampleHandle (str "/vault/notes");
             command := Push [str "-u"; str "origin"; str "main"] |}
         (gitTrace (snd (push (str "notes") detachedWorld))).
Proof.
  split; [reflexivity |]. split; [reflexivity |]. split; [reflexivity |].
  split; [by vm_compute |].
  intros H. vm_compute in H. destruct H as [E | [E | []]]; discriminate E.
Qed.

(* ===================================================================== *)
(** * 21. Life cycle of the registry                                      *)
(* ===================================================================== *)

(** ** Loops *)

(** A loop whose body always returns establishes, for every element, what
    the body establishes for it, provided later iterations keep it. *)
Lemma forEach_each {A} (f : A -> M unit) (P : A -> World -> Prop) :
  (forall a w, exists w1, f a w = (Ok tt, w1) /\ P a w1) ->
  (forall a b w w1, P a w -> f b w = (Ok tt, w1) -> P a w1) ->
  forall l w,
    exists w', forEach f l w = (Ok tt, w') /\ forall a, In a l -> P a w'.
Proof.
  intros Hbody Hkeep. induction l as [|x l IH]; intros w.
  - exists w. split; [done | by intros a []].
  - destruct (Hbody x w) as (w1 & Hx & HP).
    destruct (IH w1) as (w' & Hrest & Hall).
    exists w'. split.
    + simpl. by rewrite (bind_ok _ _ _ _ _ Hx).
    + intros a [<- | Hin]; [| by apply Hall].
      clear Hall IH Hx. revert w1 w' HP Hrest.
      induction l as [|y l IHl]; intros w1 w' HP Hrest.
      * by injection Hrest as <-.
      * simpl in Hrest. destruct (Hbody y w1) as (w2 & Hy & _).
        rewrite (bind_ok _ _ _ _ _ Hy) in Hrest.
        apply (IHl w2 w'); [| exact Hrest].
        by apply (Hkeep x y w1 w2).
Qed.

(** A property of the world that every iteration keeps is kept by the
    loop. *)
Lemma forEach_keeps {A} (f : A -> M unit) (Q : World -> Prop) :
  (forall a w, Q w -> Q (snd (f a w))) ->
  forall l w, Q w -> Q (snd (forEach f l w)).
Proof.
  intros Hkeep. induction l as [|x l IH]; intros w HQ; [done |].
  simpl. unfold bind. specialize (Hkeep x w HQ).
  destruct (f x w) as [[[] | e] w1]; simpl in *; [by apply IH | done].
Qed.

(** ** Map facts *)

Lemma map_get_delete_eq {V} (k : jsstring) (m : JsMap V) :
  map_get k (map_delete k m) = None.
Proof.
  induction m as [|[k' v'] m IH]; simpl; [done |].
  destruct (js_eqb k' k) eqn:E; [done |]. simpl. by rewrite E.
Qed.

Lemma map_get_delete_ne {V} (k k' : jsstring) (m : JsMap V) :
  k <> k' -> map_get k' (map_delete k m) = map_get k' m.
Proof.
  intros Hne. induction m as [|[k0 v0] m IH]; simpl; [done |].
  destruct (js_eqb k0 k) eqn:E.
  - apply js_eqb_true in E. subst k0.
    apply js_eqb_false in Hne. by rewrite Hne.
  - simpl. by rewrite IH.
Qed.

Lemma map_set_keys_present {V} (k : jsstring) (v v0 : V) (m : JsMap V) :
  map_get k m = Some v0 -> map_keys (map_set k v m) = map_keys m.
Proof.
  induction m as [|[k' v'] m IH]; simpl; [done |].
  destruct (js_eqb k' k) eqn:E.
  - apply js_eqb_true in E. by subst k'.
  - intros H. simpl. by rewrite (IH H).
Qed.

Lemma map_set_absent {V} (k : jsstring) (v : V) (m : JsMap V) :
  map_get k m = None -> map_set k v m = m ++ [(k, v)].
Proof.
  induction m as [|[k' v'] m IH]; simpl; [done |].
  destruct (js_eqb k' k) eqn:E; [done |]. intros H. by rewrite (IH H).
Qed.

Lemma map_delete_appended {V} (k : jsstring) (v : V) (m : JsMap V) :
  map_get k m = None -> map_delete k (m ++ [(k, v)]) = m.
Proof.
  induction m as [|[k' v'] m IH]; simpl.
  - by rewrite js_eqb_refl.
  - destruct (js_eqb k' k) eqn:E; [done |]. intros H. by rewrite (IH H).
Qed.

(** ** What [addRepo] leaves alone *)

Lemma addRepo_host (w : World) (cfg : FolderRepoConfig) :
  notices (snd (addRepo cfg w)) = notices w
  /\ consoleErrors (snd (addRepo cfg w)) = consoleErrors w
  /\ fs (snd (addRepo cfg w)) = fs w
  /\ vaultBasePath (snd (addRepo cfg w)) = vaultBasePath w.
Proof.
  unfold addRepo, bind, gets, simpleGit, gitCall.
  destruct (factoryOutcome w _) as [[] | e0]; [| done].
  destruct (answerCheckIsRepo _ _) as [[|] | e]; simpl; [| done | done].
  by destruct (0 <? autoCommitInterval cfg).
Qed.

Lemma addRepo_outcome (w : World) (cfg : FolderRepoConfig) :
  (fst (addRepo cfg w) = Ok tt
   /\ is_Some (map_get (folderPath cfg) (repos (snd (addRepo cfg w)))))
  \/ (exists e, fst (addRepo cfg w) = Throw e
                /\ repos (snd (addRepo cfg w)) = repos w).
Proof.
  destruct (factoryOutcome w
              (handleFor w (resolveAbsolutePath w (folderPath cfg))))
    as [[] | e0] eqn:Hdir;
    [| right; rewrite (addRepo_refused w cfg e0 Hdir); by eexists].
  destruct (answerCheckIsRepo (git w)
              (gitTrace w
                 ++ [{| onHandle :=
                          {| baseDir :=
                               Some (resolveAbsolutePath w (folderPath cfg));
                             binary := gitBinary w;
                             handleConfig := [str "core.quotepath=off"] |};
                        command := CheckIsRepo |}])) as [[|] | e] eqn:Hans.
  - left. destruct (addRepo_accepted_summary w cfg Hdir Hans)
      as (w1 & new & started & Heq & Hrepos & _).
    rewrite Heq. split; [done |]. simpl. rewrite Hrepos, map_get_set_eq.
    by eexists.
  - right. rewrite (addRepo_rejected w cfg Hdir Hans). by eexists.
  - right. exists e. by rewrite (addRepo_check_failed w cfg e Hdir Hans).
Qed.

Lemma addRepo_keeps_registered (w : World) (cfg : FolderRepoConfig)
    (k : jsstring) :
  is_Some (map_get k (repos w)) ->
  is_Some (map_get k (repos (snd (addRepo cfg w)))).
Proof.
  intros Hk.
  destruct (addRepo_effect w cfg)
    as [[-> _] | (new & started & -> & _)]; [done |].
  destruct (decide (folderPath cfg = k)) as [<- | Hne].
  - rewrite map_get_set_eq. by eexists.
  - by rewrite map_get_set_ne.
Qed.

(** One iteration of the loop of [initialize]. *)
Lemma initialize_step (w : World) (cfg : FolderRepoConfig) :
  exists w1,
    tryCatch (addRepo cfg)
      (fun e =>
         consoleError
           (str "Folder Git: Failed to init repo for " ++ folderPath cfg
              ++ str ":") e ;;;
         notice
           (str "Folder Git: Failed to initialize repo for "
              ++ quoted (folderPath cfg))) w
    = (Ok tt, w1)
    /\ (is_Some (map_get (folderPath cfg) (repos w1))
        \/ In (initFailureNotice cfg) (notices w1))
    /\ (forall k, is_Some (map_get k (repos w)) ->
                  is_Some (map_get k (repos w1)))
    /\ (forall n, In n (notices w) -> In n (notices w1)).
Proof.
  unfold tryCatch.
  pose proof (addRepo_outcome w cfg) as Hout.
  pose proof (addRepo_keeps_registered w cfg) as Hkeep.
  destruct (addRepo_host w cfg) as (Hnotices & _).
  destruct (addRepo cfg w) as [[[] | e] w1]; simpl in *.
  - exists w1. split; [done |].
    destruct Hout as [[_ Hreg] | (e & He & _)]; [| done].
    split; [by left |]. split; [done |]. intros n. by rewrite Hnotices.
  - eexists. split; [reflexivity |]. simpl. split; [| split].
    + right. apply in_app_iff. right. by left.
    + done.
    + intros n Hn. apply in_app_iff. left. by rewrite Hnotices.
Qed.

(** X1. [initialize] never throws, and it drops no configuration
    silently: afterwards every configured folder is registered, or the
    notice of its failure has been shown. *)
Theorem initialize_accounts_for_every_config (w : World) :
  exists w',
    initialize w = (Ok tt, w')
    /\ forall cfg,
         In cfg (settingsRepos (settings w)) ->
         is_Some (map_get (folderPath cfg) (repos w'))
         \/ In (initFailureNotice cfg) (notices w').
Proof.
  unfold initialize. unfold bind at 1. unfold gets.
  apply (forEach_each _
           (fun cfg w1 =>
              is_Some (map_get (folderPath cfg) (repos w1))
              \/ In (initFailureNotice cfg) (notices w1))).
  - intros cfg w0. destruct (initialize_step w0 cfg) as (w1 & Hrun & HP & _).
    by exists w1.
  - intros a b w0 w1 HP Hrun.
    destruct (initialize_step w0 b) as (w1' & Hrun' & _ & Hreg & Hnot).
    rewrite Hrun in Hrun'. injection Hrun' as <-.
    destruct HP as [HP | HP]; [left; by apply Hreg | right; by apply Hnot].
Qed.

(** ** Clearing timers *)

Lemma clearTimerOf_run (instance : RepoInstance) (w : World) :
  exists w1, clearTimerOf instance w = (Ok tt, w1).
Proof.
  unfold clearTimerOf. destruct (autoCommitTimer instance) as [[j]|];
    by eexists.
Qed.

Lemma clearTimerOf_clears (instance : RepoInstance) (w : World) (i : nat) :
  autoCommitTimer instance = Some (Handle i) ->
  timerCleared (snd (clearTimerOf instance w)) i.
Proof.
  intros Hheld slot. unfold clearTimerOf. rewrite Hheld. simpl.
  rewrite list_lookup_alter_eq. destruct (timers w !! i); [| done].
  simpl. by intros [= <-].
Qed.

Lemma clearTimerOf_keeps_cleared (instance : RepoInstance) (w : World)
    (i : nat) :
  timerCleared w i -> timerCleared (snd (clearTimerOf instance w)) i.
Proof.
  intros Hcleared slot. unfold clearTimerOf.
  destruct (autoCommitTimer instance) as [[j]|]; [| by apply Hcleared].
  simpl. destruct (decide (j = i)) as [-> | Hne].
  - rewrite list_lookup_alter_eq. destruct (timers w !! i); [| done].
    simpl. by intros [= <-].
  - rewrite list_lookup_alter_ne by done. by apply Hcleared.
Qed.

Lemma clearTimerOf_length (instance : RepoInstance) (w : World) :
  length (timers (snd (clearTimerOf instance w))) = length (timers w).
Proof.
  unfold clearTimerOf. destruct (autoCommitTimer instance) as [[j]|];
    [| done].
  simpl. by rewrite length_alter.
Qed.

(** X2. [destroy] never throws; it empties the map, clears the timer of
    every instance that was registered, and makes no timer. *)
Theorem destroy_clears_every_registered_timer (w : World) :
  exists w',
    destroy w = (Ok tt, w')
    /\ repos w' = []
    /\ length (timers w') = length (timers w)
    /\ forall k inst i,
         In (k, inst) (repos w) ->
         autoCommitTimer inst = Some (Handle i) ->
         timerCleared w' i /\ ~ timerRunning w' i.
Proof.
  destruct (forEach_each (fun entry : jsstring * RepoInstance =>
                            clearTimerOf (snd entry))
              (fun entry w1 =>
                 forall i, autoCommitTimer (snd entry) = Some (Handle i) ->
                           timerCleared w1 i))
    with (l := repos w) (w := w) as (w1 & Hloop & Hall).
  - intros [k inst] w0. destruct (clearTimerOf_run inst w0) as (w1 & Hrun).
    exists w1. split; [done |]. intros i Hheld.
    pose proof (clearTimerOf_clears inst w0 i Hheld) as H.
    simpl in *. by rewrite Hrun in H.
  - intros a [k inst] w0 w1 HP Hrun i Hheld.
    pose proof (clearTimerOf_keeps_cleared inst w0 i (HP i Hheld)) as H.
    simpl in *. by rewrite Hrun in H.
  - pose proof (forEach_keeps
                  (fun entry : jsstring * RepoInstance =>
                     clearTimerOf (snd entry))
                  (fun w1 => length (timers w1) = length (timers w))
                  (fun a w0 H0 =>
                     eq_trans (clearTimerOf_length (snd a) w0) H0)
                  (repos w) w eq_refl) as Hlen.
    rewrite Hloop in Hlen. simpl in Hlen.
    exists (set_repos [] w1). split.
    + unfold destroy. unfold bind at 1. unfold gets.
      by rewrite (bind_ok _ _ _ _ _ Hloop).
    + split; [done |]. split; [done |].
      intros k inst i Hin Hheld.
      pose proof (Hall (k, inst) Hin i Hheld) as Hcl.
      split; [done |]. intros (slot & Hslot & Hact).
      specialize (Hcl slot Hslot). congruence.
Qed.

(** X3. [removeRepo] never throws; afterwards the folder is not
    registered, every other folder resolves as before, and the timer of the
    removed instance is cleared; in a well-formed registry the timers of the
    other instances keep running. *)
Theorem removeRepo_unregisters_and_stops (w : World) (folder : jsstring) :
  exists w',
    removeRepo folder w = (Ok tt, w')
    /\ map_get folder (repos w') = None
    /\ (forall k, k <> folder -> map_get k (repos w') = map_get k (repos w))
    /\ (forall inst i,
          map_get folder (repos w) = Some inst ->
          autoCommitTimer inst = Some (Handle i) ->
          ~ timerRunning w' i)
    /\ (wfRegistry w ->
        forall k inst i,
          k <> folder -> map_get k (repos w) = Some inst ->
          autoCommitTimer inst = Some (Handle i) ->
          timerRunning w' i).
Proof.
  destruct (removeRepo_effect w folder) as [Hrepos Htimers].
  assert (fst (removeRepo folder w) = Ok tt) as Hok.
  { unfold removeRepo, bind, getRepo, gets.
    destruct (map_get folder (repos w)) as [inst|]; [| done].
    destruct (clearTimerOf_run inst w) as (w1 & ->). done. }
  destruct (removeRepo folder w) as [r w'] eqn:Hrun. simpl in *. subst r.
  exists w'. split; [done |]. rewrite Hrepos.
  split; [apply map_get_delete_eq |].
  split; [intros k Hk; by apply map_get_delete_ne |]. split.
  - intros inst i Hget Hheld (slot & Hslot & Hact).
    rewrite Htimers, Hget in Hslot.
    pose proof (clearTimerOf_clears inst w i Hheld slot Hslot). congruence.
  - intros (Hnd & Hdistinct & Hslots) k inst i Hk Hget Hheld.
    pose proof (map_get_In _ _ _ Hget) as Hin.
    destruct (Hslots _ _ _ Hin Hheld) as (slot & Hslot & Hact & _).
    exists slot. split; [| done]. rewrite Htimers.
    destruct (map_get folder (repos w)) as [removed|] eqn:Hrem; [| done].
    rewrite clearTimerOf_other; [done |]. intros Hsame. apply Hk.
    apply (Hdistinct _ _ _ _ _ Hin (map_get_In _ _ _ Hrem) Hheld Hsame).
Qed.

(** X4. A successful [addRepo] (the factory makes the handle and the
    executable says the directory is a repository) keeps the order of
    [getAllPaths]: a folder that was registered stays where it was, a new
    folder goes last. *)
Theorem addRepo_keeps_order_of_paths (w : World) (cfg : FolderRepoConfig) :
  factoryOutcome w (handleFor w (resolveAbsolutePath w (folderPath cfg)))
  = Ok tt ->
  answerCheckIsRepo (git w)
    (gitTrace w
       ++ [{| onHandle :=
                {| baseDir := Some (resolveAbsolutePath w (folderPath cfg));
                   binary := gitBinary w;
                   handleConfig := [str "core.quotepath=off"] |};
              command := CheckIsRepo |}])
  = Ok true ->
  exists w1,
    addRepo cfg w = (Ok tt, w1)
    /\ fst (getAllPaths w1)
       = Ok (match map_get (folderPath cfg) (repos w) with
             | Some _ => map_keys (repos w)
             | None => map_keys (repos w) ++ [folderPath cfg]
             end).
Proof.
  intros Hdir Hans.
  destruct (addRepo_accepted_summary w cfg Hdir Hans)
    as (w1 & new & started & Heq & Hrepos & _).
  exists w1. split; [done |]. unfold getAllPaths, gets. simpl. f_equal.
  rewrite Hrepos.
  destruct (map_get (folderPath cfg) (repos w)) as [old|] eqn:Hget.
  - by apply (map_set_keys_present _ _ old).
  - rewrite (map_set_absent _ _ _ Hget). unfold map_keys.
    by rewrite map_app.
Qed.

(** X5. Adding a folder that was not registered, for which the factory
    makes the handle and whose directory is a repository, and removing it
    again gives back the map of instances as it was, and the same timers
    are running as before: the timer made for the folder is cleared. *)
Theorem addRepo_then_removeRepo_restores (w : World) (cfg : FolderRepoConfig) :
  map_get (folderPath cfg) (repos w) = None ->
  factoryOutcome w (handleFor w (resolveAbsolutePath w (folderPath cfg)))
  = Ok tt ->
  answerCheckIsRepo (git w)
    (gitTrace w
       ++ [{| onHandle :=
                {| baseDir := Some (resolveAbsolutePath w (folderPath cfg));
                   binary := gitBinary w;
                   handleConfig := [str "core.quotepath=off"] |};
              command := CheckIsRepo |}])
  = Ok true ->
  exists w1 w2,
    addRepo cfg w = (Ok tt, w1)
    /\ removeRepo (folderPath cfg) w1 = (Ok tt, w2)
    /\ repos w2 = repos w
    /\ forall i, timerRunning w2 i <-> timerRunning w i.
Proof.
  intros Hfresh Hdir Hans.
  destruct (addRepo_accepted_summary w cfg Hdir Hans)
    as (w1 & new & started & Heq & Hrepos & Htimers & _ & Hcases & _).
  destruct (removeRepo_effect w1 (folderPath cfg)) as [Hrepos2 Htimers2].
  assert (map_get (folderPath cfg) (repos w1) = Some new) as Hget.
  { rewrite Hrepos. apply map_get_set_eq. }
  assert (fst (removeRepo (folderPath cfg) w1) = Ok tt) as Hok.
  { unfold removeRepo, bind, getRepo, gets. rewrite Hget.
    destruct (clearTimerOf_run new w1) as (w' & ->). done. }
  destruct (removeRepo (folderPath cfg) w1) as [r w2] eqn:Hrun.
  simpl in *. subst r. exists w1, w2. split; [done |]. split; [done |].
  split.
  - rewrite Hrepos2, Hrepos, (map_set_absent _ _ _ Hfresh).
    by apply map_delete_appended.
  - intros i. unfold timerRunning. rewrite Htimers2, Hget.
    unfold clearTimerOf.
    destruct Hcases as [(_ & -> & ->) | (_ & -> & ->)]; simpl.
    + rewrite Htimers.
      destruct (decide (i = length (timers w))) as [-> | Hne].
      * rewrite list_lookup_alter_eq, list_lookup_middle by done. simpl.
        rewrite (lookup_ge_None_2 (timers w)) by lia.
        split; intros (slot & Hslot & Hact); [| done].
        injection Hslot as <-. done.
      * rewrite list_lookup_alter_ne by done.
        destruct (decide (i < length (timers w))%nat) as [Hlt | Hge].
        -- by rewrite lookup_app_l.
        -- rewrite (lookup_ge_None_2 (timers w)) by lia.
           rewrite lookup_ge_None_2; [done |].
           rewrite length_app. simpl. lia.
    + rewrite Htimers. by rewrite app_nil_r.
Qed.

(** ** Methods that leave map and timers alone *)

Lemma keepsRegistry_ret {A} (a : A) : keepsRegistry (ret a).
Proof. by intros w. Qed.

Lemma keepsRegistry_throw {A} (e : Error) : keepsRegistry (@throw A e).
Proof. by intros w. Qed.

Lemma keepsRegistry_gets {A} (f : World -> A) : keepsRegistry (gets f).
Proof. by intros w. Qed.

Lemma keepsRegistry_gitCall {A} h c
    (answer : GitOracle -> list GitEvent -> Result A) :
  keepsRegistry (gitCall h c answer).
Proof. by intros w. Qed.

Lemma keepsRegistry_bind {A B} (m : M A) (k : A -> M B) :
  keepsRegistry m -> (forall a, keepsRegistry (k a)) ->
  keepsRegistry (bind m k).
Proof.
  intros Hm Hk w. unfold bind. destruct (Hm w) as [Hr Ht].
  destruct (m w) as [[a | e] w1]; simpl in *; [| done].
  destruct (Hk a w1) as [Hr' Ht']. by rewrite Hr', Ht'.
Qed.

Lemma keepsRegistry_tryCatch {A} (m : M A) (h : Error -> M A) :
  keepsRegistry m -> (forall e, keepsRegistry (h e)) ->
  keepsRegistry (tryCatch m h).
Proof.
  intros Hm Hh w. unfold tryCatch. destruct (Hm w) as [Hr Ht].
  destruct (m w) as [[a | e] w1]; simpl in *; [done |].
  destruct (Hh e w1) as [Hr' Ht']. by rewrite Hr', Ht'.
Qed.

Lemma keepsRegistry_writeFileSync p data mode :
  keepsRegistry (writeFileSync p data mode).
Proof. intros w. unfold writeFileSync. by destruct (fs w !! p) as [[]|]. Qed.

Lemma keepsRegistry_mkdirSync p : keepsRegistry (mkdirSync p).
Proof. intros w. unfold mkdirSync. by destruct (fs w !! p) as [[]|]. Qed.

Lemma keepsRegistry_readFileSync p : keepsRegistry (readFileSync p).
Proof. intros w. unfold readFileSync. by destruct (fs w !! p) as [[]|]. Qed.

Lemma keepsRegistry_consoleError text e : keepsRegistry (consoleError text e).
Proof. by intros w. Qed.

Lemma keepsRegistry_requireRepo folder : keepsRegistry (requireRepo folder).
Proof.
  apply keepsRegistry_bind; [apply keepsRegistry_gets |].
  intros [i|]; [apply keepsRegistry_ret | apply keepsRegistry_throw].
Qed.

Lemma keepsRegistry_configureCredentials folder :
  keepsRegistry (configureCredentials folder).
Proof.
  unfold configureCredentials.
  apply keepsRegistry_bind; [apply keepsRegistry_gets | intros token].
  apply keepsRegistry_bind; [apply keepsRegistry_gets | intros username].
  destruct (negb (truthy token) || negb (truthy username));
    [apply keepsRegistry_ret |].
  apply keepsRegistry_bind; [apply keepsRegistry_gets | intros [instance|]];
    [| apply keepsRegistry_ret].
  apply keepsRegistry_bind; [apply keepsRegistry_gitCall | intros remotes].
  destruct (List.find _ remotes) as [origin|]; [| apply keepsRegistry_ret].
  destruct (negb (startsWith _ _)); [apply keepsRegistry_ret |].
  apply keepsRegistry_bind; [apply keepsRegistry_gets | intros base].
  apply keepsRegistry_bind; [apply keepsRegistry_gets | intros cdir].
  apply keepsRegistry_bind; [apply keepsRegistry_gets | intros present].
  apply keepsRegistry_bind.
  { destruct (negb present);
      [apply keepsRegistry_mkdirSync | apply keepsRegistry_ret]. }
  intros _. apply keepsRegistry_bind; [apply keepsRegistry_writeFileSync |].
  intros _. apply keepsRegistry_gitCall.
Qed.

Lemma keepsRegistry_push folder : keepsRegistry (push folder).
Proof.
  unfold push.
  apply keepsRegistry_bind; [apply keepsRegistry_requireRepo | intros instance].
  apply keepsRegistry_bind; [apply keepsRegistry_configureCredentials |].
  intros _.
  apply keepsRegistry_bind; [apply keepsRegistry_gitCall | intros status].
  destruct (opt_or_else (tracking status) []); apply keepsRegistry_gitCall.
Qed.

Lemma keepsRegistry_pull folder : keepsRegistry (pull folder).
Proof.
  unfold pull.
  apply keepsRegistry_bind; [apply keepsRegistry_requireRepo | intros instance].
  apply keepsRegistry_bind; [apply keepsRegistry_configureCredentials |].
  intros _. apply keepsRegistry_gitCall.
Qed.

Lemma keepsRegistry_autoCommit folder : keepsRegistry (autoCommit folder).
Proof.
  unfold autoCommit.
  apply keepsRegistry_bind; [apply keepsRegistry_gets | intros [instance|]];
    [| apply keepsRegistry_ret].
  apply keepsRegistry_tryCatch; [| intros e; apply keepsRegistry_consoleError].
  apply keepsRegistry_bind; [apply keepsRegistry_gitCall | intros status].
  destruct (Z.of_nat (length (files status)) =? 0); [apply keepsRegistry_ret |].
  apply keepsRegistry_bind; [apply keepsRegistry_gitCall | intros _].
  apply keepsRegistry_bind; [apply keepsRegistry_gets | intros iso].
  apply keepsRegistry_bind; [apply keepsRegistry_gitCall | intros _].
  destruct (autoPush (config instance));
    [apply keepsRegistry_push | apply keepsRegistry_ret].
Qed.

Lemma keepsRegistry_fire h : keepsRegistry (fire h).
Proof.
  destruct h as [i]. unfold fire.
  apply keepsRegistry_bind; [apply keepsRegistry_gets | intros ts].
  destruct (ts !! i) as [slot|]; [| apply keepsRegistry_ret].
  destruct (active slot);
    [apply keepsRegistry_autoCommit | apply keepsRegistry_ret].
Qed.

Lemma wfRegistry_same (w w' : World) :
  repos w' = repos w -> timers w' = timers w ->
  wfRegistry w -> wfRegistry w'.
Proof. unfold wfRegistry. by intros -> ->. Qed.

Lemma wfRegistry_kept {A} (m : M A) (w : World) :
  keepsRegistry m -> wfRegistry w -> wfRegistry (snd (m w)).
Proof.
  intros Hm Hwf. destruct (Hm w) as [Hr Ht].
  by apply (wfRegistry_same w).
Qed.

Lemma wfRegistry_initialize (w : World) :
  wfRegistry w -> wfRegistry (snd (initialize w)).
Proof.
  intros Hwf. unfold initialize. unfold bind at 1. unfold gets.
  apply forEach_keeps; [| done].
  intros cfg w0 Hwf0. unfold tryCatch.
  pose proof (wfRegistry_addRepo w0 cfg Hwf0) as Hadd.
  destruct (addRepo cfg w0) as [[[] | e] w1]; simpl in *; [done |].
  unfold bind, consoleError, notice, modify. simpl.
  by apply (wfRegistry_same w1).
Qed.

(** X6. Well-formedness of the registry (unique folders, no timer handle
    held twice, every held handle a running timer that calls back with the
    folder of its holder) holds for the empty registry and is kept by every
    method that touches the map or the timers, [addRepo], [removeRepo],
    [destroy] and [initialize], and by the auto-commit cycle, a timer that
    fires, [push] and [pull]. *)
Theorem wfRegistry_is_kept (w : World) :
  wfRegistry w ->
  (forall cfg, wfRegistry (snd (addRepo cfg w)))
  /\ (forall folder, wfRegistry (snd (removeRepo folder w)))
  /\ wfRegistry (snd (destroy w))
  /\ wfRegistry (snd (initialize w))
  /\ (forall folder, wfRegistry (snd (autoCommit folder w)))
  /\ (forall h, wfRegistry (snd (fire h w)))
  /\ (forall folder, wfRegistry (snd (push folder w)))
  /\ (forall folder, wfRegistry (snd (pull folder w)))
  /\ (forall w0, repos w0 = [] -> wfRegistry w0).
Proof.
  intros Hwf.
  split; [intros cfg; by apply wfRegistry_addRepo |].
  split; [intros folder; by apply wfRegistry_removeRepo |].
  split; [apply wfRegistry_destroy |].
  split; [by apply wfRegistry_initialize |].
  split.
  { intros folder.
    by apply wfRegistry_kept; [apply keepsRegistry_autoCommit |]. }
  split; [intros h; by apply wfRegistry_kept; [apply keepsRegistry_fire |] |].
  split.
  { intros folder. by apply wfRegistry_kept; [apply keepsRegistry_push |]. }
  split.
  { intros folder. by apply wfRegistry_kept; [apply keepsRegistry_pull |]. }
  apply wfRegistry_empty.
Qed.

(* ===================================================================== *)
(** * 22. Instances, folders and paths                                    *)
(* ===================================================================== *)

Lemma resolveAbsolutePath_base (w w' : World) (k : jsstring) :
  vaultBasePath w' = vaultBasePath w ->
  resolveAbsolutePath w' k = resolveAbsolutePath w k.
Proof. intros H. unfold resolveAbsolutePath. by rewrite H. Qed.

Lemma coherentRegistry_addRepo (w : World) (cfg : FolderRepoConfig) :
  coherentRegistry w -> coherentRegistry (snd (addRepo cfg w)).
Proof.
  intros Hco.
  destruct (factoryOutcome w
              (handleFor w (resolveAbsolutePath w (folderPath cfg))))
    as [[] | e0] eqn:Hdir; [| by rewrite (addRepo_refused w cfg e0 Hdir)].
  destruct (answerCheckIsRepo (git w)
              (gitTrace w
                 ++ [{| onHandle :=
                          {| baseDir :=
                               Some (resolveAbsolutePath w (folderPath cfg));
                             binary := gitBinary w;
                             handleConfig := [str "core.quotepath=off"] |};
                        command := CheckIsRepo |}])) as [[|] | e] eqn:Hans.
  - destruct (addRepo_accepted w cfg Hdir Hans)
      as (timer & started & Heq & _ & _).
    rewrite Heq. intros k inst Hin. simpl in Hin.
    apply map_set_In_weak in Hin as [[-> ->] | Hin]; [done |].
    by apply Hco.
  - rewrite (addRepo_rejected w cfg Hdir Hans). by apply Hco.
  - rewrite (addRepo_check_failed w cfg e Hdir Hans). by apply Hco.
Qed.

Lemma coherentRegistry_removeRepo (w : World) (folder : jsstring) :
  coherentRegistry w -> coherentRegistry (snd (removeRepo folder w)).
Proof.
  intros Hco k inst Hin.
  destruct (removeRepo_effect w folder) as [Hrepos _].
  rewrite Hrepos in Hin. apply map_delete_In in Hin as [Hin _].
  assert (vaultBasePath (snd (removeRepo folder w)) = vaultBasePath w)
    as Hbase.
  { unfold removeRepo, bind, getRepo, gets.
    destruct (map_get folder (repos w)) as [removed|]; [| done].
    unfold clearTimerOf. by destruct (autoCommitTimer removed) as [[j]|]. }
  rewrite (resolveAbsolutePath_base _ _ _ Hbase). by apply Hco.
Qed.

(** X7. The registry keeps every instance under the folder of its own
    configuration, bound to the directory that folder resolves to: this
    holds for the empty registry and is kept by [addRepo], [removeRepo] and
    [destroy]. *)
Theorem coherentRegistry_is_kept (w : World) :
  coherentRegistry w ->
  (forall cfg, coherentRegistry (snd (addRepo cfg w)))
  /\ (forall folder, coherentRegistry (snd (removeRepo folder w)))
  /\ coherentRegistry (snd (destroy w))
  /\ (forall w0, repos w0 = [] -> coherentRegistry w0).
Proof.
  intros Hco.
  split; [intros cfg; by apply coherentRegistry_addRepo |].
  split; [intros folder; by apply coherentRegistry_removeRepo |].
  split.
  - intros k inst Hin. destruct (destroy_effect w) as [Hempty _].
    by rewrite Hempty in Hin.
  - intros w0 Hempty k inst Hin. by rewrite Hempty in Hin.
Qed.

Lemma drop_folder_slash (folder rest : jsstring) :
  drop (length folder + 1) (folder ++ str "/" ++ rest) = rest.
Proof.
  replace (folder ++ str "/" ++ rest) with ((folder ++ str "/") ++ rest)
    by (by rewrite <- app_assoc).
  replace (length folder + 1)%nat with (length (folder ++ str "/"))
    by (by rewrite length_app).
  apply drop_app_length.
Qed.

Lemma startsWith_folder_slash (folder rest : jsstring) :
  startsWith (folder ++ str "/" ++ rest) (folder ++ str "/") = true.
Proof. apply startsWith_app. exists rest. by rewrite <- app_assoc. Qed.

(** X8. The file menu of src/main.ts.  In a registry that keeps its
    instances under their own folders, the relative path computed for a
    file and its owner leads back to the file: it is the file path itself
    when the owner sits at the vault root or the file is the folder of the
    owner, and otherwise the owner's folder, a slash and the relative path
    spell the file path. *)
Theorem menuRelativePath_leads_back (w : World) (filePath : jsstring)
    (repo : RepoInstance) :
  coherentRegistry w ->
  getRepoForFile filePath w = (Ok (Some repo), w) ->
  let folder := folderPath (config repo) in
  let relativePath := menuRelativePath folder filePath in
  In (folder, repo) (repos w)
  /\ ((folder = [] \/ filePath = folder) /\ relativePath = filePath
      \/ folder <> [] /\ filePath = folder ++ str "/" ++ relativePath).
Proof.
  intros Hco Hrun folder relativePath.
  unfold getRepoForFile, gets in Hrun. injection Hrun as Hown.
  pose proof (ownerOf_invariant (repos w) filePath) as Hinv.
  unfold ownerOf in Hown. unfold bestInvariant in Hinv. rewrite Hown in Hinv.
  destruct Hinv as (k & Hin & Hm & _).
  destruct (Hco _ _ Hin) as (Hk & _). fold folder in Hk. subst k.
  split; [done |].
  apply folderMatches_spec in Hm.
  unfold relativePath, menuRelativePath.
  destruct folder as [|c folder'] eqn:Hfolder; [left; by split; [left |] |].
  rewrite <- Hfolder in *. cbn [truthy].
  assert (truthy folder = true) as -> by (by rewrite Hfolder).
  destruct (startsWith filePath (folder ++ str "/")) eqn:Hs.
  - right. split; [by rewrite Hfolder |].
    apply startsWith_app in Hs as [rest ->]. rewrite <- app_assoc.
    by rewrite drop_folder_slash.
  - left. split; [| done].
    destruct Hm as [Hm | [Hm | [rest Hm]]]; [by right | by left |].
    rewrite Hm, startsWith_folder_slash in Hs. discriminate.
Qed.

(** X9. Both callers that strip the folder from a vault path undo what
    [getStatus] did to build it: the relative path of the record comes
    back, for the untracked list of the source-control view as for the file
    menu. *)
Theorem callers_recover_relative_path (folder : jsstring) (file : FileStatus) :
  repoRelativePath folder (vaultPathOf folder file) = path file
  /\ menuRelativePath folder (vaultPathOf folder file) = path file.
Proof.
  unfold repoRelativePath, menuRelativePath, vaultPathOf.
  destruct (truthy folder) eqn:Ht; [| done].
  rewrite startsWith_folder_slash, drop_folder_slash. split; [| done].
  unfold js_replace.
  replace (find_first (folder ++ str "/") (folder ++ str "/" ++ path file))
    with (Some ([] : jsstring, path file)); [done |].
  symmetry.
  destruct (folder ++ str "/" ++ path file) as [|c s] eqn:E.
  - destruct folder; discriminate.
  - simpl find_first. rewrite <- E. rewrite startsWith_folder_slash.
    replace (folder ++ str "/" ++ path file)
      with ((folder ++ str "/") ++ path file) by (by rewrite <- app_assoc).
    by rewrite drop_app_length.
Qed.

(** ** The result of [getStatus] *)

Lemma getStatus_run (w : World) (folder : jsstring) (instance : RepoInstance)
    (st : StatusResult) :
  map_get folder (repos w) = Some instance ->
  answerStatus (git w)
    (gitTrace w ++ [{| onHandle := gitHandle instance; command := Status |}])
  = Ok st ->
  getStatus folder w
  = (Ok {| statusFolderPath := folder;
           branch := opt_or_else (current st) (str "HEAD");
           staged := stagedOf folder (files st);
           changed := changedOf folder (files st);
           untracked := untrackedOf folder (files st);
           conflicted := conflictedOf folder (files st);
           statusAhead := ahead st; statusBehind := behind st |},
     set_gitTrace
       (gitTrace w ++ [{| onHandle := gitHandle instance; command := Status |}])
       w).
Proof.
  intros Hrepo Hst. unfold getStatus, bind, getRepo, gets, gitCall, ret.
  rewrite Hrepo, Hst. by rewrite statusLoop_spec.
Qed.

Lemma spec_display_of_change (code : jsstring) :
  code <> str "?" -> code <> str "U" ->
  In (spec_display code) [Modified; Added; Deleted; Renamed].
Proof.
  intros Hq Hu. rewrite <- mapStatus_display. unfold mapStatus.
  apply js_eqb_false in Hq, Hu. rewrite Hq, Hu.
  destruct (js_eqb code (str "M")); [by left |].
  destruct (js_eqb code (str "A")); [right; by left |].
  destruct (js_eqb code (str "D")); [right; right; by left |].
  destruct (js_eqb code (str "R")); [right; right; right; by left |].
  by left.
Qed.

Lemma tracked_codes (file : FileStatus) :
  isBucket InTracked file = true ->
  index file <> str "U" /\ working_dir file <> str "U".
Proof.
  unfold isBucket, spec_bucket.
  case_bool_decide as H1; [done |]. case_bool_decide as H2; [done |].
  intros _. split; intros E; apply H2; [by left | by right].
Qed.

Lemma emits_not_question (code : jsstring) :
  spec_emits code = true -> code <> str "?".
Proof.
  unfold spec_emits. intros H. apply bool_decide_eq_true in H. tauto.
Qed.

(** X10. The entries that [getStatus] puts into the staged and the
    changed list never display Untracked, Unmerged or Ignored: their
    display status is Modified, Added, Deleted or Renamed. *)
Theorem getStatus_entries_display_a_change (w : World) (folder : jsstring)
    (instance : RepoInstance) (st : StatusResult) :
  map_get folder (repos w) = Some instance ->
  answerStatus (git w)
    (gitTrace w ++ [{| onHandle := gitHandle instance; command := Status |}])
  = Ok st ->
  exists r,
    fst (getStatus folder w) = Ok r
    /\ forall e,
         In e (staged r ++ changed r) ->
         In (displayStatus e) [Modified; Added; Deleted; Renamed].
Proof.
  intros Hrepo Hst. rewrite (getStatus_run _ _ _ _ Hrepo Hst).
  eexists. split; [reflexivity |]. simpl.
  intros e [Hin | Hin]%in_app_iff.
  - unfold stagedOf in Hin.
    apply in_map_iff in Hin as (file & <- & Hfile).
    apply List.filter_In in Hfile as [_ [Ht He]%andb_true_iff].
    simpl. apply spec_display_of_change.
    + by apply emits_not_question.
    + by apply tracked_codes.
  - unfold changedOf in Hin.
    apply in_map_iff in Hin as (file & <- & Hfile).
    apply List.filter_In in Hfile as [_ [Ht He]%andb_true_iff].
    simpl. apply spec_display_of_change.
    + by apply emits_not_question.
    + by apply tracked_codes.
Qed.

Lemma vaultPathOf_matches (folder : jsstring) (file : FileStatus) :
  folderMatches (vaultPathOf folder file) folder = true.
Proof.
  unfold folderMatches, vaultPathOf. destruct (truthy folder) eqn:Ht.
  - by rewrite startsWith_folder_slash.
  - apply truthy_false in Ht. subst folder. by rewrite js_eqb_refl, orb_true_r.
Qed.

(** X11. Every vault path that [getStatus] reports for a registered
    folder, in any of its four lists, has an owner according to
    [getRepoForFile]: an instance registered under a matching folder that
    is at least as long as the folder asked for, so the folder itself or a
    repository nested below it. *)
Theorem getStatus_paths_are_owned (w : World) (folder : jsstring)
    (instance : RepoInstance) (st : StatusResult) :
  map_get folder (repos w) = Some instance ->
  answerStatus (git w)
    (gitTrace w ++ [{| onHandle := gitHandle instance; command := Status |}])
  = Ok st ->
  exists r,
    fst (getStatus folder w) = Ok r
    /\ forall vp,
         In vp (map vaultPath (staged r) ++ map vaultPath (changed r)
                  ++ untracked r ++ conflicted r) ->
         exists owner k,
           ownerOf (repos w) vp = Some owner
           /\ In (k, owner) (repos w)
           /\ candidateMatches vp k
           /\ (length folder <= length k)%nat.
Proof.
  intros Hrepo Hst. rewrite (getStatus_run _ _ _ _ Hrepo Hst).
  eexists. split; [reflexivity |]. simpl. intros vp Hvp.
  assert (exists file, vp = vaultPathOf folder file) as [file ->].
  { unfold stagedOf, changedOf, untrackedOf, conflictedOf in Hvp.
    rewrite !map_map in Hvp.
    repeat (apply in_app_iff in Hvp as [Hvp | Hvp]);
      apply in_map_iff in Hvp as (file & <- & _); exists file;
      symmetry; apply vaultPathOf_spec. }
  pose proof (ownerOf_invariant (repos w) (vaultPathOf folder file)) as Hinv.
  unfold bestInvariant in Hinv. unfold ownerOf.
  destruct (fst (fold_left _ (repos w) (None, -1))) as [owner|].
  - destruct Hinv as (k & Hin & Hm & _ & Hmax).
    exists owner, k. split; [done |]. split; [done |].
    split; [by apply folderMatches_spec |].
    apply (Hmax folder instance); [by apply map_get_In |].
    apply vaultPathOf_matches.
  - destruct Hinv as [_ Hnone].
    pose proof (Hnone folder instance (map_get_In _ _ _ Hrepo)) as Hno.
    rewrite vaultPathOf_matches in Hno. discriminate.
Qed.

(* ===================================================================== *)
(** * 23. The ignore file: listing a path and taking it off               *)
(* ===================================================================== *)

Lemma addToGitignore_missing (w : World) (folder p : jsstring)
    (instance : RepoInstance) :
  map_get folder (repos w) = Some instance ->
  fs w !! gitignorePathOf instance = None ->
  addToGitignore folder p w
  = (Ok tt,
     set_fs (<[gitignorePathOf instance := File (afterAdd [] p) defaultMode]>
               (fs w)) w).
Proof.
  intros Hrepo Hfile. unfold addToGitignore.
  rewrite (bind_ok _ _ _ _ _ (requireRepo_present _ _ _ Hrepo)).
  assert (existsSync (gitignorePathOf instance) w = (Ok false, w)) as Hex.
  { unfold existsSync, gets. rewrite Hfile.
    rewrite bool_decide_eq_false_2; [done |]. by intros [x Hx]. }
  rewrite (bind_ok _ _ _ _ _ Hex).
  unfold bind, ret, writeFileSync. by rewrite Hfile.
Qed.

Lemma checkExplicitlyIgnored_existing (w : World) (folder p : jsstring)
    (instance : RepoInstance) (content : jsstring) (mode : N) :
  map_get folder (repos w) = Some instance ->
  fs w !! gitignorePathOf instance = Some (File content mode) ->
  checkExplicitlyIgnored folder p w
  = (Ok (existsb (lineMatches p) (split_lines content)), w).
Proof.
  intros Hrepo Hfile. unfold checkExplicitlyIgnored.
  assert (getRepo folder w = (Ok (Some instance), w)) as Hget.
  { unfold getRepo, gets. by rewrite Hrepo. }
  rewrite (bind_ok _ _ _ _ _ Hget).
  assert (existsSync (gitignorePathOf instance) w = (Ok true, w)) as Hex.
  { unfold existsSync, gets. rewrite Hfile.
    by rewrite bool_decide_eq_true_2. }
  rewrite (bind_ok _ _ _ _ _ Hex). cbn [negb].
  assert (readFileSync (gitignorePathOf instance) w = (Ok content, w))
    as Hread.
  { unfold readFileSync. by rewrite Hfile. }
  by rewrite (bind_ok _ _ _ _ _ Hread).
Qed.

Lemma checkExplicitlyIgnored_missing (w : World) (folder p : jsstring)
    (instance : RepoInstance) :
  map_get folder (repos w) = Some instance ->
  fs w !! gitignorePathOf instance = None ->
  checkExplicitlyIgnored folder p w = (Ok false, w).
Proof.
  intros Hrepo Hfile. unfold checkExplicitlyIgnored.
  assert (getRepo folder w = (Ok (Some instance), w)) as Hget.
  { unfold getRepo, gets. by rewrite Hrepo. }
  rewrite (bind_ok _ _ _ _ _ Hget).
  assert (existsSync (gitignorePathOf instance) w = (Ok false, w)) as Hex.
  { unfold existsSync, gets. rewrite Hfile.
    rewrite bool_decide_eq_false_2; [done |]. by intros [x Hx]. }
  by rewrite (bind_ok _ _ _ _ _ Hex).
Qed.

Lemma removeFromGitignore_missing (w : World) (folder p : jsstring)
    (instance : RepoInstance) :
  map_get folder (repos w) = Some instance ->
  fs w !! gitignorePathOf instance = None ->
  removeFromGitignore folder p w = (Ok tt, w).
Proof.
  intros Hrepo Hfile. unfold removeFromGitignore.
  rewrite (bind_ok _ _ _ _ _ (requireRepo_present _ _ _ Hrepo)).
  assert (existsSync (gitignorePathOf instance) w = (Ok false, w)) as Hex.
  { unfold existsSync, gets. rewrite Hfile.
    rewrite bool_decide_eq_false_2; [done |]. by intros [x Hx]. }
  by rewrite (bind_ok _ _ _ _ _ Hex).
Qed.

(** The text written by [addToGitignore] ends with the line [p] and an
    empty line. *)
Lemma afterAdd_lines (content p : jsstring) :
  trim p = p -> ~ In LF p ->
  exists ls, split_lines (afterAdd content p) = ls ++ [p; []].
Proof.
  intros Htrim HnoLF.
  pose proof (trimmed_no_CR_end p Htrim) as HpCR.
  assert (split_lines (p ++ [LF]) = [p; []]) as Hpline
    by (by rewrite split_lines_line).
  unfold afterAdd.
  destruct ((0 <? js_length content) && negb (endsWithLF content)) eqn:Hc.
  - exists (terminatedLines content).
    by rewrite split_lines_after_terminated, Hpline.
  - destruct content as [|c0 content0] eqn:Hcontent.
    + exists []. done.
    + rewrite <- Hcontent in *.
      assert ((0 <? js_length content) = true) as Hpos.
      { apply Z.ltb_lt. unfold js_length. rewrite Hcontent. simpl. lia. }
      rewrite Hpos in Hc. cbn [andb] in Hc. apply negb_false_iff in Hc.
      unfold endsWithLF in Hc.
      destruct (last content) as [x|] eqn:Hlast; [| done].
      apply N.eqb_eq in Hc. subst x.
      apply last_Some in Hlast as [d ->].
      exists (terminatedLines d).
      by rewrite split_lines_after_terminated, Hpline.
Qed.

(** X12. After [addToGitignore p], for a path without line feed and
    without white space at either end, [checkExplicitlyIgnored p] answers
    true, whether the ignore file existed before or not. *)
Theorem addToGitignore_then_listed (w : World) (folder p : jsstring)
    (instance : RepoInstance) :
  map_get folder (repos w) = Some instance ->
  fs w !! gitignorePathOf instance <> Some Dir ->
  trim p = p -> ~ In LF p ->
  exists w1,
    addToGitignore folder p w = (Ok tt, w1)
    /\ checkExplicitlyIgnored folder p w1 = (Ok true, w1).
Proof.
  intros Hrepo Hnodir Htrim HnoLF.
  assert (forall content, existsb (lineMatches p)
                            (split_lines (afterAdd content p)) = true)
    as Hlisted.
  { intros content. destruct (afterAdd_lines content p Htrim HnoLF) as [ls ->].
    apply existsb_exists. exists p. split.
    - apply in_app_iff. right. by left.
    - by apply lineMatches_self. }
  destruct (fs w !! gitignorePathOf instance) as [[content mode |] |] eqn:Hfile.
  - eexists. split.
    + by apply (addToGitignore_existing _ _ _ instance content mode).
    + rewrite (checkExplicitlyIgnored_existing _ _ _ instance
                 (afterAdd content p) mode); [by rewrite Hlisted | done |].
      simpl. by rewrite lookup_insert_eq.
  - done.
  - eexists. split.
    + by apply (addToGitignore_missing _ _ _ instance).
    + rewrite (checkExplicitlyIgnored_existing _ _ _ instance
                 (afterAdd [] p) defaultMode); [by rewrite Hlisted | done |].
      simpl. by rewrite lookup_insert_eq.
Qed.

(** ** Lines after a join, up to white space *)

Lemma split_lines_CRLF_line (d rest : jsstring) :
  ~ In LF d ->
  split_lines (d ++ CR :: LF :: rest) = d :: split_lines rest.
Proof.
  induction d as [|c d IH]; intros Hno.
  - apply split_lines_CRLF.
  - assert (c <> LF) as Hc by (intros ->; apply Hno; by left).
    assert (~ In LF d) as Hd by (intros H; apply Hno; by right).
    cbn [app]. destruct d as [|c' d'].
    + cbn [app]. rewrite split_lines_more; [| done | by intros [_ ?]].
      by rewrite split_lines_CRLF.
    + cbn [app]. rewrite split_lines_more; [| done |].
      * cbn [app] in IH. by rewrite (IH Hd).
      * intros [_ ->]. apply Hd. by left.
Qed.

Lemma trimStart_snoc_ws (l : jsstring) (c : N) :
  isWhiteSpace c = true ->
  trimStart (l ++ [c])
  = match trimStart l with [] => [] | _ :: _ => trimStart l ++ [c] end.
Proof.
  intros Hc. induction l as [|x l IH]; simpl.
  - by rewrite Hc.
  - by destruct (isWhiteSpace x).
Qed.

Lemma trim_snoc_ws (l : jsstring) (c : N) :
  isWhiteSpace c = true -> trim (l ++ [c]) = trim l.
Proof.
  intros Hc. unfold trim. rewrite (trimStart_snoc_ws _ _ Hc).
  destruct (trimStart l) as [|x t] eqn:E; [done |].
  rewrite rev_app_distr. simpl rev at 1. cbn [app trimStart].
  by rewrite Hc.
Qed.

(** A line that gets a line feed reads as one line with the same trimmed
    text. *)
Lemma terminatedLines_of_line (l : jsstring) :
  ~ In LF l -> exists l0, terminatedLines l = [l0] /\ trim l0 = trim l.
Proof.
  intros Hno.
  destruct (decide (last l = Some CR)) as [Hcr | Hcr].
  - apply last_Some in Hcr as [d ->]. exists d. split.
    + unfold terminatedLines. rewrite <- app_assoc. cbn [app].
      rewrite split_lines_CRLF_line; [done |].
      intros H. apply Hno. apply in_app_iff. by left.
    + symmetry. by apply trim_snoc_ws.
  - exists l. split; [| done].
    by rewrite terminatedLines_plain, split_lines_single.
Qed.

Lemma split_join_trimmed (ls : list jsstring) :
  ls <> [] ->
  (forall l, In l ls -> ~ In LF l) ->
  map trim (split_lines (join_lines ls)) = map trim ls.
Proof.
  induction ls as [|l ls IH]; [done |]. intros _ Hno.
  destruct ls as [|l' r].
  - simpl join_lines. rewrite split_lines_single; [done |].
    apply Hno. by left.
  - change (join_lines (l :: l' :: r)) with (l ++ LF :: join_lines (l' :: r)).
    replace (l ++ LF :: join_lines (l' :: r))
      with ((l ++ [LF]) ++ join_lines (l' :: r)) by (by rewrite <- app_assoc).
    rewrite split_lines_after_terminated.
    destruct (terminatedLines_of_line l) as (l0 & -> & Htrim).
    { apply Hno. by left. }
    cbn [app map]. rewrite Htrim. f_equal.
    apply IH; [done |]. intros l1 Hl1. apply Hno. by right.
Qed.

Lemma lineMatches_trimmed (p l l' : jsstring) :
  trim l = trim l' -> lineMatches p l = lineMatches p l'.
Proof. intros H. unfold lineMatches. by rewrite H. Qed.

Lemma existsb_trimmed (p : jsstring) (ls ls' : list jsstring) :
  map trim ls = map trim ls' ->
  existsb (lineMatches p) ls = existsb (lineMatches p) ls'.
Proof.
  revert ls'. induction ls as [|l ls IH]; intros [|l' ls'] H;
    try discriminate H; [done |].
  injection H as Hl Hls. simpl.
  by rewrite (lineMatches_trimmed p l l' Hl), (IH ls' Hls).
Qed.

Lemma filter_no_match (p : jsstring) (ls : list jsstring) :
  existsb (lineMatches p)
    (List.filter (fun line => negb (lineMatches p line)) ls) = false.
Proof.
  induction ls as [|l ls IH]; [done |]. simpl.
  destruct (lineMatches p l) eqn:E; simpl; [done |]. by rewrite E.
Qed.

Lemma filter_lines_no_LF (p content l : jsstring) :
  In l (List.filter (fun line => negb (lineMatches p line))
          (split_lines content)) ->
  ~ In LF l.
Proof.
  intros [Hin _]%List.filter_In. by apply (split_lines_no_LF content).
Qed.

(** The trimmed lines of the text written by [removeFromGitignore]. *)
Lemma afterRemove_trimmed (content p : jsstring) :
  map trim (split_lines (afterRemove content p))
  = match List.filter (fun line => negb (lineMatches p line))
            (split_lines content) with
    | [] => [[]]
    | kept => map trim kept
    end.
Proof.
  unfold afterRemove.
  pose proof (filter_lines_no_LF p content) as Hno.
  destruct (List.filter _ (split_lines content)) as [|l kept] eqn:E; [done |].
  by apply split_join_trimmed.
Qed.

(** X13. [removeFromGitignore p] rewrites an existing ignore file so that
    its lines, white space at their ends aside, are exactly the lines that
    did not name [p], in their order; a file left without any line reads as
    one empty line.  No other file changes. *)
Theorem removeFromGitignore_keeps_other_lines (w : World) (folder p : jsstring)
    (instance : RepoInstance) (content : jsstring) (mode : N) :
  map_get folder (repos w) = Some instance ->
  fs w !! gitignorePathOf instance = Some (File content mode) ->
  exists w1 after,
    removeFromGitignore folder p w = (Ok tt, w1)
    /\ linesAt w1 (gitignorePathOf instance) = Some after
    /\ map trim after
       = match List.filter (fun line => negb (lineMatches p line))
               (split_lines content) with
         | [] => [[]]
         | kept => map trim kept
         end
    /\ (forall q, q <> gitignorePathOf instance -> fs w1 !! q = fs w !! q).
Proof.
  intros Hrepo Hfile.
  eexists _, (split_lines (afterRemove content p)). split.
  - by apply (removeFromGitignore_existing _ _ _ instance content mode).
  - split; [| split].
    + unfold linesAt. simpl. by rewrite lookup_insert_eq.
    + apply afterRemove_trimmed.
    + intros q Hq. simpl. by rewrite lookup_insert_ne.
Qed.

(** X14. After [removeFromGitignore p], for a non-empty path,
    [checkExplicitlyIgnored p] answers false, whether the ignore file
    exists or not. *)
Theorem removeFromGitignore_then_not_listed (w : World) (folder p : jsstring)
    (instance : RepoInstance) :
  map_get folder (repos w) = Some instance ->
  fs w !! gitignorePathOf instance <> Some Dir ->
  p <> [] ->
  exists w1,
    removeFromGitignore folder p w = (Ok tt, w1)
    /\ checkExplicitlyIgnored folder p w1 = (Ok false, w1).
Proof.
  intros Hrepo Hnodir Hp.
  destruct (fs w !! gitignorePathOf instance) as [[content mode |] |] eqn:Hfile.
  - eexists. split.
    + by apply (removeFromGitignore_existing _ _ _ instance content mode).
    + rewrite (checkExplicitlyIgnored_existing _ _ _ instance
                 (afterRemove content p) mode);
        [| done | simpl; by rewrite lookup_insert_eq].
      f_equal. f_equal.
      pose proof (afterRemove_trimmed content p) as Htr.
      pose proof (filter_no_match p (split_lines content)) as Hnone.
      destruct (List.filter _ (split_lines content)) as [|l kept].
      * rewrite (existsb_trimmed p _ [[]]) by done. simpl.
        by rewrite (lineMatches_empty p Hp).
      * by rewrite (existsb_trimmed p _ (l :: kept)).
  - done.
  - exists w. split.
    + by apply (removeFromGitignore_missing _ _ _ instance).
    + by apply (checkExplicitlyIgnored_missing _ _ _ instance).
Qed.

(* ===================================================================== *)
(** * 24. Credentials, push and the auto-commit cycle                      *)
(* ===================================================================== *)

Lemma lastIndexOfSlash_from_bound (s : jsstring) (i best : Z) :
  best < i -> lastIndexOfSlash_from i best s < i + Z.of_nat (length s).
Proof.
  revert i best. induction s as [|c s IH]; intros i best Hb; simpl; [lia |].
  pose proof (IH (i + 1) (if N.eqb c 47%N then i else best)) as H.
  destruct (N.eqb c 47%N); lia.
Qed.

Lemma credDir_shorter (w : World) :
  (length (credDirOf w) < length (credPathOf w))%nat.
Proof.
  unfold credDirOf, substring0. rewrite length_take.
  pose proof (lastIndexOfSlash_from_bound (credPathOf w) 0 (-1)) as H.
  unfold lastIndexOfSlash.
  assert (0 < length (credPathOf w))%nat.
  { unfold credPathOf. rewrite !length_app.
    change (length (str "/")) with 1%nat. lia. }
  lia.
Qed.

Lemma configureCredentials_run (w : World) (folder : jsstring)
    (instance : RepoInstance) (remotes : list RemoteWithRefs)
    (origin : RemoteWithRefs) :
  truthy (githubToken (settings w)) = true ->
  truthy (githubUsername (settings w)) = true ->
  map_get folder (repos w) = Some instance ->
  answerGetRemotes (git w)
    (gitTrace w
       ++ [{| onHandle := gitHandle instance; command := GetRemotes |}])
  = Ok remotes ->
  activeRemote instance remotes = Some origin ->
  startsWith (or_else (refsPush origin) (or_else (refsFetch origin) []))
    (str "https://") = true ->
  fs w !! credPathOf w <> Some Dir ->
  let t2 :=
    gitTrace w
      ++ [{| onHandle := gitHandle instance; command := GetRemotes |};
          {| onHandle := gitHandle instance;
             command := credConfigCommand w |}] in
  configureCredentials folder w
  = (answerVoid (git w) t2, set_gitTrace t2 (set_fs (credDiskOf w) w)).
Proof.
  intros Htok Husr Hrepo Hrem Hfind Hurl Hnodir t2.
  unfold configureCredentials.
  unfold bind at 1. unfold gets at 1. unfold bind at 1. unfold gets at 1.
  rewrite Htok, Husr. cbn [negb orb].
  unfold bind at 1. unfold getRepo, gets at 1. rewrite Hrepo.
  unfold bind at 1. unfold gitCall at 1. rewrite Hrem.
  unfold activeRemote in Hfind. rewrite Hfind, Hurl. cbn [negb].
  unfold bind at 1. unfold gets at 1. unfold bind at 1. unfold gets at 1.
  cbn [vaultBasePath configDir set_gitTrace].
  change (vaultBasePath w ++ str "/" ++ configDir w
            ++ str "/plugins/obsidian-folder-git/.git-credentials")
    with (credPathOf w).
  change (substring0 (Z.to_nat (lastIndexOfSlash (credPathOf w)))
            (credPathOf w)) with (credDirOf w).
  change (str "https://" ++ githubUsername (settings w) ++ str ":"
            ++ githubToken (settings w) ++ str "@github.com" ++ [LF])
    with (credLineOf w).
  assert (credDirOf w <> credPathOf w) as Hne.
  { intros E. pose proof (credDir_shorter w) as H. rewrite E in H. lia. }
  unfold bind at 1. unfold existsSync, gets at 1. cbn [fs set_gitTrace].
  unfold credDiskOf, credModeOf.
  destruct (bool_decide (is_Some (fs w !! credDirOf w))) eqn:Hdir;
    cbn [negb].
  - unfold bind at 1. unfold ret at 1.
    unfold bind at 1. unfold writeFileSync. cbn [fs set_gitTrace].
    destruct (fs w !! credPathOf w) as [[c m|]|] eqn:Hcred; [| done |];
      unfold gitCall; cbn [gitTrace set_fs set_gitTrace git];
      subst t2; by rewrite <- app_assoc.
  - apply bool_decide_eq_false in Hdir.
    assert (fs w !! credDirOf w = None) as Hnone.
    { destruct (fs w !! credDirOf w) eqn:E; [| done].
      exfalso. apply Hdir. by eexists. }
    unfold bind at 1. unfold mkdirSync at 1. cbn [fs set_gitTrace].
    rewrite Hnone.
    unfold bind at 1. unfold writeFileSync. cbn [fs set_fs set_gitTrace].
    rewrite lookup_insert_ne by done.
    destruct (fs w !! credPathOf w) as [[c m|]|] eqn:Hcred; [| done |];
      unfold gitCall; cbn [gitTrace set_fs set_gitTrace git fs];
      subst t2; by rewrite <- app_assoc.
Qed.

(** X15. With a token and a user name configured and an https remote under
    the configured name, [configureCredentials] writes the one credential
    line to the credential file (keeping the mode of an existing file,
    0o600 otherwise), touches no other file except for making the directory
    of that file, issues the listing of the remotes and the local
    [credential.helper] entry that points at the file, and returns what
    that last command returns. *)
Theorem configureCredentials_provisions (w : World) (folder : jsstring)
    (instance : RepoInstance) (remotes : list RemoteWithRefs)
    (origin : RemoteWithRefs) :
  truthy (githubToken (settings w)) = true ->
  truthy (githubUsername (settings w)) = true ->
  map_get folder (repos w) = Some instance ->
  answerGetRemotes (git w)
    (gitTrace w
       ++ [{| onHandle := gitHandle instance; command := GetRemotes |}])
  = Ok remotes ->
  activeRemote instance remotes = Some origin ->
  startsWith (or_else (refsPush origin) (or_else (refsFetch origin) []))
    (str "https://") = true ->
  fs w !! credPathOf w <> Some Dir ->
  exists w1,
    snd (configureCredentials folder w) = w1
    /\ fs w1 !! credPathOf w = Some (File (credLineOf w) (credModeOf w))
    /\ (forall q, q <> credPathOf w -> q <> credDirOf w ->
                  fs w1 !! q = fs w !! q)
    /\ gitTrace w1
       = gitTrace w
           ++ [{| onHandle := gitHandle instance; command := GetRemotes |};
               {| onHandle := gitHandle instance;
                  command := credConfigCommand w |}]
    /\ fst (configureCredentials folder w) = answerVoid (git w) (gitTrace w1).
Proof.
  intros Htok Husr Hrepo Hrem Hfind Hurl Hnodir.
  rewrite (configureCredentials_run w folder instance remotes origin)
    by done.
  eexists. split; [reflexivity |]. cbn [fst snd fs set_gitTrace set_fs gitTrace].
  split; [| split; [| done]].
  - unfold credDiskOf. by rewrite lookup_insert_eq.
  - intros q Hq1 Hq2. unfold credDiskOf. rewrite lookup_insert_ne by done.
    destruct (bool_decide (is_Some (fs w !! credDirOf w))); [done |].
    by rewrite lookup_insert_ne.
Qed.

Lemma credDisk_again (w w1 : World) :
  settings w1 = settings w -> vaultBasePath w1 = vaultBasePath w ->
  configDir w1 = configDir w -> fs w1 = credDiskOf w ->
  credDiskOf w1 = credDiskOf w.
Proof.
  intros Hs Hb Hc Hfs.
  assert (credPathOf w1 = credPathOf w) as Hp
    by (unfold credPathOf; by rewrite Hb, Hc).
  assert (credDirOf w1 = credDirOf w) as Hd
    by (unfold credDirOf; by rewrite Hp).
  assert (credLineOf w1 = credLineOf w) as Hl
    by (unfold credLineOf; by rewrite Hs).
  assert (credDirOf w <> credPathOf w) as Hne.
  { intros E. pose proof (credDir_shorter w) as H. rewrite E in H. lia. }
  assert (fs w1 !! credPathOf w
          = Some (File (credLineOf w) (credModeOf w))) as Hfile.
  { rewrite Hfs. unfold credDiskOf. by rewrite lookup_insert_eq. }
  assert (is_Some (fs w1 !! credDirOf w)) as Hdir.
  { rewrite Hfs. unfold credDiskOf. rewrite lookup_insert_ne by done.
    case_bool_decide as H; [done |]. rewrite lookup_insert_eq. by eexists. }
  unfold credDiskOf at 1. unfold credModeOf at 1.
  rewrite Hp, Hd, Hl, Hfile. rewrite bool_decide_eq_true_2 by done.
  rewrite Hfs. unfold credDiskOf. by rewrite insert_insert_eq.
Qed.

(** X16. Credential configuration is idempotent on the file system: when
    a second call finds an https remote again, it leaves every file as the
    first call left it and issues the same configuration command. *)
Theorem configureCredentials_twice (w : World) (folder : jsstring)
    (instance : RepoInstance) (remotes remotes2 : list RemoteWithRefs)
    (origin origin2 : RemoteWithRefs) :
  truthy (githubToken (settings w)) = true ->
  truthy (githubUsername (settings w)) = true ->
  map_get folder (repos w) = Some instance ->
  answerGetRemotes (git w)
    (gitTrace w
       ++ [{| onHandle := gitHandle instance; command := GetRemotes |}])
  = Ok remotes ->
  activeRemote instance remotes = Some origin ->
  startsWith (or_else (refsPush origin) (or_else (refsFetch origin) []))
    (str "https://") = true ->
  fs w !! credPathOf w <> Some Dir ->
  answerGetRemotes (git w)
    (gitTrace w
       ++ [{| onHandle := gitHandle instance; command := GetRemotes |};
           {| onHandle := gitHandle instance;
              command := credConfigCommand w |};
           {| onHandle := gitHandle instance; command := GetRemotes |}])
  = Ok remotes2 ->
  activeRemote instance remotes2 = Some origin2 ->
  startsWith (or_else (refsPush origin2) (or_else (refsFetch origin2) []))
    (str "https://") = true ->
  let w1 := snd (configureCredentials folder w) in
  let w2 := snd (configureCredentials folder w1) in
  fs w2 = fs w1
  /\ gitTrace w2
     = gitTrace w1
         ++ [{| onHandle := gitHandle instance; command := GetRemotes |};
             {| onHandle := gitHandle instance;
                command := credConfigCommand w |}].
Proof.
  intros Htok Husr Hrepo Hrem Hfind Hurl Hnodir Hrem2 Hfind2 Hurl2 w1 w2.
  pose proof (configureCredentials_run w folder instance remotes origin
                Htok Husr Hrepo Hrem Hfind Hurl Hnodir) as Hrun.
  cbv zeta in Hrun.
  assert (w1 = set_gitTrace
                 (gitTrace w
                    ++ [{| onHandle := gitHandle instance;
                           command := GetRemotes |};
                        {| onHandle := gitHandle instance;
                           command := credConfigCommand w |}])
                 (set_fs (credDiskOf w) w)) as Hw1.
  { unfold w1. by rewrite Hrun. }
  clearbody w1. subst w1.
  set (w1 := set_gitTrace _ (set_fs (credDiskOf w) w)) in *.
  assert (fs w1 !! credPathOf w1 <> Some Dir) as Hnodir1.
  { change (credPathOf w1) with (credPathOf w). unfold w1. simpl.
    unfold credDiskOf. by rewrite lookup_insert_eq. }
  assert (answerGetRemotes (git w1)
            (gitTrace w1
               ++ [{| onHandle := gitHandle instance;
                      command := GetRemotes |}]) = Ok remotes2) as Hrem1.
  { unfold w1. simpl. by rewrite <- app_assoc. }
  pose proof (configureCredentials_run w1 folder instance remotes2 origin2
                Htok Husr Hrepo Hrem1 Hfind2 Hurl2 Hnodir1) as Hrun2.
  cbv zeta in Hrun2. unfold w2. rewrite Hrun2.
  cbn [snd fs gitTrace set_gitTrace set_fs]. split; [| done].
  by apply credDisk_again.
Qed.

(** X17. When a token and a user name are configured and the listing of
    the remotes fails, [push] and [pull] on a registered folder fail with
    that error after that one command: nothing is pushed or pulled and no
    status is asked. *)
Theorem push_and_pull_need_the_remote_listing (w : World) (folder : jsstring)
    (instance : RepoInstance) (e : Error) :
  truthy (githubToken (settings w)) = true ->
  truthy (githubUsername (settings w)) = true ->
  map_get folder (repos w) = Some instance ->
  answerGetRemotes (git w)
    (gitTrace w
       ++ [{| onHandle := gitHandle instance; command := GetRemotes |}])
  = Throw e ->
  let w1 :=
    set_gitTrace
      (gitTrace w
         ++ [{| onHandle := gitHandle instance; command := GetRemotes |}])
      w in
  push folder w = (Throw e, w1) /\ pull folder w = (Throw e, w1).
Proof.
  intros Htok Husr Hrepo Hrem w1.
  assert (configureCredentials folder w = (Throw e, w1)) as Hcred.
  { unfold configureCredentials.
    unfold bind at 1. unfold gets at 1. unfold bind at 1. unfold gets at 1.
    rewrite Htok, Husr. cbn [negb orb].
    unfold bind at 1. unfold getRepo, gets at 1. rewrite Hrepo.
    unfold bind at 1. unfold gitCall at 1. by rewrite Hrem. }
  split.
  - unfold push. rewrite (bind_ok _ _ _ _ _ (requireRepo_present _ _ _ Hrepo)).
    by rewrite (bind_throw _ _ _ _ _ Hcred).
  - unfold pull. rewrite (bind_ok _ _ _ _ _ (requireRepo_present _ _ _ Hrepo)).
    by rewrite (bind_throw _ _ _ _ _ Hcred).
Qed.

(** ** Components that a cycle leaves alone *)

Lemma keepsField_ret {A B} (f : World -> B) (a : A) : keepsField f (ret a).
Proof. by intros w. Qed.

Lemma keepsField_throw {A B} (f : World -> B) (e : Error) :
  keepsField f (@throw A e).
Proof. by intros w. Qed.

Lemma keepsField_gets {A B} (f : World -> B) (g : World -> A) :
  keepsField f (gets g).
Proof. by intros w. Qed.

Lemma keepsField_gitCall {A B} (f : World -> B) h c
    (answer : GitOracle -> list GitEvent -> Result A) :
  hostBlind f -> keepsField f (gitCall h c answer).
Proof. intros [Ht _] w. apply Ht. Qed.

Lemma keepsField_bind {A B C} (f : World -> C) (m : M A) (k : A -> M B) :
  keepsField f m -> (forall a, keepsField f (k a)) ->
  keepsField f (bind m k).
Proof.
  intros Hm Hk w. unfold bind. specialize (Hm w).
  destruct (m w) as [[a | e] w1]; simpl in *; [| done].
  by rewrite (Hk a w1).
Qed.

Lemma keepsField_writeFileSync {B} (f : World -> B) p data mode :
  hostBlind f -> keepsField f (writeFileSync p data mode).
Proof.
  intros [_ Hfs] w. unfold writeFileSync.
  destruct (fs w !! p) as [[]|]; simpl; by rewrite ?Hfs.
Qed.

Lemma keepsField_mkdirSync {B} (f : World -> B) p :
  hostBlind f -> keepsField f (mkdirSync p).
Proof.
  intros [_ Hfs] w. unfold mkdirSync.
  destruct (fs w !! p) as [[]|]; simpl; by rewrite ?Hfs.
Qed.

Lemma keepsField_requireRepo {B} (f : World -> B) folder :
  keepsField f (requireRepo folder).
Proof.
  apply keepsField_bind; [apply keepsField_gets |].
  intros [i|]; [apply keepsField_ret | apply keepsField_throw].
Qed.

Lemma keepsField_configureCredentials {B} (f : World -> B) folder :
  hostBlind f -> keepsField f (configureCredentials folder).
Proof.
  intros Hf. unfold configureCredentials.
  apply keepsField_bind; [apply keepsField_gets | intros token].
  apply keepsField_bind; [apply keepsField_gets | intros username].
  destruct (negb (truthy token) || negb (truthy username));
    [apply keepsField_ret |].
  apply keepsField_bind; [apply keepsField_gets | intros [instance|]];
    [| apply keepsField_ret].
  apply keepsField_bind; [by apply keepsField_gitCall | intros remotes].
  destruct (List.find _ remotes) as [origin|]; [| apply keepsField_ret].
  destruct (negb (startsWith _ _)); [apply keepsField_ret |].
  apply keepsField_bind; [apply keepsField_gets | intros base].
  apply keepsField_bind; [apply keepsField_gets | intros cdir].
  apply keepsField_bind; [apply keepsField_gets | intros present].
  apply keepsField_bind.
  { destruct (negb present);
      [by apply keepsField_mkdirSync | apply keepsField_ret]. }
  intros _. apply keepsField_bind; [by apply keepsField_writeFileSync |].
  intros _. by apply keepsField_gitCall.
Qed.

Lemma keepsField_push {B} (f : World -> B) folder :
  hostBlind f -> keepsField f (push folder).
Proof.
  intros Hf. unfold push.
  apply keepsField_bind; [apply keepsField_requireRepo | intros instance].
  apply keepsField_bind; [by apply keepsField_configureCredentials |].
  intros _.
  apply keepsField_bind; [by apply keepsField_gitCall | intros status].
  destruct (opt_or_else (tracking status) []); by apply keepsField_gitCall.
Qed.

Lemma hostBlind_consoleErrors : hostBlind consoleErrors.
Proof. by split. Qed.

Lemma hostBlind_notices : hostBlind notices.
Proof. by split. Qed.

(** X18. An auto-commit cycle is contained: it never throws, whatever the
    executable answers; it leaves the map of instances, the timers and the
    notices as they are, so every timer that was running keeps running; and
    it writes at most one console message, the one of its failure. *)
Theorem autoCommit_is_contained (w : World) (folder : jsstring) :
  fst (autoCommit folder w) = Ok tt
  /\ repos (snd (autoCommit folder w)) = repos w
  /\ timers (snd (autoCommit folder w)) = timers w
  /\ (forall i, timerRunning (snd (autoCommit folder w)) i <-> timerRunning w i)
  /\ notices (snd (autoCommit folder w)) = notices w
  /\ (consoleErrors (snd (autoCommit folder w)) = consoleErrors w
      \/ exists e,
           consoleErrors (snd (autoCommit folder w))
           = consoleErrors w ++ [(autoCommitFailureText folder, e)]).
Proof.
  destruct (keepsRegistry_autoCommit folder w) as [Hrepos Htimers].
  assert (fst (autoCommit folder w) = Ok tt
          /\ notices (snd (autoCommit folder w)) = notices w
          /\ (consoleErrors (snd (autoCommit folder w)) = consoleErrors w
              \/ exists e,
                   consoleErrors (snd (autoCommit folder w))
                   = consoleErrors w ++ [(autoCommitFailureText folder, e)]))
    as (Hok & Hnotices & Hconsole).
  { assert (getRepo folder w = (Ok (map_get folder (repos w)), w)) as Hget
      by done.
    unfold autoCommit. rewrite (bind_ok _ _ _ _ _ Hget).
    destruct (map_get folder (repos w)) as [instance|];
      [| split; [done | split; [done | by left]]].
    unfold tryCatch.
    match goal with
    | |- context [match ?body w with _ => _ end] => set (b := body)
    end.
    assert (forall B (f : World -> B), hostBlind f -> keepsField f b) as Hb.
    { intros B f Hf. unfold b.
      apply keepsField_bind; [by apply keepsField_gitCall | intros status].
      destruct (Z.of_nat (length (files status)) =? 0);
        [apply keepsField_ret |].
      apply keepsField_bind; [by apply keepsField_gitCall | intros _].
      apply keepsField_bind; [apply keepsField_gets | intros iso].
      apply keepsField_bind; [by apply keepsField_gitCall | intros _].
      destruct (autoPush (config instance));
        [by apply keepsField_push | apply keepsField_ret]. }
    pose proof (Hb _ consoleErrors hostBlind_consoleErrors w) as Hc.
    pose proof (Hb _ notices hostBlind_notices w) as Hn.
    destruct (b w) as [[[] | e] w1]; simpl in *.
    - split; [done |]. split; [done | by left].
    - split; [done |]. split; [done |]. right. exists e. by rewrite Hc. }
  split; [done |]. split; [done |]. split; [done |].
  split; [| by split].
  intros i. unfold timerRunning. by rewrite Htimers.
Qed.

(* ===================================================================== *)
(** * 25. The log, the advisory queries and the badge                     *)
(* ===================================================================== *)

(** X19. [getLog] on a registered folder asks for 50 entries when no
    limit is given, returns one entry per entry of the executable, in the
    same order, and the short hash of each is the first seven code units of
    its hash, or the whole hash when that is shorter. *)
Theorem getLog_entries (w : World) (folder : jsstring)
    (instance : RepoInstance) (limit : option Z) (all : list DiffLogEntry) :
  map_get folder (repos w) = Some instance ->
  answerLog (git w)
    (gitTrace w
       ++ [{| onHandle := gitHandle instance;
              command := Log (match limit with Some n => n | None => 50 end) |}])
  = Ok all ->
  exists entries,
    fst (getLog folder limit w) = Ok entries
    /\ map entryHash entries = map hash all
    /\ map entryFiles entries
       = map (fun e => match diffFiles e with Some l => l | None => [] end) all
    /\ forall e,
         In e entries ->
         length (hashShort e) = Nat.min 7 (length (entryHash e))
         /\ exists rest, entryHash e = hashShort e ++ rest.
Proof.
  intros Hrepo Hlog. unfold getLog.
  rewrite (bind_ok _ _ _ _ _ (requireRepo_present _ _ _ Hrepo)).
  assert (gitCall (gitHandle instance) (Log (default 50 limit)) answerLog w
          = (Ok all,
             set_gitTrace
               (gitTrace w
                  ++ [{| onHandle := gitHandle instance;
                         command := Log (default 50 limit) |}]) w)) as Hcall.
  { unfold gitCall. destruct limit; simpl in *; by rewrite Hlog. }
  rewrite (bind_ok _ _ _ _ _ Hcall). unfold ret. cbn [fst].
  eexists. split; [reflexivity |]. split; [| split].
  - rewrite map_map. by apply map_ext.
  - rewrite map_map. apply map_ext. intros e. simpl. by destruct (diffFiles e).
  - intros e Hin. apply in_map_iff in Hin as (d & <- & _).
    unfold toLogEntry. cbn [hashShort entryHash]. unfold substring0. split.
    + by rewrite length_take.
    + exists (drop 7 (hash d)). by rewrite take_drop.
Qed.

(** X20. The advisory queries.  [checkIgnored] never throws: it answers
    true exactly when the folder is registered and the check-ignore command
    succeeds.  [detectRemotesFromPath] asks the factory for its handle
    before its [try]: for a path that is not an existing directory it throws
    the error of the factory and issues no command, and so for any other
    refusal of the factory; once the handle is made it never throws, and it
    answers the empty list unless the executable says the directory is a
    repository, also when the executable fails.  Neither changes the map of
    instances, the timers or a file. *)
Theorem advisory_queries_outcomes (w : World) :
  (forall absolutePath_,
     (folderExists w absolutePath_ = false ->
      detectRemotesFromPath absolutePath_ w = (Throw cannotUseDirectory, w))
     /\ (forall e,
           factoryOutcome w (handleFor w absolutePath_) = Throw e ->
           detectRemotesFromPath absolutePath_ w = (Throw e, w))
     /\ (factoryOutcome w (handleFor w absolutePath_) = Ok tt ->
         exists found,
           fst (detectRemotesFromPath absolutePath_ w) = Ok found
           /\ (answerCheckIsRepo (git w)
                 (gitTrace w
                    ++ [{| onHandle := handleFor w absolutePath_;
                           command := CheckIsRepo |}])
               <> Ok true -> found = []))
     /\ repos (snd (detectRemotesFromPath absolutePath_ w)) = repos w
     /\ timers (snd (detectRemotesFromPath absolutePath_ w)) = timers w
     /\ fs (snd (detectRemotesFromPath absolutePath_ w)) = fs w)
  /\ (forall folder relativePath,
        fst (checkIgnored folder relativePath w)
        = Ok (match map_get folder (repos w) with
              | Some instance =>
                  match answerVoid (git w)
                          (gitTrace w
                             ++ [{| onHandle := gitHandle instance;
                                    command :=
                                      Raw [str "check-ignore"; str "-q";
                                           relativePath] |}])
                  with
                  | Ok _ => true
                  | Throw _ => false
                  end
              | None => false
              end)
        /\ repos (snd (checkIgnored folder relativePath w)) = repos w
        /\ timers (snd (checkIgnored folder relativePath w)) = timers w
        /\ fs (snd (checkIgnored folder relativePath w)) = fs w).
Proof.
  split.
  - intros absolutePath_.
    assert (forall e,
              factoryOutcome w (handleFor w absolutePath_) = Throw e ->
              detectRemotesFromPath absolutePath_ w = (Throw e, w))
      as Hrefused.
    { intros e He. unfold detectRemotesFromPath, bind, gets.
      by rewrite (simpleGit_refused _ _ _ _ _ He). }
    split.
    { intros Hdir. by apply Hrefused, factoryOutcome_missing. }
    split; [exact Hrefused |].
    destruct (factoryOutcome w (handleFor w absolutePath_))
      as [[] | e0] eqn:Hfac.
    2:{ rewrite (Hrefused e0 eq_refl). by repeat split. }
    unfold detectRemotesFromPath, bind, gets.
    rewrite (simpleGit_made _ _ _ _ Hfac).
    unfold tryCatch, bind, gitCall, ret, handleFor.
    destruct (answerCheckIsRepo _ _) as [[|] | e]; simpl.
    + destruct (answerGetRemotes _ _) as [remotes | e]; simpl;
        (split; [intros _; eexists; by split | done]).
    + split; [intros _; eexists; by split | done].
    + split; [intros _; eexists; by split | done].
  - intros folder relativePath.
    unfold checkIgnored, bind, getRepo, gets, tryCatch, gitCall, ret.
    destruct (map_get folder (repos w)) as [instance|]; [| done].
    by destruct (answerVoid _ _) as [[] | e].
Qed.

Lemma map_get_None_keys {V} (k : jsstring) (m : JsMap V) :
  ~ In k (map_keys m) -> map_get k m = None.
Proof.
  induction m as [|[k' v'] m IH]; simpl; [done |]. intros Hno.
  destruct (js_eqb k' k) eqn:E.
  - apply js_eqb_true in E. destruct Hno. by left.
  - apply IH. intros H. apply Hno. by right.
Qed.

Lemma totalOf_app (c1 c2 : JsMap RepoStatus) :
  totalOf (c1 ++ c2) = totalOf c1 + totalOf c2.
Proof.
  induction c1 as [|[k s] c1 IH]; simpl; [done |]. rewrite IH. lia.
Qed.

Lemma getStatus_world (w : World) (folder : jsstring) :
  repos (snd (getStatus folder w)) = repos w
  /\ timers (snd (getStatus folder w)) = timers w
  /\ fs (snd (getStatus folder w)) = fs w.
Proof.
  unfold getStatus, bind, getRepo, gets, gitCall, ret, throw.
  destruct (map_get folder (repos w)) as [instance|]; [| done].
  by destruct (answerStatus _ _).
Qed.

Lemma badgeStep_run (acc : JsMap RepoStatus * Z) (p : jsstring) (w : World) :
  exists acc' w',
    badgeStep acc p w = (Ok acc', w')
    /\ repos w' = repos w /\ timers w' = timers w /\ fs w' = fs w
    /\ (acc' = acc
        \/ exists status,
             acc' = (map_set p status (fst acc), snd acc + changesOf status)).
Proof.
  unfold badgeStep, tryCatch, bind, ret.
  pose proof (getStatus_world w p) as Hworld.
  destruct (getStatus p w) as [[status | e] w1]; simpl in *.
  - eexists _, w1. split; [reflexivity |].
    destruct Hworld as (? & ? & ?). repeat split; try done.
    right. exists status. unfold changesOf. f_equal. lia.
  - exists acc, w1. split; [done |].
    destruct Hworld as (? & ? & ?). repeat split; try done. by left.
Qed.

Lemma badgeLoop (l : list jsstring) (cache : JsMap RepoStatus) (total : Z)
    (w : World) :
  NoDup l ->
  (forall k, In k l -> ~ In k (map_keys cache)) ->
  total = totalOf cache ->
  exists cache' total' w',
    foldM badgeStep l (cache, total) w = (Ok (cache', total'), w')
    /\ total' = totalOf cache'
    /\ (forall k, In k (map_keys cache') -> In k (map_keys cache) \/ In k l)
    /\ repos w' = repos w /\ timers w' = timers w /\ fs w' = fs w.
Proof.
  revert cache total w. induction l as [|p l IH]; intros cache total w
    Hnd Hfresh Htotal.
  - exists cache, total, w. split; [done |]. split; [done |].
    split; [by left | done].
  - apply NoDup_cons in Hnd as [Hp Hnd].
    destruct (badgeStep_run (cache, total) p w)
      as (acc' & w1 & Hstep & Hr & Ht & Hf & Hacc).
    simpl foldM. rewrite (bind_ok _ _ _ _ _ Hstep).
    destruct Hacc as [-> | (status & ->)].
    + destruct (IH cache total w1 Hnd) as
        (cache' & total' & w' & Hrun & Htot & Hkeys & Hr' & Ht' & Hf').
      { intros k Hk. apply Hfresh. by right. }
      { done. }
      exists cache', total', w'. split; [done |]. split; [done |].
      split; [| by rewrite Hr', Ht', Hf'].
      intros k Hk. destruct (Hkeys k Hk); [by left | right; by right].
    + simpl fst. simpl snd.
      assert (map_get p cache = None) as Habsent.
      { apply map_get_None_keys. apply Hfresh. by left. }
      rewrite (map_set_absent _ _ _ Habsent).
      destruct (IH (cache ++ [(p, status)]) (total + changesOf status) w1 Hnd)
        as (cache' & total' & w' & Hrun & Htot & Hkeys & Hr' & Ht' & Hf').
      { intros k Hk. unfold map_keys. rewrite map_app.
        intros [Hin | [<- | []]]%in_app_iff.
        - by apply (Hfresh k (or_intror Hk)).
        - apply Hp. by apply list_elem_of_In. }
      { rewrite totalOf_app, Htotal. simpl. lia. }
      exists cache', total', w'. split; [done |]. split; [done |].
      split; [| by rewrite Hr', Ht', Hf'].
      intros k Hk. destruct (Hkeys k Hk) as [Hin | Hin]; [| right; by right].
      unfold map_keys in Hin. rewrite map_app in Hin.
      apply in_app_iff in Hin as [Hin | [<- | []]];
        [by left | right; by left].
Qed.

(** X21. The polling loop of [updateBadge] never throws: a repository
    whose status fails is skipped.  With the folders of the registry
    distinct, the total it computes is the sum, over the statuses it cached,
    of their staged, changed and untracked entries (conflicted files are
    not counted); it caches registered folders only and changes neither the
    map of instances nor the timers nor a file. *)
Theorem pollStatuses_total (w : World) :
  NoDup (map_keys (repos w)) ->
  exists cache total w',
    pollStatuses w = (Ok (cache, total), w')
    /\ total = totalOf cache
    /\ (forall k, In k (map_keys cache) -> In k (map_keys (repos w)))
    /\ repos w' = repos w /\ timers w' = timers w /\ fs w' = fs w.
Proof.
  intros Hnd. unfold pollStatuses, getAllPaths. unfold bind at 1. unfold gets.
  destruct (badgeLoop (map_keys (repos w)) [] 0 w Hnd)
    as (cache & total & w' & Hrun & Htot & Hkeys & Hrest).
  { by intros k _ []. }
  { done. }
  exists cache, total, w'. split; [done |]. split; [done |].
  split; [| done]. intros k Hk. by destruct (Hkeys k Hk) as [[] | ?].
Qed.

Lemma decimalString_small (n : Z) :
  0 < n <= 99 -> (length (decimalString n) <= 2)%nat.
Proof.
  intros Hn.
  assert (forallb (fun k => Nat.leb (length (decimalString (Z.of_nat k))) 2)
            (seq 1 99) = true) as Hall by (by vm_compute).
  rewrite forallb_forall in Hall.
  specialize (Hall (Z.to_nat n)).
  rewrite Z2Nat.id in Hall by lia.
  apply Nat.leb_le, Hall, in_seq. lia.
Qed.

(** X22. The badge of [updateBadge] shows nothing when there is no
    change, "99+" exactly when there are more than 99, and the number
    otherwise; its text is never longer than three code units. *)
Theorem badgeText_bounds (total : Z) :
  match badgeText total with
  | None => total <= 0
  | Some text =>
      0 < total
      /\ (length text <= 3)%nat
      /\ (text = str "99+" <-> 99 < total)
      /\ (total <= 99 -> text = decimalString total)
  end.
Proof.
  unfold badgeText.
  destruct (Z.ltb_spec 0 total) as [Hpos | Hnon]; [| done].
  destruct (Z.ltb_spec 99 total) as [Hbig | Hsmall].
  - split; [done |]. split; [by vm_compute |]. split; [done | lia].
  - pose proof (decimalString_small total) as Hlen.
    split; [done |]. split; [lia |]. split; [| done].
    split; [| lia]. intros E. apply (f_equal length) in E.
    change (length (str "99+")) with 3%nat in E. lia.
Qed.

(** X23. The add-repository dialog initialises or clones into the
    directory that [addRepo] then checks, for every folder except "/":
    there the dialog appends two slashes to the vault path while the
    registry takes the vault path itself. *)
Theorem modalAbsolutePath_agrees (w : World) (folder : jsstring) :
  modalAbsolutePath w folder = resolveAbsolutePath w folder
  <-> folder <> str "/".
Proof.
  unfold modalAbsolutePath, resolveAbsolutePath.
  destruct folder as [|c folder'] eqn:Hfolder; [done |].
  rewrite <- Hfolder. assert (truthy folder = true) as -> by (by subst).
  assert (js_eqb folder [] = false) as ->
    by (apply js_eqb_false; by subst).
  cbn [orb].
  destruct (js_eqb folder (str "/")) eqn:E.
  - apply js_eqb_true in E. split; [| done].
    intros H. apply (f_equal length) in H. rewrite !length_app in H.
    rewrite E in H. change (length (str "/")) with 1%nat in H. lia.
  - apply js_eqb_false in E. done.
Qed.

(* ===================================================================== *)
(** * 26. Upstreams, commits without a push, and the order of the map     *)
(* ===================================================================== *)

(** X24. With an upstream configured, [push] runs a plain push, without
    "-u" and without naming a remote or a branch, after the credentials and
    the status query; when the status query fails, the error is thrown and
    nothing is pushed. *)
Theorem push_with_upstream (w w1 : World) (folder : jsstring)
    (instance : RepoInstance) :
  map_get folder (repos w) = Some instance ->
  configureCredentials folder w = (Ok tt, w1) ->
  let t2 :=
    gitTrace w1 ++ [{| onHandle := gitHandle instance; command := Status |}] in
  let t3 :=
    t2 ++ [{| onHandle := gitHandle instance; command := Push [] |}] in
  (forall st upstream,
     answerStatus (git w1) t2 = Ok st ->
     tracking st = Some upstream ->
     upstream <> [] ->
     push folder w = (answerVoid (git w1) t3, set_gitTrace t3 w1))
  /\ (forall e,
        answerStatus (git w1) t2 = Throw e ->
        push folder w = (Throw e, set_gitTrace t2 w1)).
Proof.
  intros Hrepo Hcred t2 t3. split.
  - intros st upstream Hst Htrack Hne.
    unfold push, bind. rewrite (requireRepo_present _ _ _ Hrepo), Hcred.
    unfold gitCall. fold t2. rewrite Hst, Htrack.
    destruct upstream; [done |]. reflexivity.
  - intros e Hst.
    unfold push, bind. rewrite (requireRepo_present _ _ _ Hrepo), Hcred.
    unfold gitCall. fold t2. by rewrite Hst.
Qed.

(** X25. With [autoPush] off, an auto-commit cycle issues a prefix of
    status, add ".", commit, and nothing else: it never pushes, never lists
    the remotes and writes no credential file.  The add is issued only when
    the status query succeeded and reported files, the commit only when the
    add succeeded. *)
Theorem autoCommit_without_autoPush (w : World) (folder : jsstring)
    (instance : RepoInstance) :
  map_get folder (repos w) = Some instance ->
  autoPush (config instance) = false ->
  let statusEv := {| onHandle := gitHandle instance; command := Status |} in
  let addEv :=
    {| onHandle := gitHandle instance; command := Add [str "."] |} in
  let commitEv :=
    {| onHandle := gitHandle instance;
       command :=
         Commit (autoCommitMessage (commitMessageTemplate (config instance))
                   (nowISO w)) |} in
  exists n,
    (1 <= n <= 3)%nat
    /\ gitTrace (snd (autoCommit folder w))
       = gitTrace w ++ take n [statusEv; addEv; commitEv]
    /\ fs (snd (autoCommit folder w)) = fs w
    /\ ((2 <= n)%nat ->
        exists st,
          answerStatus (git w) (gitTrace w ++ [statusEv]) = Ok st
          /\ files st <> [])
    /\ ((3 <= n)%nat ->
        answerVoid (git w) (gitTrace w ++ [statusEv; addEv]) = Ok tt).
Proof.
  intros Hrepo Hpush statusEv addEv commitEv.
  unfold autoCommit, bind, getRepo, gets, tryCatch, gitCall, ret,
    consoleError, modify.
  rewrite Hrepo, Hpush. fold statusEv.
  destruct (answerStatus (git w) (gitTrace w ++ [statusEv]))
    as [st | e] eqn:Hst.
  - destruct (files st) as [|f rest] eqn:Hfiles.
    + exists 1%nat. simpl. split; [lia |]. split; [done |]. split; [done |].
      split; intros; lia.
    + replace (Z.of_nat (length (f :: rest)) =? 0) with false
        by (symmetry; apply Z.eqb_neq; simpl; lia).
      cbn [gitTrace set_gitTrace git nowISO]. fold addEv commitEv.
      destruct (answerVoid (git w) ((gitTrace w ++ [statusEv]) ++ [addEv]))
        as [[] | e] eqn:Hadd.
      * rewrite <- app_assoc in Hadd. cbn [app] in Hadd.
        exists 3%nat. split; [lia |].
        destruct (answerVoid (git w)
                    (((gitTrace w ++ [statusEv]) ++ [addEv]) ++ [commitEv]))
          as [[] | e];
          (split; [cbn; by rewrite <- !app_assoc |]); (split; [done |]);
          (split; [intros _; exists st; by rewrite Hfiles | done]).
      * exists 2%nat. split; [lia |].
        split; [cbn; by rewrite <- !app_assoc |]. split; [done |].
        split; [intros _; exists st; by rewrite Hfiles | intros; lia].
  - exists 1%nat. split; [lia |]. split; [done |]. split; [done |].
    split; intros; lia.
Qed.

(** X26. While the folder has no ignore file, [removeFromGitignore] does
    nothing and creates no file, [checkExplicitlyIgnored] answers false, and
    [addToGitignore] creates the file with the path and a line feed as its
    whole content, touching no other file. *)
Theorem ignore_file_missing (w : World) (folder p : jsstring)
    (instance : RepoInstance) :
  map_get folder (repos w) = Some instance ->
  fs w !! gitignorePathOf instance = None ->
  removeFromGitignore folder p w = (Ok tt, w)
  /\ checkExplicitlyIgnored folder p w = (Ok false, w)
  /\ exists w1,
       addToGitignore folder p w = (Ok tt, w1)
       /\ fs w1 !! gitignorePathOf instance
          = Some (File (p ++ [LF]) defaultMode)
       /\ (forall q, q <> gitignorePathOf instance -> fs w1 !! q = fs w !! q).
Proof.
  intros Hrepo Hnone.
  split; [by apply (removeFromGitignore_missing _ _ _ instance) |].
  split; [by apply (checkExplicitlyIgnored_missing _ _ _ instance) |].
  eexists. split; [by apply (addToGitignore_missing _ _ _ instance) |].
  split.
  - simpl. by rewrite lookup_insert_eq.
  - intros q Hq. simpl. by rewrite lookup_insert_ne.
Qed.

Lemma matching_folder_is_prefix (filePath k : jsstring) :
  folderMatches filePath k = true -> k = take (length k) filePath.
Proof.
  intros H. apply folderMatches_spec in H. unfold candidateMatches in H.
  destruct H as [H | [H | H]].
  - subst filePath. by rewrite firstn_all.
  - by subst k.
  - destruct H as [tail H]. subst filePath. by rewrite take_app_length.
Qed.

Lemma map_keys_functional {V} (m : JsMap V) (k : jsstring) (v v' : V) :
  NoDup (map_keys m) -> In (k, v) m -> In (k, v') m -> v = v'.
Proof.
  induction m as [|[k0 v0] m IH]; [intros _ [] |].
  unfold map_keys. cbn [map fst]. intros [Hk0 Hnd]%NoDup_cons.
  intros [E1 | H1] [E2 | H2].
  - congruence.
  - injection E1 as -> ->. destruct Hk0. apply list_elem_of_In.
    change k with (fst (k, v')). by apply in_map.
  - injection E2 as -> ->. destruct Hk0. apply list_elem_of_In.
    change k with (fst (k, v)). by apply in_map.
  - by apply IH.
Qed.

(** X27. With distinct folders, the owner [getRepoForFile] finds for a
    file does not depend on the order in which the repositories were
    registered: two matching folders never have the same length. *)
Theorem getRepoForFile_ignores_order (w w' : World) (filePath : jsstring) :
  NoDup (map_keys (repos w)) ->
  Permutation (repos w) (repos w') ->
  fst (getRepoForFile filePath w) = fst (getRepoForFile filePath w').
Proof.
  intros Hnd Hperm. unfold getRepoForFile, gets. cbn [fst]. f_equal.
  pose proof (ownerOf_invariant (repos w) filePath) as H1.
  pose proof (ownerOf_invariant (repos w') filePath) as H2.
  unfold ownerOf. unfold bestInvariant in H1, H2.
  destruct (fst (fold_left (bestStep filePath) (repos w) (None, -1)))
    as [i1|];
    destruct (fst (fold_left (bestStep filePath) (repos w') (None, -1)))
      as [i2|].
  - destruct H1 as (k1 & Hin1 & Hm1 & _ & Hmax1).
    destruct H2 as (k2 & Hin2 & Hm2 & _ & Hmax2).
    assert (In (k2, i2) (repos w)) as Hin2'
      by (by apply (Permutation_in _ (Permutation_sym Hperm))).
    assert (In (k1, i1) (repos w')) as Hin1'
      by (by apply (Permutation_in _ Hperm)).
    pose proof (Hmax1 _ _ Hin2' Hm2). pose proof (Hmax2 _ _ Hin1' Hm1).
    assert (k1 = k2) as ->.
    { rewrite (matching_folder_is_prefix _ _ Hm1),
        (matching_folder_is_prefix _ _ Hm2).
      f_equal. lia. }
    f_equal. by apply (map_keys_functional (repos w) k2).
  - destruct H1 as (k1 & Hin1 & Hm1 & _). destruct H2 as [_ Hno].
    rewrite (Hno k1 i1) in Hm1; [done |]. by apply (Permutation_in _ Hperm).
  - destruct H2 as (k2 & Hin2 & Hm2 & _). destruct H1 as [_ Hno].
    rewrite (Hno k2 i2) in Hm2; [done |].
    by apply (Permutation_in _ (Permutation_sym Hperm)).
  - done.
Qed.

(* ===================================================================== *)
(** * 27. Concrete runs of the further properties                         *)
(* ===================================================================== *)

Lemma addRepo_keeps_order_of_paths_witness :
  exists w1,
    addRepo (sampleConfig (str "b") 0)
      (sampleWorld nestedRepos [] vaultDisk (constOracle true cleanStatus [])
         [] [])
    = (Ok tt, w1)
    /\ fst (getAllPaths w1) = Ok [[]; str "a"; str "a/b"; str "b"].
Proof.
  destruct (addRepo_keeps_order_of_paths
              (sampleWorld nestedRepos [] vaultDisk
                 (constOracle true cleanStatus []) [] [])
              (sampleConfig (str "b") 0)) as (w1 & Hrun & Hpaths).
  - by vm_compute.
  - reflexivity.
  - exists w1. split; [exact Hrun | exact Hpaths].
Defined.

Lemma addRepo_then_removeRepo_restores_witness :
  exists w1 w2,
    addRepo (sampleConfig (str "notes") 5)
      (sampleWorld [] [] vaultDisk (constOracle true cleanStatus []) [] [])
    = (Ok tt, w1)
    /\ removeRepo (str "notes") w1 = (Ok tt, w2)
    /\ repos w2 = []
    /\ ~ timerRunning w2 0.
Proof.
  destruct (addRepo_then_removeRepo_restores
              (sampleWorld [] [] vaultDisk (constOracle true cleanStatus [])
                 [] [])
              (sampleConfig (str "notes") 5))
    as (w1 & w2 & Hadd & Hremove & Hrepos & Htimers).
  - reflexivity.
  - by vm_compute.
  - reflexivity.
  - exists w1, w2. split; [exact Hadd |]. split; [exact Hremove |].
    split; [exact Hrepos |].
    intros H. apply Htimers in H. destruct H as (slot & Hslot & _).
    discriminate Hslot.
Defined.

Lemma wfRegistry_is_kept_witness :
  wfRegistry (snd (addRepo (sampleConfig (str "notes") 5) timedWorld))
  /\ wfRegistry (snd (destroy timedWorld)).
Proof.
  destruct (wfRegistry_is_kept timedWorld) as (Hadd & _ & Hdestroy & _).
  - split; [apply NoDup_singleton |]. split.
    + intros k1 k2 i1 i2 h [[= <- <-] | []] [[= <- <-] | []] _ _.
      reflexivity.
    + intros k inst i [[= <- <-] | []] [= <-].
      eexists. repeat split; reflexivity.
  - split; [apply Hadd | exact Hdestroy].
Defined.

Lemma coherentRegistry_is_kept_witness :
  coherentRegistry (snd (addRepo (sampleConfig (str "a") 0) changedWorld))
  /\ coherentRegistry (snd (removeRepo (str "notes") changedWorld)).
Proof.
  destruct (coherentRegistry_is_kept changedWorld) as (Hadd & Hremove & _).
  - intros k inst [[= <- <-] | []]. repeat split; reflexivity.
  - split; [apply Hadd | apply Hremove].
Defined.

Lemma menuRelativePath_leads_back_witness :
  str "notes/todo.md"
  = str "notes" ++ str "/"
      ++ menuRelativePath (str "notes") (str "notes/todo.md").
Proof.
  pose proof (menuRelativePath_leads_back changedWorld (str "notes/todo.md")
                notesInstance) as H.
  cbv zeta in H.
  destruct H as [_ [[[E | E] _] | [_ H]]].
  - intros k inst [[= <- <-] | []]. repeat split; reflexivity.
  - reflexivity.
  - discriminate E.
  - discriminate E.
  - exact H.
Defined.

Lemma getStatus_entries_display_a_change_witness :
  exists r,
    fst (getStatus (str "notes") changedWorld) = Ok r
    /\ forall e,
         In e (staged r ++ changed r) ->
         In (displayStatus e) [Modified; Added; Deleted; Renamed].
Proof.
  exact (getStatus_entries_display_a_change changedWorld (str "notes")
           notesInstance notesStatus eq_refl eq_refl).
Defined.

Lemma getStatus_paths_are_owned_witness :
  exists r,
    fst (getStatus (str "notes") changedWorld) = Ok r
    /\ forall vp,
         In vp (map vaultPath (staged r) ++ map vaultPath (changed r)
                  ++ untracked r ++ conflicted r) ->
         exists owner k,
           ownerOf (repos changedWorld) vp = Some owner
           /\ In (k, owner) (repos changedWorld)
           /\ candidateMatches vp k
           /\ (length (str "notes") <= length k)%nat.
Proof.
  exact (getStatus_paths_are_owned changedWorld (str "notes")
           notesInstance notesStatus eq_refl eq_refl).
Defined.

Lemma addToGitignore_then_listed_witness :
  exists w1,
    addToGitignore (str "notes") (str "x/y") (ignoreWorld (str "a" ++ [LF]))
    = (Ok tt, w1)
    /\ checkExplicitlyIgnored (str "notes") (str "x/y") w1 = (Ok true, w1).
Proof.
  apply (addToGitignore_then_listed (ignoreWorld (str "a" ++ [LF]))
           (str "notes") (str "x/y") notesInstance).
  - reflexivity.
  - vm_compute. discriminate.
  - reflexivity.
  - vm_compute. intros [E | [E | [E | []]]]; discriminate E.
Defined.

Lemma removeFromGitignore_keeps_other_lines_witness :
  exists w1 after,
    removeFromGitignore (str "notes") (str "x/y")
      (ignoreWorld (str "a" ++ [LF] ++ str "x/y" ++ [LF]))
    = (Ok tt, w1)
    /\ linesAt w1 (str "/vault/notes/.gitignore") = Some after
    /\ map trim after = [str "a"; []].
Proof.
  destruct (removeFromGitignore_keeps_other_lines
              (ignoreWorld (str "a" ++ [LF] ++ str "x/y" ++ [LF]))
              (str "notes") (str "x/y") notesInstance
              (str "a" ++ [LF] ++ str "x/y" ++ [LF]) defaultMode)
    as (w1 & after & Hrun & Hlines & Htrim & _).
  - reflexivity.
  - by vm_compute.
  - exists w1, after. split; [exact Hrun |]. split; [exact Hlines |].
    exact Htrim.
Defined.

Lemma removeFromGitignore_then_not_listed_witness :
  exists w1,
    removeFromGitignore (str "notes") (str "x/y")
      (ignoreWorld (str "x/y" ++ [LF]))
    = (Ok tt, w1)
    /\ checkExplicitlyIgnored (str "notes") (str "x/y") w1 = (Ok false, w1).
Proof.
  apply (removeFromGitignore_then_not_listed (ignoreWorld (str "x/y" ++ [LF]))
           (str "notes") (str "x/y") notesInstance).
  - reflexivity.
  - vm_compute. discriminate.
  - discriminate.
Defined.

Lemma configureCredentials_provisions_witness :
  fs (snd (configureCredentials (str "notes") tokenWorld))
    !! credPathOf tokenWorld
  = Some (File (credLineOf tokenWorld) (credModeOf tokenWorld))
  /\ fst (configureCredentials (str "notes") tokenWorld) = Ok tt.
Proof.
  destruct (configureCredentials_provisions tokenWorld (str "notes")
              notesInstance [httpsRemote] httpsRemote)
    as (w1 & <- & Hfile & _ & _ & Hresult).
  - reflexivity.
  - reflexivity.
  - reflexivity.
  - reflexivity.
  - reflexivity.
  - reflexivity.
  - vm_compute. discriminate.
  - split; [exact Hfile | exact Hresult].
Defined.

Lemma configureCredentials_twice_witness :
  fs (snd (configureCredentials (str "notes")
             (snd (configureCredentials (str "notes") tokenWorld))))
  = fs (snd (configureCredentials (str "notes") tokenWorld)).
Proof.
  pose proof (configureCredentials_twice tokenWorld (str "notes")
                notesInstance [httpsRemote] [httpsRemote] httpsRemote
                httpsRemote) as H.
  cbv zeta in H. apply H.
  - reflexivity.
  - reflexivity.
  - reflexivity.
  - reflexivity.
  - reflexivity.
  - reflexivity.
  - vm_compute. discriminate.
  - reflexivity.
  - reflexivity.
  - reflexivity.
Defined.

Lemma push_and_pull_need_the_remote_listing_witness :
  fst (push (str "notes")
         (notesWorld notesInstance [] ∅ noRemotesOracle
            (str "ghp_token") (str "user")))
  = Throw (GitFailure (str "fatal: bad config"))
  /\ fst (pull (str "notes")
            (notesWorld notesInstance [] ∅ noRemotesOracle
               (str "ghp_token") (str "user")))
     = Throw (GitFailure (str "fatal: bad config")).
Proof.
  pose proof (push_and_pull_need_the_remote_listing
                (notesWorld notesInstance [] ∅ noRemotesOracle
                   (str "ghp_token") (str "user"))
                (str "notes") notesInstance
                (GitFailure (str "fatal: bad config"))
                eq_refl eq_refl eq_refl eq_refl) as H.
  cbv zeta in H. destruct H as [-> ->]. split; reflexivity.
Defined.

Lemma getLog_entries_witness :
  exists entries,
    fst (getLog (str "notes") None
           (notesWorld notesInstance [] ∅ logOracle [] []))
    = Ok entries
    /\ map entryHash entries = [str "0123456789abcdef"].
Proof.
  destruct (getLog_entries (notesWorld notesInstance [] ∅ logOracle [] [])
              (str "notes") notesInstance None [sampleLogEntry]
              eq_refl eq_refl) as (entries & Hrun & Hhash & _).
  exists entries. split; [exact Hrun | exact Hhash].
Defined.

Lemma pollStatuses_total_witness :
  exists cache total w',
    pollStatuses changedWorld = (Ok (cache, total), w')
    /\ total = totalOf cache.
Proof.
  destruct (pollStatuses_total changedWorld)
    as (cache & total & w' & Hrun & Htotal & _).
  - apply NoDup_singleton.
  - exists cache, total, w'. split; [exact Hrun | exact Htotal].
Defined.

Lemma push_with_upstream_witness :
  gitTrace (snd (push (str "notes") cleanWorld))
  = [{| onHandle := sampleHandle (str "/vault/notes"); command := Status |};
     {| onHandle := sampleHandle (str "/vault/notes"); command := Push [] |}].
Proof.
  pose proof (push_with_upstream cleanWorld cleanWorld (str "notes")
                notesInstance eq_refl eq_refl) as H.
  cbv zeta in H. destruct H as [H _].
  rewrite (H cleanStatus (str "origin/main") eq_refl eq_refl).
  - reflexivity.
  - discriminate.
Defined.

Lemma autoCommit_without_autoPush_witness :
  fs (snd (autoCommit (str "notes") twoDatesWorld)) = ∅.
Proof.
  pose proof (autoCommit_without_autoPush twoDatesWorld (str "notes")
                twoDatesInstance eq_refl eq_refl) as H.
  cbv zeta in H. destruct H as (n & _ & _ & Hfs & _). exact Hfs.
Defined.

Lemma ignore_file_missing_witness :
  removeFromGitignore (str "notes") (str "x/y") cleanWorld
  = (Ok tt, cleanWorld)
  /\ checkExplicitlyIgnored (str "notes") (str "x/y") cleanWorld
     = (Ok false, cleanWorld).
Proof.
  destruct (ignore_file_missing cleanWorld (str "notes") (str "x/y")
              notesInstance) as (Hremove & Hcheck & _).
  - reflexivity.
  - by vm_compute.
  - split; [exact Hremove | exact Hcheck].
Defined.

Lemma getRepoForFile_ignores_order_witness :
  fst (getRepoForFile (str "a/b/c.md")
         (sampleWorld nestedRepos [] ∅ (constOracle true cleanStatus [])
            [] []))
  = fst (getRepoForFile (str "a/b/c.md")
           (sampleWorld swappedRepos [] ∅ (constOracle true cleanStatus [])
              [] [])).
Proof.
  apply getRepoForFile_ignores_order.
  - apply (bool_decide_unpack _). by vm_compute.
  - apply perm_swap.
Defined.
